(** * Car rental record store: parser, transactional writer, repository, batch ingestion

    A shallow embedding of the storage core of [as.cpp] (namespace
    [car_rental]) together with the properties the specification states
    about it, followed by the rental service, the generator of synthetic
    data, the reading of the command line, and the file layer of the
    legacy system ([original.cpp], namespace [legacy_file]), with further
    properties of the code.

    Conventions of the embedding.
    - [std::string] is [string]; a [std::vector] is a [list]; the
      [std::unordered_map] of the repository is a [gmap string CarRecord].
    - [double] is IEEE 754 binary64, written with the standard library's
      [spec_float] (sign, mantissa, exponent); [std::stod] and the stream
      insertion of a [double] are modelled after the C locale and glibc's
      correctly rounded conversions.
    - [size_t] is a natural number [N] below [2^64]; increments wrap.  A
      vector of records holds at most [max_size] of them, and a [reserve]
      beyond that throws.
    - A C++ exception is a value of [exn]; a function that can throw returns a
      [result].  Code that mutates objects threads the state explicitly.
    - The file system is a finite map from paths to file contents.  An open
      input stream reads the content the file had when it was opened.
      Directory creation, allocation failures and device errors are outside
      the model; the two "cannot open" branches of the source are kept through
      a set of paths that cannot be opened. *)

From Stdlib Require Import ZArith NArith String Ascii Bool Lia.
From Stdlib Require Import SpecFloat DecimalString DecimalN.
From stdpp Require Import gmap strings list sorting.

Local Open Scope Z_scope.

(** ** Exceptions and results *)

(** The exception classes the core throws, with their [what()] text. *)
Inductive exn : Type :=
| runtime_error (what : string)
| invalid_argument (what : string)
| out_of_range (what : string)
| length_error (what : string).

Inductive result (A : Type) : Type :=
| Ok (a : A)
| Throw (e : exn).
Arguments Ok {A} a.
Arguments Throw {A} e.

(** ** Character streams: [std::getline] *)

Module Text.

Definition comma : ascii := ","%char.
Definition newline : ascii := "010"%char.

(** The characters [std::getline(is, tok, delim)] stores in [tok], and the
    unread remainder of the stream: characters are extracted up to the
    delimiter, which is extracted and dropped, or up to the end. *)
Fixpoint read_until (delim : ascii) (s : string) : string * string :=
  match s with
  | EmptyString => (EmptyString, EmptyString)
  | String c rest =>
      if Ascii.eqb c delim then (EmptyString, rest)
      else let '(tok, rest') := read_until delim rest in (String c tok, rest')
  end.

(** [std::getline] fails (the stream converts to [false]) exactly when no
    character at all could be extracted, that is when nothing is left. *)
Definition getline (delim : ascii) (s : string) : option (string * string) :=
  match s with
  | EmptyString => None
  | _ => Some (read_until delim s)
  end.

(** [while (std::getline(ss, token, delim)) tokens.push_back(token);] *)
Fixpoint getline_loop (fuel : nat) (delim : ascii) (s : string)
    (tokens : list string) : list string :=
  match fuel with
  | O => tokens
  | S fuel' =>
      match getline delim s with
      | None => tokens
      | Some (tok, rest) => getline_loop fuel' delim rest (tokens ++ [tok])
      end
  end.

(** Every successful [getline] consumes at least one character, so the
    length of the text bounds the number of iterations. *)
Definition split (delim : ascii) (s : string) : list string :=
  getline_loop (S (String.length s)) delim s [].

(** The same token list by structural recursion: a delimiter closes the
    current token, and a delimiter in last position opens no further one. *)
Fixpoint fields (delim : ascii) (s : string) : list string :=
  match s with
  | EmptyString => []
  | String c rest =>
      if Ascii.eqb c delim then EmptyString :: fields delim rest
      else match fields delim rest with
           | [] => [String c EmptyString]
           | tok :: toks => String c tok :: toks
           end
  end.

(** No occurrence of the delimiter. *)
Fixpoint free_of (delim : ascii) (s : string) : bool :=
  match s with
  | EmptyString => true
  | String c rest => negb (Ascii.eqb c delim) && free_of delim rest
  end.

(** The texts of a list with the delimiter between neighbours. *)
Fixpoint join (delim : ascii) (l : list string) : string :=
  match l with
  | [] => EmptyString
  | [t] => t
  | t :: rest => t +:+ String delim (join delim rest)
  end.

End Text.

(** ** IEEE 754 binary64 *)

Module Double.

Definition double : Type := spec_float.

#[global] Instance double_eq_dec : EqDecision double.
Proof. solve_decision. Defined.

Definition prec : Z := 53.
Definition emax : Z := 1024.

(** The values of the type: canonical mantissa and exponent in range. *)
Definition is_double (x : double) : bool := valid_binary prec emax x.

Definition zero : double := S754_zero false.

(** [std::isfinite] *)
Definition isfinite (x : double) : bool :=
  match x with
  | S754_zero _ | S754_finite _ _ _ => true
  | S754_infinity _ | S754_nan => false
  end.

(** [x <= y] on doubles; [false] as soon as one side is a NaN. *)
Definition le (x y : double) : bool := SFleb x y.

(** *** Rounding a rational to the nearest double *)

(** [(n/d) / 2^e] as a fraction. *)
Definition scale2 (n d e : Z) : Z * Z :=
  if 0 <=? e then (n, d * 2 ^ e) else (n * 2 ^ (- e), d).

(** [(n/d) / 10^e] as a fraction. *)
Definition scale10 (n d e : Z) : Z * Z :=
  if 0 <=? e then (n, d * 10 ^ e) else (n * 10 ^ (- e), d).

(** The integer nearest to [a/b], ties to even, and whether [a/b] is it. *)
Definition round_half_even (a b : Z) : Z * bool :=
  let q := a / b in
  let r := a mod b in
  (if 2 * r <? b then q
   else if b <? 2 * r then q + 1
   else if Z.even q then q else q + 1,
   r =? 0).

(** [floor (log2 (n/d))] for positive [n] and [d]. *)
Definition ilog2_q (n d : Z) : Z :=
  let e0 := Z.log2 n - Z.log2 d in
  let '(a, b) := scale2 n d e0 in
  if b <=? a then e0 else e0 - 1.

(** Round-to-nearest-even of the rational [n/d] ([0 <= n], [0 < d]) with
    sign [neg].  The flag tells an exact conversion; a magnitude above the
    largest finite double gives an infinity. *)
Definition of_rational (neg : bool) (n d : Z) : double * bool :=
  if n =? 0 then (S754_zero neg, true)
  else
    let e := Z.max (ilog2_q n d - 52) (-1074) in
    let '(a, b) := scale2 n d e in
    let '(m, exact) := round_half_even a b in
    let '(m, e) := if m =? 2 ^ 53 then (2 ^ 52, e + 1) else (m, e) in
    if m =? 0 then (S754_zero neg, false)
    else if 971 <? e then (S754_infinity neg, false)
    else (S754_finite neg (Z.to_pos m) e, exact).

(** Tininess after rounding: the rational, rounded to 53 significant bits
    with an unbounded exponent, is below the smallest normal double. *)
Definition tiny (n d : Z) : bool :=
  if n =? 0 then false
  else
    let ex := ilog2_q n d in
    let '(a, b) := scale2 n d (ex - 52) in
    let '(m, _) := round_half_even a b in
    (if m =? 2 ^ 53 then ex + 1 else ex) <? -1022.

(** A double literal of the source text, such as [2500.0]. *)
Definition of_Z (z : Z) : double := fst (of_rational (z <? 0) (Z.abs z) 1).
Definition of_decimal (num den : Z) : double := fst (of_rational false num den).

(** *** [std::stod] *)

(** [isspace] in the C locale. *)
Definition is_space (c : ascii) : bool :=
  match c with
  | " "%char | "009"%char | "010"%char | "011"%char | "012"%char | "013"%char => true
  | _ => false
  end.

Fixpoint skip_space (s : string) : string :=
  match s with
  | String c rest => if is_space c then skip_space rest else s
  | EmptyString => s
  end.

Definition read_sign (s : string) : bool * string :=
  match s with
  | String "-"%char rest => (true, rest)
  | String "+"%char rest => (false, rest)
  | _ => (false, s)
  end.

(** The character code, [static_cast<unsigned char>(c)]. *)
Definition code (c : ascii) : Z := Z.of_nat (nat_of_ascii c).

Definition in_range (lo hi : ascii) (c : ascii) : bool :=
  (code lo <=? code c) && (code c <=? code hi).

(** The value of a decimal digit. *)
Definition digit_val (c : ascii) : option Z :=
  if in_range "0" "9" c then Some (code c - code "0") else None.

(** The value of a hexadecimal digit. *)
Definition hex_val (c : ascii) : option Z :=
  if in_range "a" "f" c then Some (code c - code "a" + 10)
  else if in_range "A" "F" c then Some (code c - code "A" + 10)
  else digit_val c.

(** Longest run of digits: accumulated value, number of digits, rest. *)
Fixpoint read_digits (digit : ascii -> option Z) (base : Z) (s : string)
    (acc count : Z) : Z * Z * string :=
  match s with
  | String c rest =>
      match digit c with
      | Some v => read_digits digit base rest (acc * base + v) (count + 1)
      | None => (acc, count, s)
      end
  | EmptyString => (acc, count, s)
  end.

(** A non-empty digit sequence optionally containing a radix character:
    the digits as one integer, the number of digits after the point, rest. *)
Definition scan_mantissa (digit : ascii -> option Z) (base : Z) (s : string)
    : option (Z * Z * string) :=
  let '(i, ni, s1) := read_digits digit base s 0 0 in
  match s1 with
  | String "."%char s2 =>
      let '(m, nf, s3) := read_digits digit base s2 i 0 in
      if ni + nf =? 0 then None else Some (m, nf, s3)
  | _ => if ni =? 0 then None else Some (i, 0, s1)
  end.

(** An exponent part: the marker, an optional sign, at least one decimal
    digit.  Without a digit the marker is not part of the number. *)
Definition scan_exponent (lower upper : ascii) (s : string) : Z * string :=
  match s with
  | String c s1 =>
      if Ascii.eqb c lower || Ascii.eqb c upper then
        let '(neg, s2) := read_sign s1 in
        let '(e, ne, s3) := read_digits digit_val 10 s2 0 0 in
        if ne =? 0 then (0, s) else (if neg then - e else e, s3)
      else (0, s)
  | EmptyString => (0, s)
  end.

Definition to_lower (c : ascii) : ascii :=
  if in_range "A" "Z" c then ascii_of_nat (nat_of_ascii c + 32) else c.

(** [p], in lower case, is a prefix of [s] up to the case of letters. *)
Fixpoint prefix_ci (p s : string) : bool :=
  match p, s with
  | EmptyString, _ => true
  | String a p', String b s' => Ascii.eqb a (to_lower b) && prefix_ci p' s'
  | String _ _, EmptyString => false
  end.

(** What [strtod] makes of the text after white space and sign. *)
Variant scanned : Type :=
| NoConversion
| Infinite
| NotANumber
| Rational (n d : Z).

Definition scan_decimal (s : string) : scanned :=
  match scan_mantissa digit_val 10 s with
  | None => NoConversion
  | Some (m, nf, s1) =>
      let '(e, _) := scan_exponent "e"%char "E"%char s1 in
      let '(n, d) := scale10 m 1 (nf - e) in
      Rational n d
  end.

Definition scan_hex (s : string) : option scanned :=
  match s with
  | String "0"%char (String x s1) =>
      if Ascii.eqb x "x"%char || Ascii.eqb x "X"%char then
        match scan_mantissa hex_val 16 s1 with
        | None => None
        | Some (m, nf, s2) =>
            let '(e, _) := scan_exponent "p"%char "P"%char s2 in
            let '(n, d) := scale2 m 1 (4 * nf - e) in
            Some (Rational n d)
        end
      else None
  | _ => None
  end.

Definition scan (s : string) : scanned :=
  if prefix_ci "inf" s then Infinite
  else if prefix_ci "nan" s then NotANumber
  else match scan_hex s with
       | Some r => r
       | None => scan_decimal s
       end.

(** [std::stod(str)]: [strtod] on the text; [std::invalid_argument] when no
    conversion could be performed, [std::out_of_range] when [strtod]
    reports [ERANGE] (overflow, or a tiny inexact result).  Characters
    after the number are ignored. *)
Definition stod (str : string) : result double :=
  let '(neg, s) := read_sign (skip_space str) in
  match scan s with
  | NoConversion => Throw (invalid_argument "stod")
  | Infinite => Ok (S754_infinity neg)
  | NotANumber => Ok S754_nan
  | Rational n d =>
      let '(x, exact) := of_rational neg n d in
      if negb (isfinite x) || (tiny n d && negb exact)
      then Throw (out_of_range "stod")
      else Ok x
  end.

(** *** Stream insertion [os << x] with the default format

    Default flags and precision 6, that is [printf("%.6g")]. *)

Definition decimal_digits : list ascii := list_ascii_of_string "0123456789".

(** The character of the last decimal digit of [k]. *)
Definition digit_char (k : Z) : ascii :=
  nth (Z.to_nat (k mod 10)) decimal_digits "0"%char.

(** [10^x <= n/d] *)
Definition le_pow10 (x n d : Z) : bool :=
  let '(a, b) := scale10 n d x in b <=? a.

Fixpoint search_exp10 (fuel : nat) (x n d : Z) : Z :=
  match fuel with
  | O => x
  | S fuel' => if le_pow10 x n d then x else search_exp10 fuel' (x - 1) n d
  end.

(** [floor (log10 (n/d))]: the largest [x] with [10^x <= n/d], searched
    downwards from just above the estimate [log2 (n/d) * log10 2]. *)
Definition ilog10_q (n d : Z) : Z :=
  search_exp10 8 (ilog2_q n d * 30103 / 100000 + 2) n d.

(** Six significant decimal digits [m] and decimal exponent [x]:
    [n/d] rounds to [m * 10^(x-5)] with [10^5 <= m < 10^6]. *)
Definition sig6 (n d : Z) : Z * Z :=
  let x := ilog10_q n d in
  let '(a, b) := scale10 n d (x - 5) in
  let '(m, _) := round_half_even a b in
  if m =? 1000000 then (100000, x + 1) else (m, x).

Definition digits6 (m : Z) : list ascii :=
  map (fun k => digit_char (m / 10 ^ k)) [5; 4; 3; 2; 1; 0].

(** Trailing zeros of the fraction are removed. *)
Fixpoint strip_zeros (l : list ascii) : list ascii :=
  match l with
  | [] => []
  | c :: l' =>
      match strip_zeros l' with
      | [] => if Ascii.eqb c "0"%char then [] else [c]
      | t => c :: t
      end
  end.

(** The decimal point is written only before a non-empty fraction. *)
Definition with_fraction (ip frac : list ascii) : list ascii :=
  match frac with
  | [] => ip
  | _ => ip ++ "."%char :: frac
  end.

(** The exponent has at least two digits. *)
Definition exponent_digits (x : Z) : list ascii :=
  let a := Z.abs x in
  (if a <? 100 then [] else [digit_char (a / 100)])
    ++ [digit_char (a / 10); digit_char a].

Definition show_g6 (m x : Z) : list ascii :=
  let ds := digits6 m in
  if (x <? -4) || (6 <=? x) then
    with_fraction (take 1 ds) (strip_zeros (drop 1 ds))
      ++ "e"%char :: (if x <? 0 then "-"%char else "+"%char) :: exponent_digits x
  else if x <? 0 then
    with_fraction ["0"%char]
      (replicate (Z.to_nat (- x - 1)) "0"%char ++ strip_zeros ds)
  else
    with_fraction (take (Z.to_nat (x + 1)) ds)
      (strip_zeros (drop (Z.to_nat (x + 1)) ds)).

Definition show_sign (neg : bool) : list ascii :=
  if neg then ["-"%char] else [].

Definition show_chars (x : double) : list ascii :=
  match x with
  | S754_zero neg => show_sign neg ++ ["0"%char]
  | S754_infinity neg => show_sign neg ++ ["i"; "n"; "f"]%char
  | S754_nan => ["n"; "a"; "n"]%char
  | S754_finite neg m e =>
      let '(n, d) := scale2 (Z.pos m) 1 (- e) in
      let '(m6, x) := sig6 n d in
      show_sign neg ++ show_g6 m6 x
  end.

Definition show (x : double) : string := string_of_list_ascii (show_chars x).

(** *** [std::round] *)

(** The nearest integer, halves away from zero; the sign of a zero result
    is the sign of the argument.  A double whose exponent is not negative
    is an integer already. *)
Definition round (x : double) : double :=
  match x with
  | S754_finite neg m e =>
      if e <? 0 then
        let d := 2 ^ (- e) in
        let q := Z.pos m / d in
        let k := if d <=? 2 * (Z.pos m mod d) then q + 1 else q in
        fst (of_rational neg k 1)
      else x
  | _ => x
  end.

End Double.

(** ** Records and their validator *)

Record CarRecord : Type := mkCarRecord {
  id : string;
  model : string;
  condition : string;
  pricePerDay : Double.double;
  status : string
}.

Module CarRecordValidator.

Definition allowed : list string :=
  ["excellent"; "good"; "fair"; "minordamages"; "majordamages"].

(** [std::find(allowed.begin(), allowed.end(), c) != allowed.end()] *)
Definition isConditionValid (c : string) : bool :=
  existsb (String.eqb c) allowed.

Definition validate (record : CarRecord) : bool :=
  if String.eqb (id record) "" || String.eqb (model record) "" then false
  else if negb (isConditionValid (condition record)) then false
  else if negb (Double.isfinite (pricePerDay record))
          || Double.le (pricePerDay record) Double.zero then false
  else true.

End CarRecordValidator.

(** ** Parser and serializer *)

Module CarRecordParser.

Import CarRecordValidator.

(** The three errors of the specification, as the exceptions the code
    throws for them. *)
Definition MalformedRecord (line : string) : exn :=
  runtime_error ("Malformed car record: " +:+ line).
Definition ValidationFailed (line : string) : exn :=
  runtime_error ("Validation failed for line: " +:+ line).
(** [InvalidNumber] is whatever [std::stod] throws. *)
Definition InvalidNumber (e : exn) : Prop :=
  e = invalid_argument "stod" \/ e = out_of_range "stod".

(** The tokens of a line: [std::getline(ss, token, ',')] until it fails. *)
Definition tokenize (line : string) : list string :=
  Text.split Text.comma line.

(** [tokens[i]]; the source indexes only below [tokens.size()]. *)
Definition at_ (tokens : list string) (i : nat) : string :=
  nth i tokens EmptyString.

(** [Ok None] is [std::nullopt]. *)
Definition parse (line : string) : result (option CarRecord) :=
  if String.eqb line "" then Ok None
  else
    let tokens := tokenize line in
    let size := length tokens in
    if (size <? 4)%nat then Throw (MalformedRecord line)
    else if (4 <=? size)%nat then
      let big := (4 <? size)%nat in
      match Double.stod (if big then at_ tokens 3 else at_ tokens 2) with
      | Throw e => Throw e
      | Ok price =>
          let record := {|
            id := at_ tokens 0;
            model := if big then at_ tokens 1 else at_ tokens 0;
            condition := if big then at_ tokens 2 else at_ tokens 1;
            pricePerDay := price;
            status := if big then at_ tokens 4
                      else if (3 <? size)%nat then at_ tokens 3 else "Available"
          |} in
          if negb (validate record) then Throw (ValidationFailed line)
          else Ok (Some record)
      end
    else Throw (MalformedRecord line).

Definition serialize (record : CarRecord) : result string :=
  if negb (validate record) then
    Throw (runtime_error ("Attempted to serialize invalid record: " +:+ id record))
  else
    Ok (id record +:+ String Text.comma
          (model record +:+ String Text.comma
             (condition record +:+ String Text.comma
                (Double.show (pricePerDay record) +:+ String Text.comma
                   (status record))))).

End CarRecordParser.

(** ** The file system *)

(** Regular files by path, and the paths that cannot be opened (missing
    permission and the like). *)
Record FileSystem : Type := mkFileSystem {
  files : gmap string string;
  locked : gset string
}.

Definition with_files (f : gmap string string) (disk : FileSystem) : FileSystem :=
  {| files := f; locked := locked disk |}.

(** ** Transactional file writer *)

Module TransactionalFileWriter.

(** The effects of [write] on the file system, one per statement.  The
    bare file name and the name prefixed with the current directory denote
    the same file, so the first lines of [write] leave no trace here. *)
Variant step : Type :=
| OpenTruncate (path : string)
    (** [std::ofstream output(tmpPath, binary | trunc)] *)
| WriteLine (path : string) (line : string)
    (** [output << line << '\n'] *)
| Close (path : string)
    (** [output.flush(); output.close()] *)
| RemoveIfExists (path : string)
    (** [if (fs::exists(target)) fs::remove(target)] *)
| Rename (from to : string).
    (** [fs::rename(tmpPath, target)] *)

Definition exec (st : step) (f : gmap string string) : gmap string string :=
  match st with
  | OpenTruncate path => <[path := EmptyString]> f
  | WriteLine path line =>
      <[path := default EmptyString (f !! path) +:+ line +:+ String Text.newline EmptyString]> f
  | Close _ => f
  | RemoveIfExists path => delete path f
  | Rename from to =>
      match f !! from with
      | Some content => <[to := content]> (delete from f)
      | None => f
      end
  end.

Definition run (sts : list step) (f : gmap string string) : gmap string string :=
  fold_left (fun f st => exec st f) sts f.

Definition tmpPath (target : string) : string := target +:+ ".tmp".

(** The statements of [write] that touch the file system, in order. *)
Definition steps (target : string) (lines : list string) : list step :=
  OpenTruncate (tmpPath target)
    :: map (WriteLine (tmpPath target)) lines
    ++ [Close (tmpPath target);
        RemoveIfExists target;
        Rename (tmpPath target) target].

(** The complete text [write] produces for [lines]. *)
Definition text_of (lines : list string) : string :=
  fold_left (fun acc line => acc +:+ line +:+ String Text.newline EmptyString)
    lines EmptyString.

Definition write (targetPath_ : string) (lines : list string)
    (disk : FileSystem) : result unit * FileSystem :=
  if bool_decide (tmpPath targetPath_ ∈ locked disk) then
    (Throw (runtime_error "Unable to open temporary file for transactional write"),
     disk)
  else
    (Ok tt, with_files (run (steps targetPath_ lines) (files disk)) disk).

(** The effects up to the closing of the temporary file. *)
Definition preparation (target : string) (lines : list string) : list step :=
  OpenTruncate (tmpPath target)
    :: map (WriteLine (tmpPath target)) lines ++ [Close (tmpPath target)].

(** The effects that touch the path [tmp] and no other. *)
Definition confined (tmp : string) (st : step) : Prop :=
  match st with
  | OpenTruncate p | WriteLine p _ | Close p => p = tmp
  | RemoveIfExists _ | Rename _ _ => False
  end.

(** The files when the process stops after the first [k] effects. *)
Definition interrupted (k : nat) (targetPath_ : string) (lines : list string)
    (f : gmap string string) : gmap string string :=
  run (take k (steps targetPath_ lines)) f.

End TransactionalFileWriter.

(** ** Record stream pipeline *)

Module CarFilePipeline.

Import CarRecordParser.

(** The lines [std::getline(input, line)] delivers. *)
Definition lines_of (content : string) : list string :=
  Text.split Text.newline content.

Section Stream.
(** The objects the consumer captures by reference. *)
Context {S : Type}.
Variable consumer : CarRecord -> S -> result unit * S.

(** One turn of the [while] loop.  The [try] block holds both the call
    of [parse] and the call of the consumer: whatever either throws is
    caught, reported on [std::cerr], and the loop goes on. *)
Definition on_line (s : S) (line : string) : S :=
  match parse line with
  | Throw _ => s
  | Ok None => s
  | Ok (Some record) =>
      match consumer record s with
      | (Ok _, s') => s'
      | (Throw _, s') => s'
      end
  end.

Definition stream (disk : FileSystem) (path_ : string) (s : S)
    : result unit * S :=
  match files disk !! path_ with
  | None => (Ok tt, s)
  | Some content =>
      if bool_decide (path_ ∈ locked disk) then
        (Throw (runtime_error ("Unable to open " +:+ path_)), s)
      else (Ok tt, fold_left on_line (lines_of content) s)
  end.
End Stream.

(** Handing a record to the consumer, whatever the consumer does with it. *)
Definition deliver {S : Type} (consumer : CarRecord -> S -> result unit * S)
    (s : S) (record : CarRecord) : S :=
  snd (consumer record s).

Definition readAll (disk : FileSystem) (path_ : string)
    : result (list CarRecord) :=
  match stream (fun record records => (Ok tt, records ++ [record]))
          disk path_ [] with
  | (Ok _, records) => Ok records
  | (Throw e, _) => Throw e
  end.

Fixpoint serialize_all (records : list CarRecord) : result (list string) :=
  match records with
  | [] => Ok []
  | record :: rest =>
      match serialize record with
      | Throw e => Throw e
      | Ok line =>
          match serialize_all rest with
          | Throw e => Throw e
          | Ok lines => Ok (line :: lines)
          end
      end
  end.

(** [lines.reserve(records.size())] asks for no more strings than a
    vector of records can hold, which a vector of strings can hold too. *)
Definition writeAll (path_ : string) (records : list CarRecord)
    (disk : FileSystem) : result unit * FileSystem :=
  match serialize_all records with
  | Throw e => (Throw e, disk)
  | Ok lines => TransactionalFileWriter.write path_ lines disk
  end.

End CarFilePipeline.

(** ** Storage backends *)

Variant StorageBackend : Type :=
| FileStorageBackend (path : string)
| MemoryStorageBackend (records_ : list CarRecord).

(** ** Repository *)

Record CarRepository : Type := mkCarRepository {
  backend_ : StorageBackend;
  records_ : gmap string CarRecord;
  dirty_ : bool
}.

(** A repository with what its backend writes to: the disk, and, as a
    ghost log, the arguments of the calls of [persistCars] so far. *)
Record World : Type := mkWorld {
  disk : FileSystem;
  repository : CarRepository;
  persist_calls : list (list CarRecord)
}.

Module Backend.

Definition loadCars (w : World) : result (list CarRecord) :=
  match backend_ (repository w) with
  | FileStorageBackend path => CarFilePipeline.readAll (disk w) path
  | MemoryStorageBackend records => Ok records
  end.

Definition persistCars (records : list CarRecord) (w : World)
    : result unit * World :=
  let calls := persist_calls w ++ [records] in
  let r := repository w in
  match backend_ r with
  | FileStorageBackend path =>
      let '(res, disk') := CarFilePipeline.writeAll path records (disk w) in
      (res, mkWorld disk' r calls)
  | MemoryStorageBackend _ =>
      (Ok tt,
       mkWorld (disk w)
         (mkCarRepository (MemoryStorageBackend records) (records_ r) (dirty_ r))
         calls)
  end.

Definition name (b : StorageBackend) : string :=
  match b with
  | FileStorageBackend path => "file:" +:+ path
  | MemoryStorageBackend _ => "in-memory"
  end.

End Backend.

Module CarRepository.

(** [lhs.id < rhs.id] fails in the other direction: the order [std::sort]
    establishes between neighbours. *)
Definition id_le (lhs rhs : CarRecord) : Prop :=
  String.leb (id lhs) (id rhs) = true.

#[global] Instance id_le_dec lhs rhs : Decision (id_le lhs rhs).
Proof. unfold id_le. apply _. Defined.

Definition sort_by_id (l : list CarRecord) : list CarRecord :=
  merge_sort id_le l.

Definition store (m : gmap string CarRecord) (record : CarRecord)
    : gmap string CarRecord :=
  <[id record := record]> m.

Definition set_cache (m : gmap string CarRecord) (dirty : bool)
    (r : CarRepository) : CarRepository :=
  mkCarRepository (backend_ r) m dirty.

Definition reload (w : World) : result unit * World :=
  match Backend.loadCars w with
  | Throw e =>
      (Throw e,
       mkWorld (disk w) (set_cache ∅ (dirty_ (repository w)) (repository w))
         (persist_calls w))
  | Ok loaded =>
      (Ok tt,
       mkWorld (disk w) (set_cache (fold_left store loaded ∅) false (repository w))
         (persist_calls w))
  end.

Definition all (r : CarRepository) : list CarRecord :=
  sort_by_id (map snd (map_to_list (records_ r))).

Definition available (r : CarRepository) : list CarRecord :=
  sort_by_id
    (filter (fun record => status record = "Available")
       (map snd (map_to_list (records_ r)))).

Definition find (id : string) (r : CarRepository) : option CarRecord :=
  records_ r !! id.

Definition upsert (record : CarRecord) (r : CarRepository)
    : bool * CarRepository :=
  (true, set_cache (store (records_ r) record) true r).

Definition update (id : string) (mutator : CarRecord -> CarRecord)
    (r : CarRepository) : bool * CarRepository :=
  match records_ r !! id with
  | None => (false, r)
  | Some record => (true, set_cache (<[id := mutator record]> (records_ r)) true r)
  end.

Definition bulkUpsert (records : list CarRecord) (r : CarRepository)
    : CarRepository :=
  set_cache (fold_left store records (records_ r))
    (dirty_ r || negb (bool_decide (records = []))) r.

Definition flush (w : World) : result unit * World :=
  if negb (dirty_ (repository w)) then (Ok tt, w)
  else
    match Backend.persistCars (all (repository w)) w with
    | (Throw e, w') => (Throw e, w')
    | (Ok _, w') =>
        (Ok tt,
         mkWorld (disk w') (set_cache (records_ (repository w')) false (repository w'))
           (persist_calls w'))
    end.

Definition totalRecords (r : CarRepository) : nat := size (records_ r).

(** The constructor: an empty cache on the backend, then [reload()]. *)
Definition construct (backend : StorageBackend) (disk : FileSystem)
    : result unit * World :=
  reload (mkWorld disk (mkCarRepository backend ∅ false) []).

Definition pendingChanges (r : CarRepository) : bool := dirty_ r.

(** The mutating calls of the interface that write whole records. *)
Variant write_call : Type :=
| Upsert (record : CarRecord)
| BulkUpsert (records : list CarRecord).

Definition call (c : write_call) (r : CarRepository) : CarRepository :=
  match c with
  | Upsert record => snd (upsert record r)
  | BulkUpsert records => bulkUpsert records r
  end.

Definition calls (cs : list write_call) (r : CarRepository) : CarRepository :=
  fold_left (fun r c => call c r) cs r.

(** The records a sequence of calls writes, in the order they are written. *)
Definition written (cs : list write_call) : list CarRecord :=
  concat (map (fun c => match c with
                        | Upsert record => [record]
                        | BulkUpsert records => records
                        end) cs).

End CarRepository.

(** ** Batch processor *)

Definition size_t : Type := N.

(** [++n] on a [size_t] *)
Definition incr (n : size_t) : size_t := ((n + 1) mod 2 ^ 64)%N.

(** [std::vector<CarRecord>::max_size()]: the largest [ptrdiff_t],
    [2^63 - 1], over the 136 bytes of a [CarRecord] (four [std::string] of 32
    bytes and a [double]). *)
Definition max_size : size_t := 67818912035696880%N.

(** [v.reserve(n)] on a vector of records throws [std::length_error] when
    [n] exceeds [max_size()]; the capacity it sets otherwise does not show,
    allocation failures being outside the model. *)
Definition reserve (n : size_t) : result unit :=
  if (max_size <? n)%N then Throw (length_error "vector::reserve") else Ok tt.

(** The wall-clock [duration] is not part of the model. *)
Record BatchMetrics : Type := mkBatchMetrics {
  processedRecords : size_t;
  batches : size_t
}.

Module BatchProcessor.

(** What the lambda handed to [stream] captures by reference. *)
Record IngestState : Type := mkIngestState {
  world : World;
  buffer : list CarRecord;
  metrics : BatchMetrics
}.

Definition with_repository (r : CarRepository) (w : World) : World :=
  mkWorld (disk w) r (persist_calls w).

(** [repository_.bulkUpsert(buffer); repository_.flush();] *)
Definition commit (records : list CarRecord) (w : World) : result unit * World :=
  CarRepository.flush
    (with_repository (CarRepository.bulkUpsert records (repository w)) w).

Definition consumer (chunkSize : size_t) (record : CarRecord) (st : IngestState)
    : result unit * IngestState :=
  let buffer1 := buffer st ++ [record] in
  let metrics1 :=
    mkBatchMetrics (incr (processedRecords (metrics st))) (batches (metrics st)) in
  if (chunkSize <=? N.of_nat (length buffer1))%N then
    match commit buffer1 (world st) with
    | (Throw e, w') => (Throw e, mkIngestState w' buffer1 metrics1)
    | (Ok _, w') =>
        (Ok tt,
         mkIngestState w' []
           (mkBatchMetrics (processedRecords metrics1) (incr (batches metrics1))))
    end
  else (Ok tt, mkIngestState (world st) buffer1 metrics1).

(** [buffer.reserve(chunkSize)] comes before the stream is opened.  The
    two readings of the clock only feed [duration]. *)
Definition ingest (path : string) (chunkSize : size_t) (w : World)
    : result BatchMetrics * World :=
  if (chunkSize =? 0)%N then
    (Throw (invalid_argument "chunkSize must be greater than zero"), w)
  else
    match reserve chunkSize with
    | Throw e => (Throw e, w)
    | Ok _ =>
        match CarFilePipeline.stream (consumer chunkSize) (disk w) path
                (mkIngestState w [] (mkBatchMetrics 0%N 0%N)) with
        | (Throw e, st) => (Throw e, world st)
        | (Ok _, st) =>
            match buffer st with
            | [] => (Ok (metrics st), world st)
            | _ :: _ =>
                match commit (buffer st) (world st) with
                | (Throw e, w') => (Throw e, w')
                | (Ok _, w') =>
                    (Ok (mkBatchMetrics (processedRecords (metrics st))
                           (incr (batches (metrics st)))),
                     w')
                end
            end
        end
    end.

End BatchProcessor.

(** ** Rental service *)

Module RentalService.

Import CarRepository.

(** The private [flush]: [repository_.flush(); return true;] *)
Definition flush (w : World) : result bool * World :=
  match CarRepository.flush w with
  | (Throw e, w') => (Throw e, w')
  | (Ok _, w') => (Ok true, w')
  end.

Definition addCar (record : CarRecord) (w : World) : result unit * World :=
  match find (id record) (repository w) with
  | Some _ =>
      (Throw (runtime_error
                ("Car with id " +:+ id record +:+ " already exists")), w)
  | None =>
      let '(_, r) := upsert record (repository w) in
      CarRepository.flush (BatchProcessor.with_repository r w)
  end.

(** [cars.resize(limit)] on a vector longer than [limit] keeps its first
    [limit] elements. *)
Definition listAvailable (limit : size_t) (w : World) : list CarRecord :=
  let cars := available (repository w) in
  if (limit <? N.of_nat (length cars))%N then take (N.to_nat limit) cars
  else cars.

(** [record.status = s], the body of the two mutators. *)
Definition set_status (s : string) (record : CarRecord) : CarRecord :=
  mkCarRecord (id record) (model record) (condition record)
    (pricePerDay record) s.

(** [amountDue] is passed by reference: its value on entry comes in, its
    value on exit goes out, also when the flush throws. *)
Definition rentCar (carId userId : string) (amountDue : Double.double)
    (w : World) : result bool * Double.double * World :=
  match find carId (repository w) with
  | None => (Ok false, amountDue, w)
  | Some existing =>
      if negb (String.eqb (status existing) "Available")
      then (Ok false, amountDue, w)
      else
        let '(updated, r) :=
          update carId (set_status ("Rented by the user ID: " +:+ userId))
            (repository w) in
        if updated then
          let '(res, w') := flush (BatchProcessor.with_repository r w) in
          (res, pricePerDay existing, w')
        else (Ok false, pricePerDay existing, BatchProcessor.with_repository r w)
  end.

Definition returnCar (carId : string) (w : World) : result bool * World :=
  let '(updated, r) := update carId (set_status "Available") (repository w) in
  if negb updated then (Ok false, BatchProcessor.with_repository r w)
  else flush (BatchProcessor.with_repository r w).

Definition ingest (records : list CarRecord) (w : World)
    : result unit * World :=
  CarRepository.flush
    (BatchProcessor.with_repository (bulkUpsert records (repository w)) w).

Definition totalRecords (w : World) : nat :=
  CarRepository.totalRecords (repository w).

Definition save (w : World) : result unit * World := CarRepository.flush w.

End RentalService.

(** ** Synthetic data set *)

Module SyntheticDatasetGenerator.

Definition conditions : list string :=
  ["excellent"; "good"; "fair"; "minordamages"; "majordamages"].
Definition models : list string :=
  ["Atlas"; "Falcon"; "Nimbus"; "Aurora"; "Vertex"].

(** [std::to_string] of a [size_t]: the decimal digits. *)
Definition to_string (n : size_t) : string :=
  NilEmpty.string_of_uint (N.to_uint n).

(** The record of the turn [i] of the loop.  The random engine is seeded
    from the device, so the value [priceDist(rng)] of each turn is an input
    here: [draw i] is the one of turn [i]. *)
Definition record_at (draw : nat -> Double.double) (i : nat) : CarRecord :=
  {| id := "car-" +:+ to_string (incr (N.of_nat i));
     model := nth (i mod length models) models EmptyString;
     condition := nth (i mod length conditions) conditions EmptyString;
     pricePerDay := Double.round (draw i);
     status := "Available" |}.

(** What the [count] turns of the loop push, in order. *)
Definition loop (draw : nat -> Double.double) (count : size_t)
    : list CarRecord :=
  map (record_at draw) (seq 0 (N.to_nat count)).

(** [records.reserve(count)], then the loop. *)
Definition generate (draw : nat -> Double.double) (count : size_t)
    : result (list CarRecord) :=
  match reserve count with
  | Throw e => Throw e
  | Ok _ => Ok (loop draw count)
  end.

Definition toFile (draw : nat -> Double.double) (path : string)
    (count : size_t) (disk : FileSystem) : result unit * FileSystem :=
  match generate draw count with
  | Throw e => (Throw e, disk)
  | Ok records => CarFilePipeline.writeAll path records disk
  end.

End SyntheticDatasetGenerator.

(** ** Command line *)

Variant BackendType : Type := File | Memory.

Module StorageBackendFactory.

Definition create (type : BackendType) (path : string) : StorageBackend :=
  match type with
  | File => FileStorageBackend path
  | Memory => MemoryStorageBackend []
  end.

End StorageBackendFactory.

Record CliArguments : Type := mkCliArguments {
  backend : BackendType;
  carsFile : string;
  legacyMode : bool
}.

(** One turn of the loop of [parseArguments]. *)
Definition argument (args : CliArguments) (value : string) : CliArguments :=
  if String.eqb value "--backend=memory" then
    mkCliArguments Memory (carsFile args) (legacyMode args)
  else if String.eqb value "--backend=file" then
    mkCliArguments File (carsFile args) (legacyMode args)
  else if String.prefix "--cars=" value then
    mkCliArguments (backend args)
      (String.substring 7 (String.length value - 7) value) (legacyMode args)
  else if String.eqb value "--legacy" || String.eqb value "--mode=legacy" then
    mkCliArguments (backend args) (carsFile args) true
  else if String.eqb value "--mode=modular" then
    mkCliArguments (backend args) (carsFile args) false
  else args.

(** [argv[0]] is the name of the program and is not read. *)
Definition parseArguments (argv : list string) : CliArguments :=
  fold_left argument (tail argv) (mkCliArguments File "cars.txt" false).

Module CarRentalCLI.

(** The characters [iss >> token] stores: up to the next white space. *)
Fixpoint read_word (s : string) : string * string :=
  match s with
  | EmptyString => (EmptyString, EmptyString)
  | String c rest =>
      if Double.is_space c then (EmptyString, s)
      else let '(word, rest') := read_word rest in (String c word, rest')
  end.

(** [iss >> token] skips leading white space and fails when it finds no
    character after it. *)
Definition extract (s : string) : option (string * string) :=
  match Double.skip_space s with
  | EmptyString => None
  | String c rest => Some (read_word (String c rest))
  end.

(** [while (iss >> token) tokens.push_back(token);] *)
Fixpoint extract_loop (fuel : nat) (s : string) (tokens : list string)
    : list string :=
  match fuel with
  | O => tokens
  | S fuel' =>
      match extract s with
      | None => tokens
      | Some (token, rest) => extract_loop fuel' rest (tokens ++ [token])
      end
  end.

(** Every extraction consumes at least one character. *)
Definition tokenize (line : string) : list string :=
  extract_loop (S (String.length line)) line [].

(** What one turn of the loop of [run] does with the line it has read,
    up to the lookup of the command.  [tokens.front()] on an empty vector
    has no defined behaviour. *)
Variant turn : Type :=
| Leave
| Help
| Skip
| Dispatch (commandName : string) (tokens : list string)
| FrontOfEmpty.

Definition run_step (line : string) : turn :=
  if String.eqb line "exit" then Leave
  else if String.eqb line "help" then Help
  else if String.eqb line "" then Skip
  else
    match tokenize line with
    | [] => FrontOfEmpty
    | commandName :: tokens => Dispatch commandName tokens
    end.

End CarRentalCLI.

(** ** The legacy file layer

    The namespace [legacy_file] of [original.cpp], which the interactive
    legacy system reads and writes [cars.txt] through. *)

Module legacy_file.

Record CarRecord : Type := mkCarRecord {
  model : string;
  condition : string;
  price : Double.double;
  availability : string;
  dueDate : string
}.

(** [TransactionalFileWriter::write]: the temporary file is renamed onto
    the target, which is not removed first. *)
Definition steps (target : string) (lines : list string)
    : list TransactionalFileWriter.step :=
  TransactionalFileWriter.OpenTruncate (TransactionalFileWriter.tmpPath target)
    :: map (TransactionalFileWriter.WriteLine
              (TransactionalFileWriter.tmpPath target)) lines
    ++ [TransactionalFileWriter.Close (TransactionalFileWriter.tmpPath target);
        TransactionalFileWriter.Rename
          (TransactionalFileWriter.tmpPath target) target].

Definition write (path_ : string) (lines : list string) (disk : FileSystem)
    : result unit * FileSystem :=
  if bool_decide (TransactionalFileWriter.tmpPath path_ ∈ locked disk) then
    (Throw (runtime_error "Unable to open temporary file for transactional write"),
     disk)
  else
    (Ok tt,
     with_files (TransactionalFileWriter.run (steps path_ lines) (files disk)) disk).

(** The files when the process stops after the first [k] effects. *)
Definition interrupted (k : nat) (path_ : string) (lines : list string)
    (f : gmap string string) : gmap string string :=
  TransactionalFileWriter.run (take k (steps path_ lines)) f.

Definition allowed : list string :=
  ["excellent"; "good"; "fair"; "minordamages"; "majordamages"].

Definition isValidCondition (condition : string) : bool :=
  existsb (String.eqb condition) allowed.

(** [std::nullopt] is [None]; the warnings on [std::cerr] are not kept. *)
Definition parseCarLine (line : string) : option CarRecord :=
  if String.eqb line "" then None
  else
    let tokens := Text.split Text.comma line in
    if (length tokens <? 3)%nat then None
    else
      match Double.stod (nth 2 tokens EmptyString) with
      | Throw _ => None
      | Ok value =>
          let availability0 :=
            if (3 <? length tokens)%nat then nth 3 tokens EmptyString
            else "Available" in
          let dueDate0 :=
            if (4 <? length tokens)%nat then nth 4 tokens EmptyString
            else "None" in
          let record := {|
            model := nth 0 tokens EmptyString;
            condition := nth 1 tokens EmptyString;
            price := value;
            availability :=
              if String.eqb availability0 "" then "Available" else availability0;
            dueDate := if String.eqb dueDate0 "" then "None" else dueDate0
          |} in
          if negb (isValidCondition (condition record))
             || Double.le (price record) Double.zero
          then None
          else Some record
      end.

Definition serialize (record : CarRecord) : string :=
  model record +:+ String Text.comma
    (condition record +:+ String Text.comma
       (Double.show (price record) +:+ String Text.comma
          (availability record +:+ String Text.comma (dueDate record)))).

(** [CarFilePipeline::readAll]: a file that cannot be opened, missing or
    not, reads as no record. *)
Definition readAll (disk : FileSystem) (path_ : string) : list CarRecord :=
  match files disk !! path_ with
  | None => []
  | Some content =>
      if bool_decide (path_ ∈ locked disk) then []
      else
        fold_left
          (fun records line =>
             match parseCarLine line with
             | Some record => records ++ [record]
             | None => records
             end)
          (CarFilePipeline.lines_of content) []
  end.

Definition writeAll (path_ : string) (records : list CarRecord)
    (disk : FileSystem) : result unit * FileSystem :=
  write path_ (map serialize records) disk.

(** [carPipeline()] is a pipeline on [cars.txt]. *)
Definition loadCars (disk : FileSystem) : list CarRecord :=
  readAll disk "cars.txt".

Definition saveCars (records : list CarRecord) (disk : FileSystem)
    : result unit * FileSystem :=
  writeAll "cars.txt" records disk.

(** The function [fn] edits the loaded vector in place and tells whether
    it changed it. *)
Definition mutateCars (fn : list CarRecord -> bool * list CarRecord)
    (disk : FileSystem) : result bool * FileSystem :=
  let '(changed, cars) := fn (loadCars disk) in
  if changed then
    match saveCars cars disk with
    | (Throw e, disk') => (Throw e, disk')
    | (Ok _, disk') => (Ok changed, disk')
    end
  else (Ok changed, disk).

Definition makeRecord (model condition : string) (price : Double.double)
    : CarRecord :=
  mkCarRecord model condition price "Available" "None".

End legacy_file.

(** ** Vocabulary of the specification and of the proofs *)

Module Spec.

Import CarRecordParser.

(** *** Parsing *)

(** The record a line stands for once its five texts are chosen: the price
    text goes through [std::stod], the assembled record through the
    validator. *)
Definition assemble (line id model condition price status : string)
    : result (option CarRecord) :=
  match Double.stod price with
  | Throw e => Throw e
  | Ok p =>
      let record := mkCarRecord id model condition p status in
      if CarRecordValidator.validate record then Ok (Some record)
      else Throw (ValidationFailed line)
  end.

(** The token at the price position of the layout the line falls under. *)
Definition price_field (line : string) : string :=
  let tokens := tokenize line in
  if (4 <? length tokens)%nat then at_ tokens 3 else at_ tokens 2.

(** The token at the status position, when there is one. *)
Definition status_token (line : string) : option string :=
  let tokens := tokenize line in
  if (4 <? length tokens)%nat then tokens !! 4%nat else tokens !! 3%nat.

Definition is_digit (c : ascii) : bool :=
  match Double.digit_val c with Some _ => true | None => false end.

(** Numeric text: the whole text is one decimal number (sign, digits with
    an optional point, optional exponent) and nothing else. *)
Definition numeric_text (s : string) : bool :=
  let '(_, s1) := Double.read_sign s in
  match Double.scan_mantissa Double.digit_val 10 s1 with
  | None => false
  | Some (_, _, s2) =>
      let '(_, s3) := Double.scan_exponent "e"%char "E"%char s2 in
      String.eqb s3 ""
  end.

(** The text begins, after white space and a sign, like a number: with a
    digit, with a point before a digit, or with [inf] or [nan]. *)
Definition starts_number (s : string) : bool :=
  let '(_, t) := Double.read_sign (Double.skip_space s) in
  Double.prefix_ci "inf" t || Double.prefix_ci "nan" t ||
  match t with
  | String c rest =>
      is_digit c ||
      (Ascii.eqb c "."%char &&
       match rest with String c' _ => is_digit c' | EmptyString => false end)
  | EmptyString => false
  end.

(** Text that cannot continue a decimal number: it is empty, or begins
    with a character other than a digit, the point, the letter of an
    exponent and the letter that, after a zero, opens a hexadecimal
    number. *)
Definition foreign (s : string) : bool :=
  match s with
  | EmptyString => true
  | String c _ =>
      negb (is_digit c || Ascii.eqb c "."%char
            || Ascii.eqb (Double.to_lower c) "e"%char
            || Ascii.eqb (Double.to_lower c) "x"%char)
  end.

(** A text of decimal digits, at least one. *)
Fixpoint only_digits (s : string) : bool :=
  match s with
  | EmptyString => true
  | String c rest => is_digit c && only_digits rest
  end.

Definition digits (s : string) : bool :=
  negb (String.eqb s "") && only_digits s.

(** The number the digits write, to the right of the digits [acc]. *)
Fixpoint digits_after (acc : Z) (s : string) : Z :=
  match s with
  | EmptyString => acc
  | String c rest =>
      digits_after (10 * acc + default 0 (Double.digit_val c)) rest
  end.

Definition digits_value (s : string) : Z := digits_after 0 s.

(** The first character of the text, if any, is no decimal digit. *)
Definition digitless (rest : string) : Prop :=
  match rest with
  | String c _ => Double.digit_val c = None
  | EmptyString => True
  end.

(** A character other than the delimiter of the record format. *)
Definition plain (c : ascii) : Prop := c <> Text.comma.

(** The fields of a line as the specification words it, "splitting on
    commas": the texts before, between and after the commas, one more
    than there are commas. *)
Fixpoint comma_fields (s : string) : list string :=
  match s with
  | EmptyString => [EmptyString]
  | String c rest =>
      if Ascii.eqb c Text.comma then EmptyString :: comma_fields rest
      else match comma_fields rest with
           | [] => [String c EmptyString]
           | f :: fs => String c f :: fs
           end
  end.

(** The fields without the last one when this one is empty. *)
Definition drop_last_empty (fs : list string) : list string :=
  match last fs with
  | Some EmptyString => removelast fs
  | _ => fs
  end.

(** The invariants of a record. *)
Definition well_formed (r : CarRecord) : Prop :=
  id r <> "" /\ model r <> "" /\
  In (condition r) CarRecordValidator.allowed /\
  exists m e, pricePerDay r = S754_finite false m e.

(** *** Round trip *)

Definition comma_free_fields (r : CarRecord) : bool :=
  Text.free_of Text.comma (id r) && Text.free_of Text.comma (model r)
  && Text.free_of Text.comma (condition r) && Text.free_of Text.comma (status r).

Definition round_trips (r : CarRecord) : Prop :=
  exists line, serialize r = Ok line /\ parse line = Ok (Some r).

(** The price is the double nearest to its own text of six significant
    digits. *)
Definition price_survives (r : CarRecord) : Prop :=
  Double.stod (Double.show (pricePerDay r)) = Ok (pricePerDay r).

(** The same as a test, with the validity of the price. *)
Definition price_stable (x : Double.double) : bool :=
  Double.isfinite x && negb (Double.le x Double.zero) &&
  match Double.stod (Double.show x) with
  | Ok y => bool_decide (y = x)
  | Throw _ => false
  end.

(** The prices and models of the synthetic data set:
    [std::round(priceDist(rng))] with [priceDist] over [1800, 7500]. *)
Definition generated_prices : list Z :=
  map (fun k => 1800 + Z.of_nat k) (seq 0 (Z.to_nat 5701)).
Definition generated_models : list string :=
  ["Atlas"; "Falcon"; "Nimbus"; "Aurora"; "Vertex"].

(** *** Streaming and ingestion *)

(** The records of the lines that parse, in the order of the lines. *)
Fixpoint parsed (lines : list string) : list CarRecord :=
  match lines with
  | [] => []
  | line :: rest =>
      match parse line with
      | Ok (Some record) => record :: parsed rest
      | _ => parsed rest
      end
  end.

(** The line parses to a record. *)
Definition parses (line : string) : bool :=
  match parse line with
  | Ok (Some _) => true
  | _ => false
  end.

(** The lines of the source file; a missing file has none. *)
Definition source_lines (disk : FileSystem) (path : string) : list string :=
  match files disk !! path with
  | Some content => CarFilePipeline.lines_of content
  | None => []
  end.

(** The number of valid records of the source file. *)
Definition valid_count (disk : FileSystem) (path : string) : N :=
  N.of_nat (length (parsed (source_lines disk path))).

Definition ceil_div (n c : N) : N := ((n + c - 1) / c)%N.

Definition readable (disk : FileSystem) (path : string) : Prop :=
  path ∉ locked disk.

Definition cache_valid (m : gmap string CarRecord) : Prop :=
  map_Forall (fun _ r => CarRecordValidator.validate r = true) m.

(** No call of [persistCars] can throw: the backend keeps the records in
    memory, or it writes a file whose temporary sibling can be opened and
    every cached record passes the validator of [serialize]. *)
Definition persist_safe (w : World) : Prop :=
  match backend_ (repository w) with
  | MemoryStorageBackend _ => True
  | FileStorageBackend path =>
      (TransactionalFileWriter.tmpPath path ∉ locked (disk w))
      /\ cache_valid (records_ (repository w))
  end.

(** The state in which the stream leaves the lambda of [ingest]. *)
Definition streamed (path : string) (chunkSize : size_t) (w : World)
    : BatchProcessor.IngestState :=
  fold_left (CarFilePipeline.deliver (BatchProcessor.consumer chunkSize))
    (parsed (source_lines (disk w) path))
    (BatchProcessor.mkIngestState w [] (mkBatchMetrics 0%N 0%N)).

(** What [ingest] does once the stream has returned. *)
Definition finish (st : BatchProcessor.IngestState)
    : result BatchMetrics * World :=
  match BatchProcessor.buffer st with
  | [] => (Ok (BatchProcessor.metrics st), BatchProcessor.world st)
  | _ :: _ =>
      match BatchProcessor.commit (BatchProcessor.buffer st)
              (BatchProcessor.world st) with
      | (Throw e, w') => (Throw e, w')
      | (Ok _, w') =>
          (Ok (mkBatchMetrics
                 (processedRecords (BatchProcessor.metrics st))
                 (incr (batches (BatchProcessor.metrics st)))),
           w')
      end
  end.

(** After [k] records: no flush can throw, the buffer holds the [k mod c]
    valid records since the last chunk, and [k / c] chunks were taken. *)
Record chunked (c : size_t) (k : N) (st : BatchProcessor.IngestState)
    : Prop := mkChunked {
  chunked_safe : persist_safe (BatchProcessor.world st);
  chunked_valid :
    Forall (fun r => CarRecordValidator.validate r = true)
      (BatchProcessor.buffer st);
  chunked_buffer :
    N.of_nat (length (BatchProcessor.buffer st)) = (k mod c)%N;
  chunked_batches : batches (BatchProcessor.metrics st) = (k / c)%N;
  chunked_processed : processedRecords (BatchProcessor.metrics st) = k
}.

(** While [ingest] streams, after the records [seen]: no flush can
    throw; the cache with the buffered records stored is the initial cache
    with the seen records stored; and once a record was seen, an empty
    buffer means that the cache is saved as it is. *)
Record ingesting (w0 : World) (seen : list CarRecord)
    (st : BatchProcessor.IngestState) : Prop := mkIngesting {
  ingesting_safe : persist_safe (BatchProcessor.world st);
  ingesting_valid :
    Forall (fun r => CarRecordValidator.validate r = true)
      (BatchProcessor.buffer st);
  ingesting_cache :
    fold_left CarRepository.store (BatchProcessor.buffer st)
      (records_ (repository (BatchProcessor.world st)))
    = fold_left CarRepository.store seen (records_ (repository w0));
  ingesting_start : seen = [] -> BatchProcessor.world st = w0;
  ingesting_saved :
    seen <> [] -> BatchProcessor.buffer st = [] ->
    dirty_ (repository (BatchProcessor.world st)) = false
    /\ last (persist_calls (BatchProcessor.world st))
       = Some (CarRepository.all (repository (BatchProcessor.world st)))
}.

(** *** Repository *)

(** The last record of the sequence that carries the id. *)
Fixpoint last_written (i : string) (l : list CarRecord) : option CarRecord :=
  match l with
  | [] => None
  | r :: l' =>
      match last_written i l' with
      | Some r' => Some r'
      | None => if bool_decide (id r = i) then Some r else None
      end
  end.

(** Every record is filed under its own id. *)
Definition keys_are_ids (m : gmap string CarRecord) : Prop :=
  map_Forall (fun k r => id r = k) m.

(** [lhs.id < rhs.id], the comparison handed to [std::sort]. *)
Definition id_lt (lhs rhs : CarRecord) : Prop :=
  String.ltb (id lhs) (id rhs) = true.

(** *** Files of records *)

(** The characters the stream insertion of a double can write. *)
Definition double_chars : list ascii :=
  list_ascii_of_string "0123456789.e+-infa".

Definition line_free_fields (r : CarRecord) : bool :=
  Text.free_of Text.newline (id r) && Text.free_of Text.newline (model r)
  && Text.free_of Text.newline (condition r)
  && Text.free_of Text.newline (status r).

(** A record that a file gives back as it was written: the record passes
    the validator, its texts hold neither the field delimiter nor a line
    break, its status is not empty and its price survives its text. *)
Definition storable (r : CarRecord) : Prop :=
  CarRecordValidator.validate r = true
  /\ comma_free_fields r = true /\ line_free_fields r = true
  /\ status r <> "" /\ price_survives r.

Definition cache_storable (m : gmap string CarRecord) : Prop :=
  map_Forall (fun _ r => storable r) m.

(** What is flushed can be loaded again: the in-memory backend, or a file
    that can be opened, beside a temporary file that can be opened, for a
    cache of storable records. *)
Definition restorable (w : World) : Prop :=
  match backend_ (repository w) with
  | MemoryStorageBackend _ => True
  | FileStorageBackend path =>
      (TransactionalFileWriter.tmpPath path ∉ locked (disk w))
      /\ (path ∉ locked (disk w))
      /\ cache_storable (records_ (repository w))
  end.

(** *** Rental service *)

Definition rented_by (userId : string) (r : CarRecord) : CarRecord :=
  RentalService.set_status ("Rented by the user ID: " +:+ userId) r.

(** The world once the record under [carId] is replaced in the cache. *)
Definition with_record (carId : string) (record : CarRecord) (w : World)
    : World :=
  BatchProcessor.with_repository
    (CarRepository.set_cache (<[carId := record]> (records_ (repository w)))
       true (repository w)) w.

(** No flush can throw and every record is filed under its id. *)
Definition sound (w : World) : Prop :=
  persist_safe w /\ keys_are_ids (records_ (repository w)).

(** *** Legacy file layer *)

(** A record of the four-token layout as the legacy system holds it. *)
Definition as_legacy (r : CarRecord) : legacy_file.CarRecord :=
  legacy_file.mkCarRecord (model r) (condition r) (pricePerDay r)
    (if String.eqb (status r) "" then "Available" else status r) "None".

(** *** Synthetic data set *)

(** A value of [priceDist]: a double between the bounds of the
    distribution. *)
Definition drawn (x : Double.double) : bool :=
  Double.is_double x && Double.le (Double.of_Z 1800) x
  && Double.le x (Double.of_Z 7500).

(** *** Command line *)

Definition blank (s : string) : bool :=
  match Double.skip_space s with EmptyString => true | _ => false end.

Fixpoint spaceless (s : string) : bool :=
  match s with
  | EmptyString => true
  | String c rest => negb (Double.is_space c) && spaceless rest
  end.

(** A word as [iss >> token] extracts it. *)
Definition word (t : string) : Prop := t <> "" /\ spaceless t = true.

(** The last argument, after the name of the program, that the test
    accepts. *)
Definition last_flag (test : string -> bool) (argv : list string)
    : option string :=
  last (List.filter test (tail argv)).

Definition backend_flag (value : string) : bool :=
  String.eqb value "--backend=memory" || String.eqb value "--backend=file".
Definition cars_flag (value : string) : bool :=
  String.prefix "--cars=" value.
Definition mode_flag (value : string) : bool :=
  String.eqb value "--legacy" || String.eqb value "--mode=legacy"
  || String.eqb value "--mode=modular".

End Spec.

(** ** Sample data *)

Module Sample.

Definition horizon : CarRecord :=
  mkCarRecord "car-001" "Horizon" "excellent" (Double.of_Z 2500) "Available".

(** A price with eight significant digits. *)
Definition precise : CarRecord :=
  mkCarRecord "c1" "Civic" "good" (Double.of_decimal 12345678 10000) "Available".

(** A record whose status is the empty text. *)
Definition blank : CarRecord :=
  mkCarRecord "c2" "Civic" "good" (Double.of_Z 2500) "".

(** A record the validator rejects, and a valid one with the same id. *)
Definition broken : CarRecord :=
  mkCarRecord "x" "Bad" "good" (Double.of_Z (-1)) "Available".
Definition repaired : CarRecord :=
  mkCarRecord "x" "Fixed" "good" (Double.of_Z 10) "Available".

Definition two_lines : string :=
  "c1,Civic,good,2500,Available" +:+ String Text.newline
    ("x,Fixed,good,10,Available" +:+ String Text.newline EmptyString).

Definition three_lines : string :=
  "c1,Civic,good,2500,Available" +:+ String Text.newline
    ("not a record" +:+ String Text.newline
       ("x,Fixed,good,10,Available" +:+ String Text.newline EmptyString)).

Definition source_disk (content : string) : FileSystem :=
  mkFileSystem {[ "in.csv" := content ]} ∅.

(** A file-backed repository that holds [broken] and has unsaved changes. *)
Definition tainted : World :=
  mkWorld (source_disk two_lines)
    (mkCarRepository (FileStorageBackend "cars.txt") {[ "x" := broken ]} true)
    [].

(** An empty repository over the in-memory backend. *)
Definition in_memory (content : string) : World :=
  mkWorld (source_disk content)
    (mkCarRepository (MemoryStorageBackend []) ∅ false) [].

(** Lines for the parser. *)
Definition horizon_line : string := "car-001,Horizon,excellent,2500,Available".
Definition legacy_line : string := "Civic,good,2500,Rented".
Definition suffixed_price_line : string := "c1,Civic,good,2500abc,Available".
Definition worded_price_line : string := "c1,Civic,good,cheap,Available".
Definition blank_status_line : string := "c1,Civic,good,2500,,".
Definition nan_price_line : string := "c1,Civic,good,nan,Available".
Definition unit_test_line : string :=
  "car-001,Horizon,excellent,2500,Available,None".
Definition bad_condition_line : string := "bad,unknown,1000,Available".
Definition trailing_comma_line : string := "car-001,Horizon,excellent,2500,".
Definition numbers_line : string := "x,good,5,7,".

(** One line that parses and one that does not. *)
Definition mixed_lines : string :=
  "c1,Civic,good,2500,Available" +:+ String Text.newline
    ("not a record" +:+ String Text.newline EmptyString).

(** A file-backed repository that holds [broken], with unsaved changes,
    beside a source that does not replace it. *)
Definition stained : World :=
  mkWorld (source_disk mixed_lines)
    (mkCarRepository (FileStorageBackend "cars.txt") {[ "x" := broken ]} true)
    [].

(** The in-memory repository after [upsert(horizon)]. *)
Definition pending : World :=
  mkWorld (source_disk two_lines)
    (snd (CarRepository.upsert horizon
            (mkCarRepository (MemoryStorageBackend []) ∅ false)))
    [].

Definition c1 : CarRecord :=
  mkCarRecord "c1" "Civic" "good" (Double.of_Z 2500) "Available".

Definition rent (r : CarRecord) : CarRecord :=
  mkCarRecord (id r) (model r) (condition r) (pricePerDay r) "Rented".

Definition old_disk : gmap string string :=
  {[ "cars.txt" := "old" +:+ String Text.newline EmptyString ]}.

Definition empty_disk : FileSystem := mkFileSystem ∅ ∅.

(** A file-backed repository of two cars with unsaved changes, on a disk
    without files. *)
Definition fleet : World :=
  mkWorld empty_disk
    (mkCarRepository (FileStorageBackend "cars.txt")
       (<["car-001" := horizon]> {[ "c1" := c1 ]}) true)
    [].

(** The same repository with one car, over a file that exists and cannot
    be opened. *)
Definition shut : World :=
  mkWorld (mkFileSystem old_disk {[ "cars.txt" ]})
    (mkCarRepository (FileStorageBackend "cars.txt") {[ "c1" := c1 ]} true)
    [].

(** A random engine that always yields 2499.6. *)
Definition steady (i : nat) : Double.double := Double.of_decimal 24996 10.

End Sample.

(** * Properties *)

(** ** Tokenizing *)

Section TextFacts.
Import Text.
Variable delim : ascii.

Lemma read_until_shorter c s :
  (String.length (snd (read_until delim (String c s))) <= String.length s)%nat.
Proof.
  revert c. induction s as [|c' s IH]; intros c; simpl.
  - destruct (Ascii.eqb c delim); simpl; lia.
  - destruct (Ascii.eqb c delim); simpl; [lia|].
    specialize (IH c'). simpl in IH.
    destruct (Ascii.eqb c' delim); simpl in *; [lia|].
    destruct (read_until delim s); simpl in *; lia.
Qed.

Lemma fields_read_until c s :
  fields delim (String c s) =
  fst (read_until delim (String c s))
    :: fields delim (snd (read_until delim (String c s))).
Proof.
  revert c. induction s as [|c' s IH]; intros c.
  - simpl. destruct (Ascii.eqb c delim); reflexivity.
  - cbn [fields read_until]. destruct (Ascii.eqb c delim); [reflexivity|].
    specialize (IH c'). cbn [fields read_until] in IH. rewrite IH.
    destruct (Ascii.eqb c' delim); [reflexivity|].
    destruct (read_until delim s); reflexivity.
Qed.

(** With fuel beyond the length of the text the loop ends on the failing
    [getline] and has pushed the fields of the text. *)
Lemma getline_loop_fields fuel s tokens :
  (String.length s < fuel)%nat ->
  getline_loop fuel delim s tokens = tokens ++ fields delim s.
Proof.
  revert s tokens. induction fuel as [|fuel IH]; intros s tokens Hlen; [lia|].
  destruct s as [|c s].
  - simpl. by rewrite app_nil_r.
  - cbn [getline_loop getline].
    destruct (read_until delim (String c s)) as [tok rest] eqn:E.
    rewrite IH.
    + rewrite fields_read_until, E. simpl. by rewrite <- app_assoc.
    + pose proof (read_until_shorter c s) as Hs. rewrite E in Hs.
      simpl in Hs, Hlen. lia.
Qed.

Lemma split_fields s : split delim s = fields delim s.
Proof. unfold split. by rewrite getline_loop_fields by lia. Qed.

Lemma fields_cons t rest :
  free_of delim t = true ->
  fields delim (t +:+ String delim rest) = t :: fields delim rest.
Proof.
  induction t as [|c t IH]; intros Hfree; simpl in *.
  - by rewrite Ascii.eqb_refl.
  - apply andb_prop in Hfree as [Hc Ht].
    apply negb_true_iff in Hc. rewrite Hc, (IH Ht). reflexivity.
Qed.

Lemma fields_last t :
  free_of delim t = true -> t <> EmptyString -> fields delim t = [t].
Proof.
  induction t as [|c t IH]; intros Hfree Hne; [done|].
  simpl in *. apply andb_prop in Hfree as [Hc Ht].
  apply negb_true_iff in Hc. rewrite Hc.
  destruct t as [|c' t]; [reflexivity|].
  rewrite (IH Ht); [reflexivity | discriminate].
Qed.

Lemma free_of_app a b :
  free_of delim (a +:+ b) = free_of delim a && free_of delim b.
Proof.
  induction a as [|c a IH]; simpl; [reflexivity|].
  by rewrite IH, andb_assoc.
Qed.

Lemma free_of_chars l :
  Forall (fun c => c <> delim) l ->
  free_of delim (string_of_list_ascii l) = true.
Proof.
  induction 1 as [|c l Hc _ IH]; simpl; [reflexivity|].
  rewrite IH, andb_true_r. apply negb_true_iff.
  by apply Ascii.eqb_neq.
Qed.
End TextFacts.

(** ** The parser *)

Section ParserFacts.
Import CarRecordParser CarRecordValidator Spec.

Lemma tokenize_fields line : tokenize line = Text.fields Text.comma line.
Proof. apply split_fields. Qed.

Lemma parse_empty : parse "" = Ok None.
Proof. reflexivity. Qed.

Lemma parse_short line :
  line <> "" -> (length (tokenize line) < 4)%nat ->
  parse line = Throw (MalformedRecord line).
Proof.
  intros Hne Hlen. unfold parse.
  apply String.eqb_neq in Hne. rewrite Hne.
  apply Nat.ltb_lt in Hlen. cbv zeta. by rewrite Hlen.
Qed.

(** With more than four tokens the first five are used in order. *)
Lemma parse_long line a b c d e rest :
  line <> "" -> tokenize line = a :: b :: c :: d :: e :: rest ->
  parse line = assemble line a b c d e.
Proof.
  intros Hne Htok. unfold parse, assemble.
  apply String.eqb_neq in Hne. rewrite Hne, Htok. unfold at_. simpl.
  destruct (Double.stod d); [|reflexivity].
  by destruct (validate _).
Qed.

(** With four tokens the first one is both the id and the model. *)
Lemma parse_legacy line a b c d :
  line <> "" -> tokenize line = [a; b; c; d] ->
  parse line = assemble line a a b c d.
Proof.
  intros Hne Htok. unfold parse, assemble.
  apply String.eqb_neq in Hne. rewrite Hne, Htok. unfold at_. simpl.
  destruct (Double.stod c); [|reflexivity].
  by destruct (validate _).
Qed.

Lemma assemble_ok line a b c d e r :
  assemble line a b c d e = Ok (Some r) ->
  Double.stod d = Ok (pricePerDay r) /\ validate r = true /\
  r = mkCarRecord a b c (pricePerDay r) e.
Proof.
  unfold assemble. destruct (Double.stod d) as [p|]; [|discriminate].
  destruct (validate _) eqn:Hv; [|discriminate].
  intros [= <-]. done.
Qed.

(** The shape of every outcome of [parse] on a line that is not empty. *)
Lemma parse_cases line :
  line <> "" ->
  ((length (tokenize line) < 4)%nat /\ parse line = Throw (MalformedRecord line))
  \/ (exists a b c d, tokenize line = [a; b; c; d]
                      /\ parse line = assemble line a a b c d)
  \/ (exists a b c d e rest, tokenize line = a :: b :: c :: d :: e :: rest
                             /\ parse line = assemble line a b c d e).
Proof.
  intros Hne.
  destruct (tokenize line) as [|a [|b [|c [|d [|e rest]]]]] eqn:Htok.
  1-4: left; split; [simpl; lia | apply parse_short; [done | rewrite Htok; simpl; lia]].
  - right; left. exists a, b, c, d. split; [done | by apply parse_legacy].
  - right; right. exists a, b, c, d, e, rest. split; [done | by eapply parse_long].
Qed.

(** A record returned by [parse] has passed the validator. *)
Lemma parse_ok_valid line r : parse line = Ok (Some r) -> validate r = true.
Proof.
  intros Hp. destruct (decide (line = "")) as [->|Hne]; [done|].
  destruct (parse_cases line Hne) as [[_ H]|[(a&b&c&d&_&H)|(a&b&c&d&e&rest&_&H)]];
    rewrite H in Hp; [done| |]; by apply assemble_ok in Hp as (_&?&_).
Qed.

Lemma existsb_eqb_In c l : existsb (String.eqb c) l = true -> In c l.
Proof.
  intros H. apply existsb_exists in H as (x & Hx & Heq).
  apply String.eqb_eq in Heq. by subst.
Qed.

(** What the validator guarantees. *)
Lemma validate_well_formed r : validate r = true -> well_formed r.
Proof.
  unfold validate, well_formed. intros H.
  destruct (String.eqb (id r) "") eqn:Hid; [done|].
  destruct (String.eqb (model r) "") eqn:Hm; [done|]. simpl in H.
  destruct (isConditionValid (condition r)) eqn:Hc; [|done]. simpl in H.
  apply String.eqb_neq in Hid, Hm.
  repeat split; [done | done | by apply existsb_eqb_In |].
  destruct (pricePerDay r) as [s|s| |s m e]; [by destruct s| by destruct s | done |].
  destruct s; [done|]. eauto.
Qed.

Lemma well_formed_validate r : well_formed r -> validate r = true.
Proof.
  intros (Hid & Hm & Hc & m & e & Hp). unfold validate.
  apply String.eqb_neq in Hid, Hm. rewrite Hid, Hm, Hp. simpl.
  assert (isConditionValid (condition r) = true) as ->; [|done].
  apply existsb_exists. exists (condition r). split; [done|apply String.eqb_refl].
Qed.

(** The three kinds of failure of the specification are the only ones. *)
Lemma parse_error_kinds line e :
  parse line = Throw e ->
  e = MalformedRecord line \/ InvalidNumber e \/ e = ValidationFailed line.
Proof.
  intros Hp. destruct (decide (line = "")) as [->|Hne]; [done|].
  assert (forall a b c d f, assemble line a b c d f = Throw e ->
            InvalidNumber e \/ e = ValidationFailed line) as Hasm.
  { intros a b c d f. unfold assemble, Double.stod.
    destruct (Double.read_sign _) as [neg s].
    destruct (Double.scan s) as [| | |n d'].
    - intros [= <-]. left. by left.
    - destruct (validate _); [done|]. intros [= <-]. by right.
    - destruct (validate _); [done|]. intros [= <-]. by right.
    - destruct (Double.of_rational neg n d') as [x exact].
      destruct (_ || _).
      + intros [= <-]. left. by right.
      + destruct (validate _); [done|]. intros [= <-]. by right. }
  destruct (parse_cases line Hne) as [[_ H]|[(a&b&c&d&_&H)|(a&b&c&d&f&rest&_&H)]];
    rewrite H in Hp.
  - left. congruence.
  - right. eauto.
  - right. eauto.
Qed.

(** The status of a parsed record is the token at the status position. *)
Lemma parse_status line r :
  parse line = Ok (Some r) -> status_token line = Some (status r).
Proof.
  intros Hp. destruct (decide (line = "")) as [->|Hne]; [done|].
  unfold status_token.
  destruct (parse_cases line Hne) as [[_ H]|[(a&b&c&d&Ht&H)|(a&b&c&d&f&rest&Ht&H)]];
    rewrite H in Hp; [done| |]; apply assemble_ok in Hp as (_&_&->); by rewrite Ht.
Qed.
End ParserFacts.

(** ** Text of a double *)

Section DoubleFacts.
Import Double Spec.

Lemma digit_char_plain k : plain (digit_char k).
Proof.
  unfold digit_char.
  destruct (nth_in_or_default (Z.to_nat (k mod 10)) decimal_digits "0"%char)
    as [Hin| ->]; [|discriminate].
  revert Hin. generalize (nth (Z.to_nat (k mod 10)) decimal_digits "0"%char).
  intros c Hin. simpl in Hin.
  repeat (destruct Hin as [<-|Hin]; [discriminate|]). destruct Hin.
Qed.

Lemma digits6_plain m : Forall plain (digits6 m).
Proof. unfold digits6. simpl. repeat constructor; apply digit_char_plain. Qed.

Lemma strip_zeros_plain l : Forall plain l -> Forall plain (strip_zeros l).
Proof.
  induction 1 as [|c l Hc Hl IH]; simpl; [constructor|].
  destruct (strip_zeros l).
  - destruct (Ascii.eqb c "0"); repeat constructor; done.
  - by constructor.
Qed.

Lemma with_fraction_plain ip frac :
  Forall plain ip -> Forall plain frac -> Forall plain (with_fraction ip frac).
Proof.
  intros Hi Hf. unfold with_fraction. destruct frac; [done|].
  apply Forall_app. split; [done|]. by constructor.
Qed.

Lemma exponent_digits_plain x : Forall plain (exponent_digits x).
Proof.
  unfold exponent_digits. apply Forall_app. split.
  - destruct (_ <? _); repeat constructor; apply digit_char_plain.
  - repeat constructor; apply digit_char_plain.
Qed.

Lemma show_g6_plain m x : Forall plain (show_g6 m x).
Proof.
  pose proof (digits6_plain m) as Hd. unfold show_g6.
  destruct (_ || _); [|destruct (x <? 0)].
  - apply Forall_app. split.
    + apply with_fraction_plain;
        [by apply Forall_take | by apply strip_zeros_plain, Forall_drop].
    + constructor; [done|]. constructor; [by destruct (x <? 0)|].
      apply exponent_digits_plain.
  - apply with_fraction_plain; [by repeat constructor|].
    apply Forall_app. split; [|by apply strip_zeros_plain].
    apply Forall_replicate. done.
  - apply with_fraction_plain;
      [by apply Forall_take | by apply strip_zeros_plain, Forall_drop].
Qed.

Lemma show_chars_plain x : Forall plain (show_chars x).
Proof.
  assert (forall neg, Forall plain (show_sign neg)) as Hs.
  { intros []; repeat constructor; done. }
  destruct x as [s|s| |s m e]; simpl.
  - apply Forall_app. split; [apply Hs | by repeat constructor].
  - apply Forall_app. split; [apply Hs | by repeat constructor].
  - by repeat constructor.
  - destruct (scale2 _ _ _) as [n d]. destruct (sig6 n d) as [m6 x].
    apply Forall_app. split; [apply Hs | apply show_g6_plain].
Qed.

(** The text of a double holds no comma. *)
Lemma show_comma_free x : Text.free_of Text.comma (show x) = true.
Proof. apply free_of_chars, show_chars_plain. Qed.

(** *** Where [std::stod] finds no number *)

(** The two exceptions of [std::stod]. *)
Lemma stod_error_kinds s e :
  stod s = Throw e -> CarRecordParser.InvalidNumber e.
Proof.
  unfold stod, CarRecordParser.InvalidNumber.
  repeat case_match; intros [= <-]; auto.
Qed.

Lemma read_digits_count digit base s acc count :
  count <= snd (fst (read_digits digit base s acc count)).
Proof.
  revert acc count. induction s as [|c s IH]; intros acc count; simpl; [lia|].
  destruct (digit c); simpl; [|lia].
  specialize (IH (acc * base + z) (count + 1)). lia.
Qed.

Lemma read_digits_none digit base c s acc count :
  digit c = None ->
  read_digits digit base (String c s) acc count = (acc, count, String c s).
Proof. intros H. simpl. by rewrite H. Qed.

Lemma scan_mantissa_none s :
  match s with
  | String c rest =>
      is_digit c ||
      (Ascii.eqb c "." &&
       match rest with String c' _ => is_digit c' | EmptyString => false end)
  | EmptyString => false
  end = false ->
  scan_mantissa digit_val 10 s = None.
Proof.
  destruct s as [|c rest]; [reflexivity|].
  unfold is_digit. intros H. apply orb_false_elim in H as [Hc Hdot].
  destruct (digit_val c) eqn:Hd; [done|].
  unfold scan_mantissa. rewrite read_digits_none by done.
  destruct (Ascii.eqb c ".") eqn:Hp.
  - apply Ascii.eqb_eq in Hp. subst c. simpl in Hdot.
    destruct rest as [|c' rest]; [reflexivity|].
    destruct (digit_val c') eqn:Hd'; [done|].
    by rewrite read_digits_none.
  - destruct c as [[] [] [] [] [] [] [] []]; try reflexivity; discriminate.
Qed.

Lemma scan_hex_digit s :
  match s with String c _ => is_digit c | EmptyString => false end = false ->
  scan_hex s = None.
Proof.
  destruct s as [|c rest]; [reflexivity|]. unfold is_digit.
  destruct c as [[] [] [] [] [] [] [] []]; try reflexivity; discriminate.
Qed.

(** Text that does not begin like a number is not converted. *)
Lemma stod_invalid_argument s :
  starts_number s = false -> stod s = Throw (invalid_argument "stod").
Proof.
  unfold starts_number, stod.
  destruct (read_sign (skip_space s)) as [neg t].
  intros H. apply orb_false_elim in H as [H Hnum].
  apply orb_false_elim in H as [Hinf Hnan].
  unfold scan. rewrite Hinf, Hnan.
  rewrite scan_hex_digit.
  - unfold scan_decimal. by rewrite scan_mantissa_none.
  - destruct t as [|c rest]; [done|]. by apply orb_false_elim in Hnum as [? _].
Qed.

(** Text that begins like a number is converted, whatever follows. *)
Lemma stod_converts s :
  starts_number s = true -> stod s <> Throw (invalid_argument "stod").
Proof.
  unfold starts_number, stod.
  destruct (read_sign (skip_space s)) as [neg t].
  intros H.
  assert (scan t <> NoConversion) as Hscan.
  { unfold scan.
    destruct (prefix_ci "inf" t); [done|].
    destruct (prefix_ci "nan" t); [done|]. simpl in H.
    destruct (scan_hex t) as [r|] eqn:Hhex.
    - unfold scan_hex in Hhex.
      repeat case_match; simplify_eq; done.
    - unfold scan_decimal.
      destruct (scan_mantissa digit_val 10 t) as [[[m nf] s1]|] eqn:Hm.
      + destruct (scan_exponent _ _ s1). by destruct (scale10 _ _ _).
      + exfalso. destruct t as [|c rest]; [done|].
        unfold scan_mantissa, is_digit in *.
        destruct (digit_val c) as [v|] eqn:Hd.
        * cbn [read_digits] in Hm. rewrite Hd in Hm.
          pose proof (read_digits_count digit_val 10 rest (0 * 10 + v) (0 + 1)) as Hc.
          destruct (read_digits digit_val 10 rest (0 * 10 + v) (0 + 1))
            as [[i ni] s1]. simpl in Hc.
          destruct s1 as [|c1 s2].
          { destruct (ni =? 0) eqn:E; [lia|done]. }
          destruct (Ascii.eqb c1 ".") eqn:Hp.
          -- apply Ascii.eqb_eq in Hp. subst c1.
             pose proof (read_digits_count digit_val 10 s2 i 0) as Hc2.
             destruct (read_digits digit_val 10 s2 i 0) as [[m nf] s3].
             simpl in Hc2. destruct ((ni + nf) =? 0) eqn:E; [lia|done].
          -- assert ((ni =? 0) = false) as E by lia.
             destruct c1 as [[] [] [] [] [] [] [] []]; rewrite ?E in Hm; try done.
        * simpl in H. apply andb_prop in H as [Hp Hd'].
          apply Ascii.eqb_eq in Hp. subst c.
          destruct rest as [|c' rest]; [done|].
          destruct (digit_val c') as [v|] eqn:Hdv; [|done].
          rewrite read_digits_none in Hm by reflexivity.
          cbn [read_digits] in Hm. rewrite Hdv in Hm.
          pose proof (read_digits_count digit_val 10 rest (0 * 10 + v) (0 + 1)) as Hc.
          destruct (read_digits digit_val 10 rest (0 * 10 + v) (0 + 1))
            as [[m nf] s3]. simpl in Hc.
          destruct ((0 + nf) =? 0) eqn:E; [lia|done]. }
  destruct (scan t) as [| | |n d]; [done|discriminate|discriminate|].
  destruct (of_rational neg n d) as [x exact].
  destruct (negb (isfinite x) || tiny n d && negb exact); intros ?; discriminate.
Qed.

(** *** Where the number ends *)

Lemma digit_val_foreign c : is_digit c = false -> digit_val c = None.
Proof. unfold is_digit. by destruct (digit_val c). Qed.

Lemma read_sign_eq s :
  read_sign s
  = match s with
    | String c rest =>
        if Ascii.eqb c "-" then (true, rest)
        else if Ascii.eqb c "+" then (false, rest) else (false, s)
    | EmptyString => (false, s)
    end.
Proof.
  destruct s as [|c rest]; [done|].
  destruct c as [[] [] [] [] [] [] [] []]; reflexivity.
Qed.

Lemma scan_mantissa_eq digit base s :
  scan_mantissa digit base s
  = let '(i, ni, s1) := read_digits digit base s 0 0 in
    match s1 with
    | String c s2 =>
        if Ascii.eqb c "." then
          let '(m, nf, s3) := read_digits digit base s2 i 0 in
          if ni + nf =? 0 then None else Some (m, nf, s3)
        else if ni =? 0 then None else Some (i, 0, s1)
    | EmptyString => if ni =? 0 then None else Some (i, 0, s1)
    end.
Proof.
  unfold scan_mantissa. destruct (read_digits digit base s 0 0) as [[i ni] s1].
  destruct s1 as [|c s2]; [done|].
  destruct c as [[] [] [] [] [] [] [] []]; reflexivity.
Qed.

Lemma scan_hex_eq s :
  scan_hex s
  = match s with
    | String c (String x s1) =>
        if Ascii.eqb c "0" && (Ascii.eqb x "x" || Ascii.eqb x "X") then
          match scan_mantissa hex_val 16 s1 with
          | None => None
          | Some (m, nf, s2) =>
              let '(e, _) := scan_exponent "p" "P" s2 in
              let '(n, d) := scale2 m 1 (4 * nf - e) in
              Some (Rational n d)
          end
        else None
    | _ => None
    end.
Proof.
  destruct s as [|c [|x s1]].
  - done.
  - destruct c as [[] [] [] [] [] [] [] []]; reflexivity.
  - destruct c as [[] [] [] [] [] [] [] []]; reflexivity.
Qed.

Lemma read_digits_append base s rest acc count a n s' :
  digitless rest ->
  read_digits digit_val base s acc count = (a, n, s') ->
  read_digits digit_val base (s +:+ rest) acc count = (a, n, s' +:+ rest).
Proof.
  intros Hrest. revert acc count.
  induction s as [|c s IH]; intros acc count H.
  - simpl in H. injection H as <- <- <-.
    change (EmptyString +:+ rest) with rest.
    destruct rest as [|c r]; [done|]. simpl in *. by rewrite Hrest.
  - change (String c s +:+ rest) with (String c (s +:+ rest)).
    cbn [read_digits] in *. destruct (digit_val c) as [v|].
    + by apply IH.
    + by injection H as <- <- <-.
Qed.

Lemma foreign_digitless rest : foreign rest = true -> digitless rest.
Proof.
  destruct rest as [|c r]; [done|]. simpl. intros H.
  apply negb_true_iff in H. repeat apply orb_false_elim in H as [H _].
  by apply digit_val_foreign.
Qed.

Lemma foreign_head c r :
  foreign (String c r) = true ->
  is_digit c = false /\ Ascii.eqb c "." = false
  /\ Ascii.eqb c "e" = false /\ Ascii.eqb c "E" = false
  /\ Ascii.eqb c "x" = false /\ Ascii.eqb c "X" = false.
Proof.
  simpl. intros H. apply negb_true_iff in H.
  apply orb_false_elim in H as [H Hx]. apply orb_false_elim in H as [H He].
  apply orb_false_elim in H as [Hd Hp].
  repeat split; try done.
  - destruct (Ascii.eqb_spec c "e") as [->|]; [done|done].
  - destruct (Ascii.eqb_spec c "E") as [->|]; [done|done].
  - destruct (Ascii.eqb_spec c "x") as [->|]; [done|done].
  - destruct (Ascii.eqb_spec c "X") as [->|]; [done|done].
Qed.

Lemma scan_mantissa_append s rest m nf s' :
  foreign rest = true ->
  scan_mantissa digit_val 10 s = Some (m, nf, s') ->
  scan_mantissa digit_val 10 (s +:+ rest) = Some (m, nf, s' +:+ rest).
Proof.
  intros Hrest. pose proof (foreign_digitless rest Hrest) as Hd.
  rewrite !scan_mantissa_eq.
  destruct (read_digits digit_val 10 s 0 0) as [[i ni] s1] eqn:H1.
  rewrite (read_digits_append _ _ _ _ _ _ _ _ Hd H1).
  destruct s1 as [|c s2].
  - change (EmptyString +:+ rest) with rest.
    destruct (ni =? 0); [done|]. intros [= <- <- <-].
    destruct rest as [|c r]; [done|].
    apply foreign_head in Hrest as (_ & -> & _). done.
  - change (String c s2 +:+ rest) with (String c (s2 +:+ rest)).
    cbv beta iota. destruct (Ascii.eqb c ".").
    + destruct (read_digits digit_val 10 s2 i 0) as [[m' nf'] s3] eqn:H2.
      rewrite (read_digits_append _ _ _ _ _ _ _ _ Hd H2).
      destruct (ni + nf' =? 0); [done|]. by intros [= <- <- <-].
    + destruct (ni =? 0); [done|]. by intros [= <- <- <-].
Qed.

Lemma read_sign_append s rest neg s1 :
  s <> "" -> read_sign s = (neg, s1) ->
  read_sign (s +:+ rest) = (neg, s1 +:+ rest).
Proof.
  destruct s as [|c s]; [done|]. intros _.
  change (String c s +:+ rest) with (String c (s +:+ rest)).
  rewrite !read_sign_eq.
  destruct (Ascii.eqb c "-"); [by intros [= <- <-]|].
  destruct (Ascii.eqb c "+"); by intros [= <- <-].
Qed.

Lemma scan_exponent_append s rest e :
  foreign rest = true ->
  scan_exponent "e" "E" s = (e, EmptyString) ->
  fst (scan_exponent "e" "E" (s +:+ rest)) = e.
Proof.
  intros Hrest. pose proof (foreign_digitless rest Hrest) as Hd.
  destruct s as [|c s1].
  - intros [= <-]. change (EmptyString +:+ rest) with rest.
    destruct rest as [|x r]; [done|].
    apply foreign_head in Hrest as (_ & _ & He & HE & _).
    simpl. by rewrite He, HE.
  - change (String c s1 +:+ rest) with (String c (s1 +:+ rest)).
    cbn [scan_exponent].
    destruct (Ascii.eqb c "e" || Ascii.eqb c "E"); [|done].
    destruct (read_sign s1) as [neg s2] eqn:Hs.
    destruct (read_digits digit_val 10 s2 0 0) as [[e' ne] s3] eqn:H2.
    destruct (ne =? 0) eqn:Hne; [done|]. intros [= <- ->].
    assert (s1 <> "") as Hs1.
    { intros ->. simpl in Hs. injection Hs as <- <-. simpl in H2.
      injection H2 as <- <-. done. }
    rewrite (read_sign_append _ rest _ _ Hs1 Hs).
    rewrite (read_digits_append _ _ _ _ _ _ _ _ Hd H2).
    by rewrite Hne.
Qed.

(** A number begins with a digit or with the point. *)
Lemma scan_mantissa_head s r :
  scan_mantissa digit_val 10 s = Some r ->
  exists c s', s = String c s' /\ (is_digit c = true \/ c = "."%char).
Proof.
  destruct s as [|c s']; [done|]. intros H. exists c, s'. split; [done|].
  unfold is_digit. destruct (digit_val c) eqn:Hc; [by left|]. right.
  rewrite scan_mantissa_eq, read_digits_none in H by done.
  by destruct (Ascii.eqb_spec c ".").
Qed.

Lemma digit_or_point c :
  is_digit c = true \/ c = "."%char ->
  is_space c = false /\ Ascii.eqb "i" (to_lower c) = false
  /\ Ascii.eqb "n" (to_lower c) = false
  /\ Ascii.eqb c "-" = false /\ Ascii.eqb c "+" = false.
Proof.
  intros [H| ->]; [|done].
  destruct c as [[] [] [] [] [] [] [] []]; try (vm_compute in H; discriminate H);
    done.
Qed.

Lemma scan_append s rest m nf s' e :
  foreign rest = true ->
  scan_mantissa digit_val 10 s = Some (m, nf, s') ->
  scan_exponent "e" "E" s' = (e, EmptyString) ->
  scan (s +:+ rest) = scan s.
Proof.
  intros Hrest Hm He.
  destruct (scan_mantissa_head s _ Hm) as (c & t & -> & Hc).
  destruct (digit_or_point c Hc) as (_ & Hi & Hn & _).
  assert (scan_hex (String c t +:+ rest) = None /\ scan_hex (String c t) = None)
    as [Hhex1 Hhex2].
  { change (String c t +:+ rest) with (String c (t +:+ rest)).
    rewrite !scan_hex_eq. destruct (Ascii.eqb_spec c "0") as [->|]; cycle 1.
    { simpl. split; [by destruct (t +:+ rest) | by destruct t]. }
    destruct t as [|x t].
    - split; [|done]. change (EmptyString +:+ rest) with rest.
      destruct rest as [|x r]; [done|].
      apply foreign_head in Hrest as (_ & _ & _ & _ & -> & ->). done.
    - change (String x t +:+ rest) with (String x (t +:+ rest)).
      destruct (Ascii.eqb x "x" || Ascii.eqb x "X") eqn:Hx;
        rewrite ?Hx; [|done].
      exfalso. assert (digit_val x = None) as Hdx.
      { apply orb_prop in Hx as [Hx|Hx]; apply Ascii.eqb_eq in Hx; by subst. }
      assert (Ascii.eqb x "." = false /\ Ascii.eqb x "e" || Ascii.eqb x "E" = false)
        as [Hp Hee].
      { apply orb_prop in Hx as [Hx|Hx]; apply Ascii.eqb_eq in Hx; by subst. }
      rewrite scan_mantissa_eq in Hm. cbn [read_digits] in Hm.
      change (digit_val "0") with (Some 0) in Hm. cbn [read_digits] in Hm.
      rewrite Hdx, Hp in Hm. simpl in Hm. injection Hm as <- <- <-.
      cbn [scan_exponent] in He. rewrite Hee in He. done. }
  unfold scan.
  change (String c t +:+ rest) with (String c (t +:+ rest)) in *.
  cbn [prefix_ci]. rewrite Hi, Hn. cbn [andb].
  rewrite Hhex1, Hhex2. unfold scan_decimal.
  change (String c (t +:+ rest)) with (String c t +:+ rest).
  rewrite Hm, (scan_mantissa_append _ _ _ _ _ Hrest Hm), He.
  pose proof (scan_exponent_append _ _ _ Hrest He) as Hfst.
  destruct (scan_exponent "e" "E" (s' +:+ rest)) as [e' r']. simpl in Hfst.
  by subst e'.
Qed.

(** A decimal number followed by text that cannot continue it is read as
    the number alone. *)
Lemma stod_ignores_rest t rest :
  numeric_text t = true -> foreign rest = true ->
  stod (t +:+ rest) = stod t.
Proof.
  unfold numeric_text. destruct (read_sign t) as [neg t1] eqn:Hs.
  destruct (scan_mantissa digit_val 10 t1) as [[[m nf] s']|] eqn:Hm; [|done].
  destruct (scan_exponent "e" "E" s') as [e s3] eqn:He.
  intros Hs3 Hrest. apply String.eqb_eq in Hs3. subst s3.
  destruct (scan_mantissa_head t1 _ Hm) as (c & t2 & -> & Hc).
  destruct (digit_or_point c Hc) as (Hsp & _ & _ & Hminus & Hplus).
  assert (t <> "") as Hne by (by intros ->).
  assert (skip_space t = t /\ skip_space (t +:+ rest) = t +:+ rest)
    as [Hk1 Hk2].
  { destruct t as [|a t']; [done|].
    change (String a t' +:+ rest) with (String a (t' +:+ rest)).
    assert (is_space a = false) as Ha.
    { rewrite read_sign_eq in Hs.
      destruct (Ascii.eqb_spec a "-") as [->|]; [done|].
      destruct (Ascii.eqb_spec a "+") as [->|]; [done|].
      by injection Hs as _ ->. }
    simpl. by rewrite Ha. }
  unfold stod. rewrite Hk1, Hk2, Hs, (read_sign_append _ rest _ _ Hne Hs).
  by rewrite (scan_append _ _ _ _ _ _ Hrest Hm He).
Qed.

(** *** The value of a text of digits *)

Lemma read_digits_only s acc count :
  only_digits s = true ->
  read_digits digit_val 10 s acc count
  = (digits_after acc s, count + Z.of_nat (String.length s), EmptyString).
Proof.
  revert acc count. induction s as [|c s IH]; intros acc count Hs.
  - simpl. by rewrite Z.add_0_r.
  - simpl in Hs. apply andb_prop in Hs as [Hc Hs]. unfold is_digit in Hc.
    cbn [read_digits digits_after String.length].
    destruct (digit_val c) as [v|]; [|done]. rewrite (IH _ _ Hs). simpl.
    replace (acc * 10 + v) with (10 * acc + v) by lia.
    f_equal. f_equal. lia.
Qed.

Lemma digits_scanned t :
  digits t = true ->
  read_sign t = (false, t)
  /\ scan_mantissa digit_val 10 t = Some (digits_value t, 0, EmptyString).
Proof.
  unfold digits. intros H. apply andb_prop in H as [Hne Hs].
  destruct t as [|c t]; [done|]. clear Hne. split.
  - pose proof Hs as Hc. simpl in Hc. apply andb_prop in Hc as [Hc _].
    destruct (digit_or_point c (or_introl Hc)) as (_ & _ & _ & Hm & Hp).
    by rewrite read_sign_eq, Hm, Hp.
  - rewrite scan_mantissa_eq, (read_digits_only _ _ _ Hs).
    assert ((0 + Z.of_nat (String.length (String c t)) =? 0) = false) as ->;
      [|done].
    apply Z.eqb_neq. change (String.length (String c t)) with (S (String.length t)).
    lia.
Qed.

Lemma digits_numeric t : digits t = true -> numeric_text t = true.
Proof.
  intros H. destruct (digits_scanned t H) as [Hs Hm].
  unfold numeric_text. by rewrite Hs, Hm.
Qed.

Lemma digits_value_nonneg t : 0 <= digits_value t.
Proof.
  unfold digits_value.
  assert (forall acc, 0 <= acc -> 0 <= digits_after acc t) as H; [|by apply H].
  induction t as [|c t IH]; intros acc Hacc; [done|].
  simpl. apply IH. destruct (digit_val c) as [v|] eqn:Hv; simpl; [|lia].
  unfold digit_val in Hv. destruct (in_range "0" "9" c) eqn:Hr; [|done].
  injection Hv as <-. unfold in_range in Hr. lia.
Qed.

(** A whole number is never tiny. *)
Lemma tiny_whole v : 0 <= v -> tiny v 1 = false.
Proof.
  intros Hv. unfold tiny. destruct (v =? 0) eqn:Hz; [done|].
  assert (-1 <= ilog2_q v 1) as Hlog.
  { unfold ilog2_q. change (Z.log2 1) with 0.
    pose proof (Z.log2_nonneg v).
    destruct (scale2 v 1 (Z.log2 v - 0)) as [a b].
    destruct (b <=? a); lia. }
  destruct (scale2 v 1 (ilog2_q v 1 - 52)) as [a b].
  destruct (round_half_even a b) as [m ex].
  destruct (m =? 2 ^ 53); apply Z.ltb_ge; lia.
Qed.

(** A text of digits reads as the double nearest to the number it writes,
    and as nothing when this is none of the finite ones. *)
Lemma stod_digits t :
  digits t = true ->
  stod t
  = if isfinite (of_Z (digits_value t)) then Ok (of_Z (digits_value t))
    else Throw (out_of_range "stod").
Proof.
  intros H. destruct (digits_scanned t H) as [Hs Hm].
  pose proof (digits_value_nonneg t) as Hv.
  assert (skip_space t = t) as Hk.
  { destruct t as [|c t]; [done|]. unfold digits in H. simpl in H.
    apply andb_prop in H as [Hc _].
    destruct (digit_or_point c (or_introl Hc)) as (Hsp & _). simpl.
    by rewrite Hsp. }
  assert (scan t = Rational (digits_value t) 1) as Hscan.
  { destruct (scan_mantissa_head t _ Hm) as (c & t' & -> & Hc).
    destruct (digit_or_point c Hc) as (_ & Hi & Hn & _).
    unfold scan. cbn [prefix_ci]. rewrite Hi, Hn. cbn [andb].
    assert (scan_hex (String c t') = None) as ->.
    { rewrite scan_hex_eq. destruct t' as [|x t']; [done|].
      unfold digits in H. simpl in H. apply andb_prop in H as [_ Hx].
      apply andb_prop in Hx as [Hx _].
      destruct (Ascii.eqb_spec x "x") as [->|]; [done|].
      destruct (Ascii.eqb_spec x "X") as [->|]; [done|].
      by rewrite andb_false_r. }
    unfold scan_decimal. by rewrite Hm. }
  unfold stod. rewrite Hk, Hs, Hscan. unfold of_Z.
  assert ((digits_value t <? 0) = false) as -> by lia.
  rewrite Z.abs_eq by done. rewrite (tiny_whole _ Hv).
  destruct (of_rational false (digits_value t) 1) as [x exact]. simpl.
  rewrite orb_false_r. by destruct (isfinite x).
Qed.
End DoubleFacts.

(** ** Claims about the parser and the serializer *)

(** Runs [serialize] and [parse] on a concrete record to refute its round
    trip. *)
Ltac refute_round_trip :=
  let line := fresh "line" in
  let Hs := fresh "Hs" in
  let Hp := fresh "Hp" in
  intros (line & Hs & Hp); vm_compute in Hs; injection Hs as <-;
  vm_compute in Hp; discriminate.

Section ParserClaims.
Import CarRecordParser CarRecordValidator Spec.

Lemma append_delim_nonempty a c b : a +:+ String c b <> "".
Proof. by destruct a. Qed.

Lemma serialize_valid r :
  validate r = true ->
  serialize r =
  Ok (Text.join Text.comma
        [id r; model r; condition r; Double.show (pricePerDay r); status r]).
Proof. intros Hv. unfold serialize. by rewrite Hv. Qed.

Lemma tokenize_five a b c d e :
  Text.free_of Text.comma a = true -> Text.free_of Text.comma b = true ->
  Text.free_of Text.comma c = true -> Text.free_of Text.comma d = true ->
  Text.free_of Text.comma e = true -> e <> "" ->
  tokenize (Text.join Text.comma [a; b; c; d; e]) = [a; b; c; d; e].
Proof.
  intros Ha Hb Hc Hd He Hne. rewrite tokenize_fields. simpl.
  rewrite !fields_cons by done. by rewrite fields_last.
Qed.

Lemma tokenize_trailing a b c d :
  Text.free_of Text.comma a = true -> Text.free_of Text.comma b = true ->
  Text.free_of Text.comma c = true -> Text.free_of Text.comma d = true ->
  tokenize (Text.join Text.comma [a; b; c; d; ""]) = [a; b; c; d].
Proof.
  intros Ha Hb Hc Hd. rewrite tokenize_fields. simpl.
  by rewrite !fields_cons.
Qed.

(** No allowed condition reads as a number. *)
Lemma allowed_not_numeric c :
  In c allowed -> Double.stod c = Throw (invalid_argument "stod").
Proof.
  intros Hin. apply stod_invalid_argument.
  simpl in Hin. destruct Hin as [<-|[<-|[<-|[<-|[<-|[]]]]]]; reflexivity.
Qed.

Lemma C1_round_trip_core r :
  validate r = true -> comma_free_fields r = true ->
  status r <> "" -> price_survives r ->
  round_trips r.
Proof.
  intros Hv Hfree Hst Hprice. unfold comma_free_fields in Hfree.
  apply andb_prop in Hfree as [Hfree Hs].
  apply andb_prop in Hfree as [Hfree Hc].
  apply andb_prop in Hfree as [Hi Hm].
  eexists. split; [by apply serialize_valid|].
  erewrite parse_long; cycle 1.
  - simpl. apply append_delim_nonempty.
  - apply tokenize_five; auto using show_comma_free.
  - unfold assemble. rewrite Hprice. destruct r; simpl in *. by rewrite Hv.
Qed.

(** C1 (as amended).  A record that passes the validator, whose texts hold
    no comma, whose status is not empty and whose price is the double
    nearest to its own six-digit text is returned unchanged by [parse]
    applied to its serialization. *)
Theorem C1_round_trip r :
  validate r = true -> comma_free_fields r = true ->
  status r <> "" -> price_survives r ->
  round_trips r.
Proof. apply C1_round_trip_core. Qed.

Lemma C1_round_trip_witness : round_trips Sample.horizon.
Proof.
  apply (C1_round_trip Sample.horizon).
  - vm_compute. reflexivity.
  - vm_compute. reflexivity.
  - simpl. discriminate.
  - vm_compute. reflexivity.
Defined.

(** C1 as stated fails twice over: a price with more than six significant
    digits comes back rounded, and an empty status leaves a trailing comma
    that the tokenizer drops. *)
Lemma C1_counterexample :
  (validate Sample.precise = true /\
   comma_free_fields Sample.precise = true /\
   Double.is_double (pricePerDay Sample.precise) = true /\
   ~ round_trips Sample.precise)
  /\
  (validate Sample.blank = true /\
   comma_free_fields Sample.blank = true /\
   Double.is_double (pricePerDay Sample.blank) = true /\
   ~ round_trips Sample.blank).
Proof.
  split; (split; [|split; [|split]]); try (vm_compute; reflexivity);
    refute_round_trip.
Qed.

(** What becomes of the two records. *)
Lemma precise_comes_back_rounded :
  serialize Sample.precise = Ok "c1,Civic,good,1234.57,Available" /\
  parse "c1,Civic,good,1234.57,Available" =
  Ok (Some (mkCarRecord "c1" "Civic" "good" (Double.of_decimal 123457 100)
              "Available")).
Proof. split; vm_compute; reflexivity. Qed.

Lemma blank_is_rejected :
  serialize Sample.blank = Ok "c2,Civic,good,2500," /\
  parse "c2,Civic,good,2500," = Throw (invalid_argument "stod").
Proof. split; vm_compute; reflexivity. Qed.

(** *** The fields of a line and its tokens *)

Lemma comma_fields_nonempty s : comma_fields s <> [].
Proof.
  destruct s as [|c s]; [done|]. simpl.
  destruct (Ascii.eqb c Text.comma); [done|]. by destruct (comma_fields s).
Qed.

(** The fields are the texts between the commas: they hold no comma, and
    joined with commas they are the line. *)
Lemma comma_fields_join s : Text.join Text.comma (comma_fields s) = s.
Proof.
  induction s as [|c s IH]; [done|].
  pose proof (comma_fields_nonempty s) as Hne. cbn [comma_fields].
  destruct (Ascii.eqb_spec c Text.comma) as [->|Hc].
  - destruct (comma_fields s) as [|f fs]; [done|].
    change (Text.join Text.comma (EmptyString :: f :: fs))
      with (String Text.comma (Text.join Text.comma (f :: fs))).
    by rewrite IH.
  - destruct (comma_fields s) as [|f [|g fs]]; [done| |].
    + simpl in *. by rewrite IH.
    + change (Text.join Text.comma (String c f :: g :: fs))
        with (String c (Text.join Text.comma (f :: g :: fs))).
      by rewrite IH.
Qed.

Lemma comma_fields_free s :
  Forall (fun f => Text.free_of Text.comma f = true) (comma_fields s).
Proof.
  induction s as [|c s IH]; [by repeat constructor|]. cbn [comma_fields].
  destruct (Ascii.eqb c Text.comma) eqn:Hc; [by constructor|].
  destruct (comma_fields s) as [|f fs]; [by repeat constructor; simpl; rewrite Hc|].
  apply Forall_cons in IH as [Hf Hfs]. constructor; [|done].
  simpl. by rewrite Hc, Hf.
Qed.

(** They are the only such texts. *)
Lemma comma_fields_unique fs :
  fs <> [] -> Forall (fun f => Text.free_of Text.comma f = true) fs ->
  comma_fields (Text.join Text.comma fs) = fs.
Proof.
  intros Hne Hfs. induction Hfs as [|f fs Hf Hfs IH]; [done|]. clear Hne.
  destruct fs as [|g fs].
  - clear IH Hfs. cbn [Text.join]. induction f as [|c f IH]; [done|].
    simpl in Hf. apply andb_prop in Hf as [Hc Hf]. apply negb_true_iff in Hc.
    cbn [comma_fields]. rewrite Hc, (IH Hf). done.
  - specialize (IH ltac:(done)).
    change (Text.join Text.comma (f :: g :: fs))
      with (f +:+ String Text.comma (Text.join Text.comma (g :: fs))).
    generalize dependent (Text.join Text.comma (g :: fs)). intros rest IH.
    induction f as [|c f IHf].
    + change (EmptyString +:+ String Text.comma rest)
        with (String Text.comma rest).
      cbn [comma_fields]. rewrite Ascii.eqb_refl. by rewrite IH.
    + simpl in Hf. apply andb_prop in Hf as [Hc Hf]. apply negb_true_iff in Hc.
      change (String c f +:+ String Text.comma rest)
        with (String c (f +:+ String Text.comma rest)).
      cbn [comma_fields]. rewrite Hc, (IHf Hf). done.
Qed.

Lemma drop_last_empty_cons f fs :
  fs <> [] -> drop_last_empty (f :: fs) = f :: drop_last_empty fs.
Proof.
  destruct fs as [|g fs]; [done|]. intros _. unfold drop_last_empty.
  change (last (f :: g :: fs)) with (last (g :: fs)).
  change (removelast (f :: g :: fs)) with (f :: removelast (g :: fs)).
  by destruct (last (g :: fs)) as [[|a t]|].
Qed.

(** [std::getline] delivers the fields, except an empty one after the last
    comma. *)
Lemma fields_comma_fields s :
  Text.fields Text.comma s = drop_last_empty (comma_fields s).
Proof.
  induction s as [|c s IH]; [done|].
  pose proof (comma_fields_nonempty s) as Hne.
  cbn [Text.fields comma_fields].
  destruct (Ascii.eqb c Text.comma).
  - by rewrite drop_last_empty_cons, IH.
  - rewrite IH. destruct (comma_fields s) as [|f [|g fs]]; [done| |].
    + by destruct f.
    + rewrite (drop_last_empty_cons f) by done.
      by rewrite (drop_last_empty_cons (String c f)).
Qed.

Lemma tokenize_comma_fields line :
  tokenize line = drop_last_empty (comma_fields line).
Proof. by rewrite tokenize_fields, fields_comma_fields. Qed.

Lemma drop_last_empty_kept fs f :
  last fs = Some f -> f <> "" -> drop_last_empty fs = fs.
Proof. unfold drop_last_empty. intros -> Hf. by destruct f. Qed.

Lemma drop_last_empty_length fs :
  (length (drop_last_empty fs) <= length fs)%nat.
Proof.
  unfold drop_last_empty. destruct (last fs) as [[|a t]|]; [|done|done].
  destruct fs as [|f fs] using rev_ind; [done|].
  rewrite removelast_last, length_app. simpl. lia.
Qed.

(** C7 (as amended).  The fields of a line are the texts between its
    commas; the tokens of the parser are these fields, except that an
    empty field after the last comma is dropped.  The tokens decide the
    reading of a line that is not empty: with five or more, the first five
    are id, model, condition, price and status; four are model, condition,
    price and status, the first one serving as the id as well; fewer than
    four are a malformed record.  So five fields are read in this order
    when the fifth is not empty and as four when it is empty, four fields
    are read as four when the fourth is not empty, and fewer than four
    fields are a malformed record. *)
Theorem C7_dual_layout line :
  line <> "" ->
  Text.join Text.comma (comma_fields line) = line
  /\ Forall (fun f => Text.free_of Text.comma f = true) (comma_fields line)
  /\ tokenize line = drop_last_empty (comma_fields line)
  /\ (forall a b c d e rest,
         drop_last_empty (comma_fields line) = a :: b :: c :: d :: e :: rest ->
         parse line = assemble line a b c d e)
  /\ (forall a b c d,
         drop_last_empty (comma_fields line) = [a; b; c; d] ->
         parse line = assemble line a a b c d)
  /\ ((length (drop_last_empty (comma_fields line)) < 4)%nat ->
      parse line = Throw (MalformedRecord line))
  /\ (forall a b c d e,
         comma_fields line = [a; b; c; d; e] -> e <> "" ->
         parse line = assemble line a b c d e)
  /\ (forall a b c d,
         comma_fields line = [a; b; c; d; ""] ->
         parse line = assemble line a a b c d)
  /\ (forall a b c d,
         comma_fields line = [a; b; c; d] -> d <> "" ->
         parse line = assemble line a a b c d)
  /\ ((length (comma_fields line) < 4)%nat ->
      parse line = Throw (MalformedRecord line)).
Proof.
  intros Hne. pose proof (tokenize_comma_fields line) as Ht.
  split; [apply comma_fields_join|]. split; [apply comma_fields_free|].
  split; [done|]. rewrite <- Ht.
  split; [intros a b c d e rest H; by eapply parse_long|].
  split; [intros a b c d H; by apply parse_legacy|].
  split; [intros H; by apply parse_short|].
  split; [|split; [|split]].
  - intros a b c d e Hf He. apply (parse_long line a b c d e []); [done|].
    rewrite Ht, Hf. by apply (drop_last_empty_kept _ e).
  - intros a b c d Hf. apply parse_legacy; [done|]. by rewrite Ht, Hf.
  - intros a b c d Hf Hd. apply parse_legacy; [done|].
    rewrite Ht, Hf. by apply (drop_last_empty_kept _ d).
  - intros Hlen. apply parse_short; [done|]. rewrite Ht.
    pose proof (drop_last_empty_length (comma_fields line)). lia.
Qed.

Lemma C7_dual_layout_witness :
  parse Sample.horizon_line = Ok (Some Sample.horizon)
  /\ parse Sample.legacy_line =
     Ok (Some (mkCarRecord "Civic" "Civic" "good" (Double.of_Z 2500) "Rented"))
  /\ parse "Civic,good,2500" = Throw (MalformedRecord "Civic,good,2500").
Proof.
  split; [|split].
  - destruct (C7_dual_layout Sample.horizon_line)
      as (_ & _ & _ & _ & _ & _ & H5 & _); [discriminate|].
    rewrite (H5 "car-001" "Horizon" "excellent" "2500" "Available" eq_refl);
      [|discriminate].
    vm_compute. reflexivity.
  - destruct (C7_dual_layout Sample.legacy_line)
      as (_ & _ & _ & _ & _ & _ & _ & _ & H4 & _); [discriminate|].
    rewrite (H4 "Civic" "good" "2500" "Rented" eq_refl); [|discriminate].
    vm_compute. reflexivity.
  - destruct (C7_dual_layout "Civic,good,2500")
      as (_ & _ & _ & _ & _ & _ & _ & _ & _ & H3); [discriminate|].
    apply H3. vm_compute. lia.
Defined.

(** C7 as stated fails on a line of five fields whose fifth field is
    empty: the line is read as four fields, the first one as id and as
    model, where the five fields in their order are no valid record. *)
Lemma C7_counterexample :
  comma_fields Sample.numbers_line = ["x"; "good"; "5"; "7"; ""]
  /\ parse Sample.numbers_line
     = Ok (Some (mkCarRecord "x" "x" "good" (Double.of_Z 5) "7"))
  /\ assemble Sample.numbers_line "x" "good" "5" "7" ""
     = Throw (ValidationFailed Sample.numbers_line).
Proof. repeat split; vm_compute; reflexivity. Qed.

(** On a line with a price position, [parse] is the assembly of a record
    around the text at this position. *)
Lemma parse_price line :
  line <> "" -> (4 <= length (tokenize line))%nat ->
  exists a b c s, parse line = assemble line a b c (price_field line) s.
Proof.
  intros Hne Hlen. unfold price_field.
  destruct (parse_cases line Hne)
    as [[Hs _]|[(a&b&c&d&Ht&H)|(a&b&c&d&f&rest&Ht&H)]]; [lia| |];
    rewrite Ht, H; unfold at_; simpl; eauto.
Qed.

(** C8 (as amended).  On a line with a price position, [parse] fails with
    the [std::invalid_argument] of [std::stod] exactly when the price text
    does not begin like a number; whatever [std::stod] throws is what
    [parse] throws; a price text that is a decimal number followed by text
    that cannot continue it is read as the number alone, and when the
    number is written in digits only, as the double nearest to it; and a
    record that [parse] returns carries the price read from the price text
    and satisfies the invariants. *)
Theorem C8_price_errors line :
  line <> "" -> (4 <= length (tokenize line))%nat ->
  (parse line = Throw (invalid_argument "stod")
   <-> starts_number (price_field line) = false)
  /\ (forall e, Double.stod (price_field line) = Throw e ->
                parse line = Throw e /\ InvalidNumber e)
  /\ (forall t rest,
         price_field line = t +:+ rest ->
         numeric_text t = true -> foreign rest = true ->
         Double.stod (price_field line) = Double.stod t)
  /\ (forall t rest,
         price_field line = t +:+ rest ->
         digits t = true -> foreign rest = true ->
         Double.stod (price_field line)
         = if Double.isfinite (Double.of_Z (digits_value t))
           then Ok (Double.of_Z (digits_value t))
           else Throw (out_of_range "stod"))
  /\ (forall r, parse line = Ok (Some r) ->
                Double.stod (price_field line) = Ok (pricePerDay r)
                /\ well_formed r).
Proof.
  intros Hne Hlen.
  destruct (parse_price line Hne Hlen) as (a & b & c & s & Hp).
  assert (forall e, Double.stod (price_field line) = Throw e ->
                    parse line = Throw e) as Hthrow.
  { intros e He. rewrite Hp. unfold assemble. by rewrite He. }
  split; [|split; [|split; [|split]]].
  - split; [|intros Hs; by apply Hthrow, stod_invalid_argument].
    intros Hi. destruct (starts_number (price_field line)) eqn:Hs; [|done].
    exfalso. apply stod_converts in Hs. rewrite Hp in Hi.
    unfold assemble in Hi.
    destruct (Double.stod (price_field line)) as [p|e]; [|congruence].
    by destruct (validate _).
  - intros e He. split; [by apply Hthrow | by eapply stod_error_kinds].
  - intros t rest -> Ht Hrest. by apply stod_ignores_rest.
  - intros t rest -> Ht Hrest.
    rewrite (stod_ignores_rest t rest (digits_numeric t Ht) Hrest).
    by apply stod_digits.
  - intros r Hr. split; [|by apply validate_well_formed, (parse_ok_valid line)].
    rewrite Hp in Hr. by apply assemble_ok in Hr as (? & _).
Qed.

Lemma C8_price_errors_witness :
  parse Sample.worded_price_line = Throw (invalid_argument "stod")
  /\ Double.stod (price_field Sample.suffixed_price_line) = Double.stod "2500"
  /\ Double.stod (price_field Sample.suffixed_price_line)
     = Ok (Double.of_Z 2500).
Proof.
  split; [|split].
  - destruct (C8_price_errors Sample.worded_price_line) as (H & _).
    + discriminate.
    + vm_compute. lia.
    + apply H. vm_compute. reflexivity.
  - destruct (C8_price_errors Sample.suffixed_price_line) as (_ & _ & H & _).
    + discriminate.
    + vm_compute. lia.
    + apply (H "2500" "abc"); vm_compute; reflexivity.
  - destruct (C8_price_errors Sample.suffixed_price_line)
      as (_ & _ & _ & H & _).
    + discriminate.
    + vm_compute. lia.
    + etransitivity; [apply (H "2500" "abc"); vm_compute; reflexivity|].
      vm_compute. reflexivity.
Defined.

(** C8 as stated fails: a price text that is not a number but begins with
    one is read up to the first foreign character. *)
Lemma C8_counterexample :
  price_field Sample.suffixed_price_line = "2500abc" /\
  numeric_text "2500abc" = false /\
  parse Sample.suffixed_price_line =
  Ok (Some (mkCarRecord "c1" "Civic" "good" (Double.of_Z 2500) "Available")).
Proof. repeat split; vm_compute; reflexivity. Qed.

(** An empty text at the status position is a status field: the record
    keeps it. *)
Lemma blank_status_kept :
  status_token Sample.blank_status_line = Some "" /\
  parse Sample.blank_status_line =
  Ok (Some (mkCarRecord "c1" "Civic" "good" (Double.of_Z 2500) "")).
Proof. split; vm_compute; reflexivity. Qed.

(** The default of the source is never reached: an accepted line has a
    token at the status position and the status is this token. *)
Lemma status_never_defaulted line r :
  parse line = Ok (Some r) ->
  (4 <= length (tokenize line))%nat /\ status_token line = Some (status r).
Proof.
  intros Hp. split; [|by apply parse_status].
  destruct (decide (line = "")) as [->|Hne]; [done|].
  destruct (parse_cases line Hne)
    as [[_ H]|[(a&b&c&d&Ht&_)|(a&b&c&d&f&rest&Ht&_)]];
    [congruence| |]; rewrite Ht; simpl; lia.
Qed.




(** C10.  A line of five comma-free fields whose last field is empty has
    four tokens and is read in the four-token layout: the first field is id
    and model, the second the condition, the third the price text and the
    fourth the status.  It is never read as the five fields it was written
    with. *)
Theorem C10_trailing_comma a b c d :
  Text.free_of Text.comma a = true -> Text.free_of Text.comma b = true ->
  Text.free_of Text.comma c = true -> Text.free_of Text.comma d = true ->
  tokenize (Text.join Text.comma [a; b; c; d; ""]) = [a; b; c; d]
  /\ parse (Text.join Text.comma [a; b; c; d; ""]) =
     assemble (Text.join Text.comma [a; b; c; d; ""]) a a b c d
  /\ (forall r, parse (Text.join Text.comma [a; b; c; d; ""]) = Ok (Some r) ->
                id r = a /\ model r = a /\ condition r = b /\
                Double.stod c = Ok (pricePerDay r) /\ status r = d)
  /\ (forall p s, parse (Text.join Text.comma [a; b; c; d; ""]) <>
                  Ok (Some (mkCarRecord a b c p s))).
Proof.
  intros Ha Hb Hc Hd.
  pose proof (tokenize_trailing a b c d Ha Hb Hc Hd) as Ht.
  assert (parse (Text.join Text.comma [a; b; c; d; ""]) =
          assemble (Text.join Text.comma [a; b; c; d; ""]) a a b c d) as Hp.
  { apply parse_legacy; [|done]. simpl. apply append_delim_nonempty. }
  split; [done|]. split; [done|]. split.
  - intros r Hr. rewrite Hp in Hr.
    apply assemble_ok in Hr as (Hs & _ & ->). done.
  - intros p s Hr. rewrite Hp in Hr.
    apply assemble_ok in Hr as (Hs & Hv & Heq). simpl in *.
    injection Heq as <- <- <-.
    apply validate_well_formed in Hv as (_ & _ & Hin & _). simpl in Hin.
    apply allowed_not_numeric in Hin. congruence.
Qed.

Lemma C10_trailing_comma_witness :
  tokenize Sample.trailing_comma_line = ["car-001"; "Horizon"; "excellent"; "2500"]
  /\ parse Sample.trailing_comma_line = Throw (invalid_argument "stod").
Proof.
  destruct (C10_trailing_comma "car-001" "Horizon" "excellent" "2500")
    as (Ht & Hp & _); try reflexivity.
  split; [exact Ht|]. etransitivity; [exact Hp|]. vm_compute. reflexivity.
Defined.
End ParserClaims.

(** ** The transactional writer *)

Section WriterFacts.
Import TransactionalFileWriter.

Lemma length_append a b :
  String.length (a +:+ b) = (String.length a + String.length b)%nat.
Proof. induction a as [|c a IH]; simpl; [done | by rewrite IH]. Qed.

Lemma tmpPath_fresh target : tmpPath target <> target.
Proof.
  intros H. apply (f_equal String.length) in H.
  unfold tmpPath in H. rewrite length_append in H. simpl in H. lia.
Qed.

Lemma run_app a b (f : gmap string string) : run (a ++ b) f = run b (run a f).
Proof. apply fold_left_app. Qed.

(** The steps that write the temporary file touch no other path. *)
Lemma run_confined tmp sts (f : gmap string string) p :
  Forall (confined tmp) sts -> p <> tmp -> run sts f !! p = f !! p.
Proof.
  intros Hs Hp. revert f.
  induction Hs as [|st sts Hst _ IH]; intros f; [done|].
  unfold run in *. simpl. rewrite IH.
  destruct st; simpl in *; subst; try done; by rewrite lookup_insert_ne.
Qed.

Lemma steps_split target lines :
  steps target lines =
  preparation target lines
    ++ [RemoveIfExists target; Rename (tmpPath target) target].
Proof. unfold steps, preparation. simpl. by rewrite <- app_assoc. Qed.

Lemma preparation_length target lines :
  length (preparation target lines) = (length lines + 2)%nat.
Proof.
  unfold preparation. simpl.
  rewrite length_app, length_map. simpl. lia.
Qed.

Lemma preparation_confined target lines :
  Forall (confined (tmpPath target)) (preparation target lines).
Proof.
  unfold preparation. constructor; [done|].
  apply Forall_app. split; [|by repeat constructor].
  apply Forall_map. by apply Forall_true.
Qed.

Lemma write_lines tmp lines (f : gmap string string) acc :
  f !! tmp = Some acc ->
  run (map (WriteLine tmp) lines) f !! tmp =
  Some (fold_left (fun acc line => acc +:+ line +:+ String Text.newline EmptyString)
          lines acc).
Proof.
  revert f acc. induction lines as [|line lines IH]; intros f acc Hf; [done|].
  unfold run in *. simpl. erewrite IH; [done|].
  by rewrite Hf, lookup_insert_eq.
Qed.

(** Once the temporary file is closed it holds the complete new text. *)
Lemma preparation_tmp target lines (f : gmap string string) :
  run (preparation target lines) f !! tmpPath target = Some (text_of lines).
Proof.
  unfold preparation.
  change (OpenTruncate ?p :: ?l) with ([OpenTruncate p] ++ l).
  rewrite !run_app. unfold run at 1. simpl.
  erewrite write_lines; [done|]. unfold run. simpl. by rewrite lookup_insert_eq.
Qed.

(** Up to the closing of the temporary file the target is untouched. *)
Lemma target_intact_until_closed k target lines (f : gmap string string) :
  (k <= length lines + 2)%nat ->
  interrupted k target lines f !! target = f !! target.
Proof.
  intros Hk. unfold interrupted. rewrite steps_split.
  rewrite take_app_le by (rewrite preparation_length; lia).
  apply run_confined with (tmp := tmpPath target).
  - apply Forall_take, preparation_confined.
  - intros H. by apply (tmpPath_fresh target).
Qed.

(** Between the removal and the renaming there is no target; the new text
    waits in the temporary file. *)
Lemma target_absent_before_rename target lines (f : gmap string string) :
  interrupted (length lines + 3) target lines f !! target = None
  /\ interrupted (length lines + 3) target lines f !! tmpPath target
     = Some (text_of lines).
Proof.
  unfold interrupted. rewrite steps_split.
  replace (length lines + 3)%nat
    with (length (preparation target lines) + 1)%nat
    by (rewrite preparation_length; lia).
  rewrite take_app_add. simpl. rewrite run_app.
  pose proof (preparation_tmp target lines f) as Htmp.
  set (g := run (preparation target lines) f) in *.
  unfold run. simpl. split.
  - apply lookup_delete_eq.
  - by rewrite lookup_delete_ne by (intros H; by apply (tmpPath_fresh target)).
Qed.

(** A completed [write] leaves the new text under the target. *)
Lemma target_replaced k target lines (f : gmap string string) :
  (length lines + 4 <= k)%nat ->
  interrupted k target lines f !! target = Some (text_of lines).
Proof.
  intros Hk. unfold interrupted.
  rewrite take_ge.
  - rewrite steps_split, run_app.
    pose proof (preparation_tmp target lines f) as Htmp.
    set (g := run (preparation target lines) f) in *.
    unfold run. simpl.
    rewrite lookup_delete_ne by (intros H; by apply (tmpPath_fresh target)).
    rewrite Htmp. apply lookup_insert_eq.
  - rewrite steps_split, length_app, preparation_length. simpl. lia.
Qed.

(** At every point of interruption the target holds its previous text,
    or the complete new text, or does not exist: never a part of a text. *)
Lemma target_never_partial k target lines (f : gmap string string) :
  interrupted k target lines f !! target = f !! target
  \/ interrupted k target lines f !! target = None
  \/ interrupted k target lines f !! target = Some (text_of lines).
Proof.
  destruct (decide (k <= length lines + 2)%nat) as [Hk|Hk].
  { left. by apply target_intact_until_closed. }
  destruct (decide (k = length lines + 3)%nat) as [->|Hk'].
  { right; left. apply target_absent_before_rename. }
  right; right. apply target_replaced. lia.
Qed.

(** C2.  The process stops after the removal of the target and before the
    renaming: the previous text of the target is gone, the target does not
    exist, and the new text is only in the temporary file. *)
Lemma C2_target_lost_before_rename :
  Sample.old_disk !! "cars.txt" = Some ("old" +:+ String Text.newline EmptyString)
  /\ interrupted 4 "cars.txt" ["new"] Sample.old_disk !! "cars.txt" = None
  /\ interrupted 4 "cars.txt" ["new"] Sample.old_disk !! "cars.txt.tmp"
     = Some ("new" +:+ String Text.newline EmptyString)
  /\ interrupted 5 "cars.txt" ["new"] Sample.old_disk !! "cars.txt"
     = Some ("new" +:+ String Text.newline EmptyString).
Proof. repeat split; vm_compute; reflexivity. Qed.
End WriterFacts.

(** ** The repository *)

Section RepositoryFacts.
Import CarRepository Spec.

Lemma lookup_store (m : gmap string CarRecord) r i :
  store m r !! i = if bool_decide (id r = i) then Some r else m !! i.
Proof.
  unfold store. case_bool_decide as H.
  - subst. apply lookup_insert_eq.
  - by apply lookup_insert_ne.
Qed.

(** After a run of stores an id maps to the last record stored under it. *)
Lemma lookup_fold_store l (m : gmap string CarRecord) i :
  fold_left store l m !! i =
  match last_written i l with
  | Some r => Some r
  | None => m !! i
  end.
Proof.
  revert m. induction l as [|r l IH]; intros m; [done|].
  simpl. rewrite IH. destruct (last_written i l); [done|].
  rewrite lookup_store. by case_bool_decide.
Qed.

Lemma last_written_none i l :
  last_written i l = None <-> Forall (fun r => id r <> i) l.
Proof.
  induction l as [|r l IH]; simpl; [by split; [constructor|]|].
  destruct (last_written i l) as [r'|].
  - split; [done|]. intros H. apply Forall_cons in H as [_ H].
    apply IH in H. done.
  - case_bool_decide as Hid.
    + split; [done|]. intros H. by apply Forall_cons in H as [? _].
    + split; [|done]. intros _. constructor; [done|]. by apply IH.
Qed.

(** [last_written] picks the occurrence after which the id is not written
    again. *)
Lemma last_written_some i l r :
  last_written i l = Some r <->
  exists l1 l2, l = l1 ++ r :: l2 /\ id r = i /\ Forall (fun x => id x <> i) l2.
Proof.
  revert r. induction l as [|x l IH]; intros r; simpl.
  { split; [done|]. intros (l1 & l2 & H & _). by destruct l1. }
  destruct (last_written i l) as [r'|] eqn:Hl.
  - split.
    + intros [= <-]. destruct (proj1 (IH r') eq_refl) as (l1 & l2 & -> & Hid & Hf).
      exists (x :: l1), l2. done.
    + intros (l1 & l2 & Heq & Hid & Hf). destruct l1 as [|y l1]; simpl in Heq.
      * injection Heq as -> ->. apply last_written_none in Hf. congruence.
      * injection Heq as -> ->. f_equal. symmetry.
        assert (Some r' = Some r) as [= ->]; [|done].
        apply IH. eauto.
  - apply last_written_none in Hl. case_bool_decide as Hid.
    + split.
      * intros [= <-]. exists [], l. done.
      * intros (l1 & l2 & Heq & Hid' & Hf). destruct l1 as [|y l1]; simpl in Heq.
        -- by injection Heq as -> ->.
        -- injection Heq as -> ->. apply Forall_app in Hl as [_ Hl].
           apply Forall_cons in Hl as [? _]. done.
    + split; [done|].
      intros (l1 & l2 & Heq & Hid' & Hf). destruct l1 as [|y l1]; simpl in Heq.
      * injection Heq as -> ->. done.
      * injection Heq as -> ->. apply Forall_app in Hl as [_ Hl].
        apply Forall_cons in Hl as [? _]. done.
Qed.

Lemma records_bulkUpsert rs r :
  records_ (bulkUpsert rs r) = fold_left store rs (records_ r).
Proof. done. Qed.

Lemma records_calls cs r :
  records_ (calls cs r) = fold_left store (written cs) (records_ r).
Proof.
  revert r. induction cs as [|c cs IH]; intros r; [done|].
  unfold calls in *. simpl. rewrite IH. unfold written. simpl.
  rewrite fold_left_app. by destruct c.
Qed.

Lemma keys_are_ids_store m r : keys_are_ids m -> keys_are_ids (store m r).
Proof.
  intros Hm k x. rewrite lookup_store. case_bool_decide; [|apply Hm].
  by intros [= <-].
Qed.

Lemma keys_are_ids_fold l m :
  keys_are_ids m -> keys_are_ids (fold_left store l m).
Proof.
  revert m. induction l as [|r l IH]; intros m Hm; [done|].
  simpl. by apply IH, keys_are_ids_store.
Qed.

Lemma keys_are_ids_reload w :
  keys_are_ids (records_ (repository (snd (reload w)))).
Proof.
  unfold reload. destruct (Backend.loadCars w); simpl.
  - apply keys_are_ids_fold, map_Forall_empty.
  - apply map_Forall_empty.
Qed.

Lemma all_permutation r : all r ≡ₚ (map_to_list (records_ r)).*2.
Proof. unfold all, sort_by_id. apply merge_sort_Permutation. Qed.

Lemma id_le_total : Total id_le.
Proof. intros x y. apply String.leb_total. Qed.

Lemma all_sorted r : Sorted id_le (all r).
Proof. unfold all, sort_by_id. apply Sorted_merge_sort, id_le_total. Qed.

(** No id occurs twice in the snapshot of a repository that files every
    record under its id. *)
Lemma all_NoDup r : keys_are_ids (records_ r) -> NoDup (id <$> all r).
Proof.
  intros Hk. rewrite all_permutation.
  assert (id <$> (map_to_list (records_ r)).*2 = (map_to_list (records_ r)).*1)
    as ->; [|apply NoDup_fst_map_to_list].
  rewrite <- list_fmap_compose. apply Forall_fmap_ext, Forall_forall.
  intros [k x] Hin%elem_of_map_to_list. simpl. by apply Hk in Hin.
Qed.

Lemma find_calls i cs r :
  find i (calls cs r) =
  match last_written i (written cs) with
  | Some x => Some x
  | None => find i r
  end.
Proof. unfold find. rewrite records_calls. apply lookup_fold_store. Qed.

(** What [reload] leaves under an id: the last loaded record with it. *)
Lemma find_reload i w loaded :
  Backend.loadCars w = Ok loaded ->
  find i (repository (snd (reload w))) = last_written i loaded.
Proof.
  intros Hl. unfold reload, find. rewrite Hl. simpl.
  rewrite lookup_fold_store. by destruct (last_written i loaded).
Qed.

(** C5.  After any sequence of [upsert] and [bulkUpsert] calls [find]
    returns the last record written with the id, and what the repository
    held before when none was written; and a repository that was loaded by
    [reload] and then only written by such calls never shows an id twice in
    its snapshot. *)
Theorem C5_last_write_wins (w : World) (r : CarRepository)
    (cs : list write_call) (i : string) :
  find i (calls cs r) =
    match last_written i (written cs) with
    | Some x => Some x
    | None => find i r
    end
  /\ NoDup (id <$> all (calls cs (repository (snd (reload w))))).
Proof.
  split; [apply find_calls|].
  apply all_NoDup. rewrite records_calls.
  apply keys_are_ids_fold, keys_are_ids_reload.
Qed.

(** *** Flushing *)

Lemma serialize_all_valid rs :
  Forall (fun r => CarRecordValidator.validate r = true) rs ->
  exists lines, CarFilePipeline.serialize_all rs = Ok lines.
Proof.
  induction 1 as [|r rs Hr _ [lines IH]]; simpl; [by eexists|].
  rewrite (serialize_valid r Hr), IH. by eexists.
Qed.

Lemma all_valid r :
  cache_valid (records_ r) ->
  Forall (fun x => CarRecordValidator.validate x = true) (all r).
Proof.
  intros Hv. rewrite all_permutation. apply Forall_forall.
  intros x Hin. apply list_elem_of_fmap in Hin as ([k y] & -> & Hin).
  apply elem_of_map_to_list in Hin. by apply Hv in Hin.
Qed.

(** [persistCars] is logged, and touches neither cache nor dirty flag. *)
Lemma persistCars_effect rs w :
  persist_calls (snd (Backend.persistCars rs w)) = persist_calls w ++ [rs]
  /\ records_ (repository (snd (Backend.persistCars rs w))) = records_ (repository w)
  /\ dirty_ (repository (snd (Backend.persistCars rs w))) = dirty_ (repository w).
Proof.
  unfold Backend.persistCars. destruct (backend_ (repository w)); [|done].
  by destruct (CarFilePipeline.writeAll _ _ _).
Qed.

(** Where no call of [persistCars] can throw, this one does not, and none
    can afterwards. *)
Lemma persistCars_safe w :
  persist_safe w ->
  fst (Backend.persistCars (all (repository w)) w) = Ok tt
  /\ persist_safe (snd (Backend.persistCars (all (repository w)) w)).
Proof.
  unfold persist_safe, Backend.persistCars.
  destruct (backend_ (repository w)) as [path|rs] eqn:Hb; [|done].
  intros [Hlock Hvalid].
  destruct (serialize_all_valid _ (all_valid _ Hvalid)) as [lines Hl].
  unfold CarFilePipeline.writeAll, TransactionalFileWriter.write.
  rewrite Hl. rewrite bool_decide_eq_false_2 by done. simpl.
  by rewrite Hb.
Qed.

Lemma flush_clean w : dirty_ (repository w) = false -> flush w = (Ok tt, w).
Proof. intros H. unfold flush. by rewrite H. Qed.

Lemma flush_dirty w :
  dirty_ (repository w) = true ->
  persist_calls (snd (flush w)) = persist_calls w ++ [all (repository w)]
  /\ records_ (repository (snd (flush w))) = records_ (repository w)
  /\ (fst (flush w) = Ok tt -> dirty_ (repository (snd (flush w))) = false)
  /\ (forall e, fst (flush w) = Throw e ->
                dirty_ (repository (snd (flush w))) = true).
Proof.
  intros H. unfold flush. rewrite H. simpl.
  destruct (persistCars_effect (all (repository w)) w) as (Hc & Hr & Hd).
  destruct (Backend.persistCars (all (repository w)) w) as [[[]|e] w'];
    simpl in *; repeat split; try done; congruence.
Qed.

Lemma flush_safe w :
  persist_safe w -> fst (flush w) = Ok tt /\ persist_safe (snd (flush w)).
Proof.
  intros Hs. unfold flush. destruct (dirty_ (repository w)); [|done]. simpl.
  destruct (persistCars_safe w Hs) as [Hok Hs'].
  destruct (Backend.persistCars (all (repository w)) w) as [[[]|e] w'];
    simpl in *; [|done]. split; [done|].
  unfold persist_safe in *. simpl. by destruct (backend_ (repository w')).
Qed.

(** C6 (as amended).  Without unsaved changes [flush] does nothing.  With
    unsaved changes it calls [persistCars] once, with the snapshot [all()],
    which is sorted by id and holds every cached record; the cache stays as
    it is; the dirty flag is cleared when the call returns and stays set
    when the call throws.  After a [flush] that returned, a second one does
    nothing, so the two make at most one call; and where no call can throw
    [flush] returns. *)
Theorem C6_flush (w : World) :
  (dirty_ (repository w) = false -> flush w = (Ok tt, w))
  /\ (dirty_ (repository w) = true ->
      persist_calls (snd (flush w)) = persist_calls w ++ [all (repository w)]
      /\ Sorted id_le (all (repository w))
      /\ all (repository w) ≡ₚ (map_to_list (records_ (repository w))).*2
      /\ records_ (repository (snd (flush w))) = records_ (repository w)
      /\ (fst (flush w) = Ok tt -> dirty_ (repository (snd (flush w))) = false)
      /\ (forall e, fst (flush w) = Throw e ->
                    dirty_ (repository (snd (flush w))) = true))
  /\ (fst (flush w) = Ok tt ->
      flush (snd (flush w)) = (Ok tt, snd (flush w))
      /\ (length (persist_calls (snd (flush (snd (flush w)))))
          <= length (persist_calls w) + 1)%nat)
  /\ (persist_safe w -> fst (flush w) = Ok tt).
Proof.
  split; [apply flush_clean|]. split; [|split].
  - intros Hd. destruct (flush_dirty w Hd) as (Hc & Hr & Hok & Hthrow).
    repeat split; try done; [apply all_sorted | apply all_permutation].
  - intros Hok.
    assert (dirty_ (repository (snd (flush w))) = false) as Hclean.
    { destruct (dirty_ (repository w)) eqn:Hd.
      - by apply (flush_dirty w Hd).
      - by rewrite (flush_clean w Hd). }
    rewrite (flush_clean _ Hclean). split; [done|]. simpl.
    destruct (dirty_ (repository w)) eqn:Hd.
    + destruct (flush_dirty w Hd) as (-> & _). rewrite length_app. simpl. lia.
    + rewrite (flush_clean w Hd). simpl. lia.
  - intros Hs. by apply flush_safe.
Qed.

Lemma C6_flush_witness :
  persist_calls (snd (flush Sample.pending)) = [[Sample.horizon]]
  /\ dirty_ (repository (snd (flush Sample.pending))) = false
  /\ flush (snd (flush Sample.pending)) = (Ok tt, snd (flush Sample.pending)).
Proof.
  destruct (C6_flush Sample.pending) as (_ & Hdirty & Htwice & Hsafe).
  destruct Hdirty as (Hcalls & _ & _ & _ & Hclear & _); [reflexivity|].
  assert (fst (flush Sample.pending) = Ok tt) as Hok.
  { apply Hsafe. exact I. }
  split; [|split].
  - etransitivity; [exact Hcalls|]. vm_compute. reflexivity.
  - exact (Hclear Hok).
  - exact (proj1 (Htwice Hok)).
Defined.

(** C6 as stated fails where [persistCars] throws: the file backend cannot
    serialize the cached record, the dirty flag stays set, and the second
    [flush] calls [persistCars] again. *)
Lemma C6_counterexample :
  dirty_ (repository Sample.tainted) = true
  /\ fst (flush Sample.tainted)
     = Throw (runtime_error "Attempted to serialize invalid record: x")
  /\ dirty_ (repository (snd (flush Sample.tainted))) = true
  /\ persist_calls (snd (flush (snd (flush Sample.tainted))))
     = [[Sample.broken]; [Sample.broken]].
Proof. repeat split; vm_compute; reflexivity. Qed.
End RepositoryFacts.

(** ** Streaming *)

Section StreamFacts.
Import CarFilePipeline CarRecordParser Spec.

Lemma on_line_parsed {S : Type} (consumer : CarRecord -> S -> result unit * S)
    lines s :
  fold_left (on_line consumer) lines s =
  fold_left (deliver consumer) (parsed lines) s.
Proof.
  revert s. induction lines as [|line lines IH]; intros s; [done|].
  simpl. unfold on_line at 2. destruct (parse line) as [[r|]|e]; [|done|done].
  simpl. rewrite IH. unfold deliver at 3.
  by destruct (consumer r s) as [[|] s'].
Qed.

Lemma stream_delivers {S : Type} (consumer : CarRecord -> S -> result unit * S)
    disk path s :
  readable disk path ->
  stream consumer disk path s =
  (Ok tt, fold_left (deliver consumer) (parsed (source_lines disk path)) s).
Proof.
  intros Hr. unfold stream, source_lines.
  destruct (files disk !! path) as [content|]; [|done].
  rewrite bool_decide_eq_false_2 by done. by rewrite on_line_parsed.
Qed.

Lemma stream_missing {S : Type} (consumer : CarRecord -> S -> result unit * S)
    disk path s :
  files disk !! path = None ->
  stream consumer disk path s =
  (Ok tt, fold_left (deliver consumer) (parsed (source_lines disk path)) s).
Proof. intros Hf. unfold stream, source_lines. by rewrite Hf. Qed.

Lemma stream_unreadable {S : Type} (consumer : CarRecord -> S -> result unit * S)
    disk path content s :
  files disk !! path = Some content -> path ∈ locked disk ->
  stream consumer disk path s =
  (Throw (runtime_error ("Unable to open " +:+ path)), s).
Proof.
  intros Hf Hl. unfold stream. rewrite Hf. by rewrite bool_decide_eq_true_2.
Qed.

Lemma collect_all (rs acc : list CarRecord) :
  fold_left (deliver (fun record records => (Ok tt, records ++ [record]))) rs acc
  = acc ++ rs.
Proof.
  revert acc. induction rs as [|r rs IH]; intros acc; simpl.
  - by rewrite app_nil_r.
  - unfold deliver at 2. simpl. rewrite IH. by rewrite <- app_assoc.
Qed.

Lemma readAll_parsed disk path :
  readable disk path -> readAll disk path = Ok (parsed (source_lines disk path)).
Proof.
  intros Hr. unfold readAll. rewrite stream_delivers by done.
  by rewrite collect_all.
Qed.

Lemma parsed_app l1 l2 : parsed (l1 ++ l2) = parsed l1 ++ parsed l2.
Proof.
  induction l1 as [|line l1 IH]; [done|]. simpl.
  destruct (parse line) as [[r|]|e]; simpl; by rewrite IH.
Qed.

(** A line that fails to parse, and an empty line, contribute nothing. *)
Lemma parsed_skip l1 line l2 :
  (forall r, parse line <> Ok (Some r)) ->
  parsed (l1 ++ line :: l2) = parsed (l1 ++ l2).
Proof.
  intros Hbad. rewrite !parsed_app. f_equal. simpl.
  destruct (parse line) as [[r|]|e]; [|done|done]. by destruct (Hbad r).
Qed.

(** There are as many records as lines that parse. *)
Lemma parsed_length lines :
  length (parsed lines) = length (List.filter parses lines).
Proof.
  induction lines as [|line lines IH]; [done|]. simpl. unfold parses at 1.
  destruct (parse line) as [[r|]|e]; simpl; by rewrite ?IH.
Qed.

Lemma parsed_valid lines :
  Forall (fun r => CarRecordValidator.validate r = true) (parsed lines).
Proof.
  induction lines as [|line lines IH]; simpl; [constructor|].
  destruct (parse line) as [[r|]|e] eqn:Hp; try done.
  constructor; [by apply (parse_ok_valid line)|done].
Qed.
End StreamFacts.

(** ** Batch ingestion *)

Section IngestFacts.
Import BatchProcessor CarFilePipeline Spec.

Lemma incr_small n : (n + 1 < 2 ^ 64)%N -> incr n = (n + 1)%N.
Proof. intros H. unfold incr. by apply N.mod_small. Qed.

Lemma cache_valid_fold rs (m : gmap string CarRecord) :
  cache_valid m ->
  Forall (fun r => CarRecordValidator.validate r = true) rs ->
  cache_valid (fold_left CarRepository.store rs m).
Proof.
  intros Hm Hrs. revert m Hm.
  induction Hrs as [|r rs Hr _ IH]; intros m Hm; [done|].
  simpl. apply IH. intros k x. rewrite lookup_store.
  case_bool_decide; [by intros [= <-] | apply Hm].
Qed.

(** Where no call of [persistCars] can throw, a chunk is always taken. *)
Lemma commit_safe rs w :
  persist_safe w ->
  Forall (fun r => CarRecordValidator.validate r = true) rs ->
  fst (commit rs w) = Ok tt /\ persist_safe (snd (commit rs w)).
Proof.
  intros Hs Hrs. unfold commit. apply flush_safe.
  unfold persist_safe in *. simpl.
  destruct (backend_ (repository w)); [|done].
  destruct Hs as [Hl Hv]. split; [done|]. by apply cache_valid_fold.
Qed.

(** *** The count of records *)

Lemma consumer_processed chunkSize r st :
  processedRecords (metrics (snd (consumer chunkSize r st)))
  = incr (processedRecords (metrics st)).
Proof.
  unfold consumer. destruct (_ <=? _)%N; [|done].
  by destruct (commit _ _) as [[|] w'].
Qed.

Lemma processed_fold chunkSize rs st :
  (processedRecords (metrics st) + N.of_nat (length rs) < 2 ^ 64)%N ->
  processedRecords (metrics (fold_left (deliver (consumer chunkSize)) rs st))
  = (processedRecords (metrics st) + N.of_nat (length rs))%N.
Proof.
  revert st. induction rs as [|r rs IH]; intros st Hb; simpl.
  - by rewrite N.add_0_r.
  - simpl length in Hb.
    assert (processedRecords (metrics (deliver (consumer chunkSize) st r))
            = (processedRecords (metrics st) + 1)%N) as Hstep.
    { unfold deliver. rewrite consumer_processed. apply incr_small. lia. }
    rewrite IH; rewrite Hstep; lia.
Qed.

Lemma streamed_processed path chunkSize w :
  (valid_count (disk w) path < 2 ^ 64)%N ->
  processedRecords (metrics (streamed path chunkSize w)) = valid_count (disk w) path.
Proof. intros Hb. unfold streamed. by rewrite processed_fold. Qed.

(** *** The capacity of the buffer *)

Lemma reserve_ok n : (n <= max_size)%N -> reserve n = Ok tt.
Proof. intros H. unfold reserve. apply N.ltb_ge in H. by rewrite H. Qed.

Lemma reserve_throws n :
  (max_size < n)%N -> reserve n = Throw (length_error "vector::reserve").
Proof. intros H. unfold reserve. apply N.ltb_lt in H. by rewrite H. Qed.

(** A chunk size that no vector can hold is refused before the source is
    opened. *)
Lemma ingest_oversized path chunkSize w :
  (max_size < chunkSize)%N ->
  ingest path chunkSize w = (Throw (length_error "vector::reserve"), w).
Proof.
  intros H. unfold ingest. rewrite (reserve_throws _ H).
  assert ((chunkSize =? 0)%N = false) as ->; [|done].
  apply N.eqb_neq. unfold max_size in H. lia.
Qed.

Lemma ingest_cases path chunkSize w :
  chunkSize <> 0%N ->
  ingest path chunkSize w = finish (streamed path chunkSize w)
  \/ exists e, ingest path chunkSize w = (Throw e, w).
Proof.
  intros HC. unfold ingest. apply N.eqb_neq in HC. rewrite HC.
  destruct (reserve chunkSize); [|right; by eexists].
  destruct (files (disk w) !! path) as [content|] eqn:Hf.
  - destruct (decide (path ∈ locked (disk w))) as [Hl|Hl].
    + right. erewrite stream_unreadable by done. by eexists.
    + left. by rewrite stream_delivers.
  - left. by rewrite stream_missing.
Qed.

Lemma ingest_readable path chunkSize w :
  chunkSize <> 0%N -> (chunkSize <= max_size)%N -> readable (disk w) path ->
  ingest path chunkSize w = finish (streamed path chunkSize w).
Proof.
  intros HC Hmax Hr. unfold ingest. apply N.eqb_neq in HC.
  rewrite HC, (reserve_ok _ Hmax). by rewrite stream_delivers.
Qed.

(** Whenever [ingest] returns, it has counted the records that parse. *)
Lemma ingest_processed path chunkSize w m w' :
  (valid_count (disk w) path < 2 ^ 64)%N ->
  ingest path chunkSize w = (Ok m, w') ->
  processedRecords m = valid_count (disk w) path.
Proof.
  intros Hb Hi.
  destruct (decide (chunkSize = 0%N)) as [->|HC]; [done|].
  destruct (ingest_cases path chunkSize w HC) as [H|[e H]];
    rewrite H in Hi; [|done].
  rewrite <- (streamed_processed path chunkSize w Hb).
  unfold finish in Hi. destruct (buffer _); [by injection Hi as <- _|].
  destruct (commit _ _) as [[|] w'']; [|done]. by injection Hi as <- _.
Qed.

(** *** The count of chunks *)

Lemma chunked_step c k st r :
  c <> 0%N -> (k + 1 < 2 ^ 64)%N ->
  CarRecordValidator.validate r = true ->
  chunked c k st -> chunked c (k + 1) (deliver (consumer c) st r).
Proof.
  intros Hc Hk Hr [Hsafe Hvalid Hbuf Hbat Hproc].
  pose proof (N.div_mod k c Hc) as Hdm.
  pose proof (N.mod_lt k c Hc) as Hlt.
  assert (Forall (fun r => CarRecordValidator.validate r = true)
            (buffer st ++ [r])) as Hvalid1.
  { apply Forall_app. split; [done | by constructor]. }
  assert (N.of_nat (length (buffer st ++ [r])) = (k mod c + 1)%N) as Hlen.
  { rewrite length_app. simpl. lia. }
  unfold deliver, consumer. rewrite Hlen.
  destruct (c <=? k mod c + 1)%N eqn:Hfull.
  - apply N.leb_le in Hfull.
    destruct (commit_safe (buffer st ++ [r]) (world st) Hsafe Hvalid1)
      as [Hok Hsafe'].
    destruct (commit _ _) as [[[]|e] w']; simpl in *; [|done].
    assert (k + 1 = c * (k / c + 1) + 0)%N as Heq by lia.
    split; simpl.
    + done.
    + constructor.
    + apply (N.mod_unique _ _ (k / c + 1)); [lia|done].
    + rewrite Hbat, incr_small.
      * apply (N.div_unique _ _ _ 0); [lia|done].
      * pose proof (N.Div0.div_le_upper_bound k c k) as Hle.
        assert (k / c <= k)%N; [|lia].
        apply N.Div0.div_le_upper_bound. nia.
    + rewrite Hproc. by apply incr_small.
  - apply N.leb_gt in Hfull.
    assert (k + 1 = c * (k / c) + (k mod c + 1))%N as Heq by lia.
    split; simpl.
    + done.
    + done.
    + rewrite Hlen. apply (N.mod_unique _ _ (k / c)); [lia|done].
    + rewrite Hbat. apply (N.div_unique _ _ _ (k mod c + 1)); [lia|done].
    + rewrite Hproc. by apply incr_small.
Qed.

Lemma chunked_fold c rs k st :
  c <> 0%N -> (k + N.of_nat (length rs) < 2 ^ 64)%N ->
  Forall (fun r => CarRecordValidator.validate r = true) rs ->
  chunked c k st ->
  chunked c (k + N.of_nat (length rs)) (fold_left (deliver (consumer c)) rs st).
Proof.
  intros Hc Hk Hrs. revert k st Hk.
  induction Hrs as [|r rs Hr _ IH]; intros k st Hk Hst; simpl.
  - by rewrite N.add_0_r.
  - simpl length in Hk.
    replace (k + N.of_nat (S (length rs)))%N
      with ((k + 1) + N.of_nat (length rs))%N by lia.
    apply IH; [lia|]. apply chunked_step; [done|lia|done|done].
Qed.

Lemma chunked_streamed path c w :
  c <> 0%N -> persist_safe w -> (valid_count (disk w) path < 2 ^ 64)%N ->
  chunked c (valid_count (disk w) path) (streamed path c w).
Proof.
  intros Hc Hs Hb. unfold streamed, valid_count.
  apply (chunked_fold c _ 0%N); [done|done|apply parsed_valid|].
  by split.
Qed.

Lemma ceil_div_exact n c :
  c <> 0%N -> (n mod c = 0)%N -> ceil_div n c = (n / c)%N.
Proof.
  intros Hc Hm. pose proof (N.div_mod n c Hc) as Hdm. unfold ceil_div.
  rewrite Hm in Hdm. symmetry.
  apply (N.div_unique _ _ _ (c - 1)); [lia|].
  generalize dependent (n / c)%N. intros q Hdm. nia.
Qed.

Lemma ceil_div_rest n c :
  c <> 0%N -> (n mod c <> 0)%N -> ceil_div n c = (n / c + 1)%N.
Proof.
  intros Hc Hm. pose proof (N.div_mod n c Hc) as Hdm.
  pose proof (N.mod_lt n c Hc) as Hlt. unfold ceil_div. symmetry.
  apply (N.div_unique _ _ _ (n mod c - 1)); [lia|].
  generalize dependent (n mod c)%N. generalize dependent (n / c)%N.
  intros q r Hm Hdm Hlt. nia.
Qed.

Lemma ingest_accounting path c w :
  c <> 0%N -> (c <= max_size)%N -> readable (disk w) path -> persist_safe w ->
  (valid_count (disk w) path < 2 ^ 64)%N ->
  fst (ingest path c w)
  = Ok (mkBatchMetrics (valid_count (disk w) path)
          (ceil_div (valid_count (disk w) path) c)).
Proof.
  intros Hc Hmax Hr Hs Hb. rewrite ingest_readable by done.
  destruct (chunked_streamed path c w Hc Hs Hb)
    as [Hsafe Hvalid Hbuf Hbat Hproc].
  set (n := valid_count (disk w) path) in *.
  unfold finish. destruct (streamed path c w) as [wf buf [p b]]. simpl in *.
  subst p b. destruct buf as [|r buf].
  - simpl in *. by rewrite ceil_div_exact.
  - destruct (commit_safe (r :: buf) wf Hsafe Hvalid) as [Hok _].
    destruct (commit _ _) as [[[]|e] w']; simpl in *; [|done].
    f_equal. f_equal.
    assert (n mod c <> 0)%N as Hm by lia.
    rewrite ceil_div_rest, incr_small; [done| |done|done].
    pose proof (N.div_mod n c Hc) as Hdm.
    assert (n / c < n)%N; [|lia].
    pose proof (N.mod_lt n c Hc).
    destruct (decide (c = 1%N)) as [->|]; [rewrite N.mod_1_r in Hm; done|].
    nia.
Qed.
End IngestFacts.

Section IngestClaims.
Import BatchProcessor CarFilePipeline Spec.

Lemma sample_readable content : readable (Sample.source_disk content) "in.csv".
Proof. unfold readable. simpl. apply not_elem_of_empty. Qed.

(** C3 (as amended).  A chunk size of zero is refused with
    [std::invalid_argument], and a chunk size above the largest size of a
    vector of records with the [std::length_error] of [buffer.reserve];
    in both cases nothing is touched.  With a chunk size in between, a
    source that can be opened and a repository whose flushes cannot throw,
    [ingest] returns the number [n] of records that parse and
    [ceil (n / chunkSize)] chunks, which is zero chunks for zero
    records. *)
Theorem C3_chunk_accounting (w : World) (path : string) (chunkSize : size_t) :
  ingest path 0%N w
  = (Throw (invalid_argument "chunkSize must be greater than zero"), w)
  /\ ((max_size < chunkSize)%N ->
      ingest path chunkSize w = (Throw (length_error "vector::reserve"), w))
  /\ (chunkSize <> 0%N -> (chunkSize <= max_size)%N ->
      readable (disk w) path -> persist_safe w ->
      (valid_count (disk w) path < 2 ^ 64)%N ->
      fst (ingest path chunkSize w)
      = Ok (mkBatchMetrics (valid_count (disk w) path)
              (ceil_div (valid_count (disk w) path) chunkSize))).
Proof.
  split; [reflexivity|]. split; [apply ingest_oversized | apply ingest_accounting].
Qed.

Lemma C3_chunk_accounting_witness :
  valid_count (disk (Sample.in_memory Sample.two_lines)) "in.csv" = 2%N
  /\ fst (ingest "in.csv" 1%N (Sample.in_memory Sample.two_lines))
     = Ok (mkBatchMetrics 2%N 2%N)
  /\ fst (ingest "in.csv" 256%N (Sample.in_memory Sample.two_lines))
     = Ok (mkBatchMetrics 2%N 1%N)
  /\ ingest "in.csv" 18446744073709551615%N (Sample.in_memory Sample.two_lines)
     = (Throw (length_error "vector::reserve"),
        Sample.in_memory Sample.two_lines).
Proof.
  split; [vm_compute; reflexivity|]. split; [|split].
  - etransitivity.
    + apply (C3_chunk_accounting (Sample.in_memory Sample.two_lines) "in.csv" 1%N).
      * discriminate.
      * unfold max_size. lia.
      * apply sample_readable.
      * exact I.
      * vm_compute. reflexivity.
    + vm_compute. reflexivity.
  - etransitivity.
    + apply (C3_chunk_accounting (Sample.in_memory Sample.two_lines) "in.csv" 256%N).
      * discriminate.
      * unfold max_size. lia.
      * apply sample_readable.
      * exact I.
      * vm_compute. reflexivity.
    + vm_compute. reflexivity.
  - apply (C3_chunk_accounting (Sample.in_memory Sample.two_lines) "in.csv"
             18446744073709551615%N).
    unfold max_size. lia.
Defined.

(** The scenario of the specification: a thousand records in chunks of 256. *)
Lemma thousand_in_chunks_of_256 : ceil_div 1000 256 = 4%N.
Proof. reflexivity. Qed.

(** C3 as stated fails where a flush throws.  The repository writes to a
    file and caches a record that cannot be serialized.  The first chunk is
    stored but not flushed, the exception ends in the [catch] of the
    stream, and the chunk stays in the buffer; the second record replaces
    the bad one, and a single flush takes both. *)
Lemma C3_counterexample :
  valid_count (disk Sample.tainted) "in.csv" = 2%N
  /\ readable (disk Sample.tainted) "in.csv"
  /\ fst (ingest "in.csv" 1%N Sample.tainted) = Ok (mkBatchMetrics 2%N 1%N)
  /\ ceil_div 2 1 = 2%N.
Proof.
  split; [vm_compute; reflexivity|]. split; [apply sample_readable|].
  split; vm_compute; reflexivity.
Qed.

(** C4 (as amended).  On a source that can be opened the stream hands to
    its consumer the records of the lines that parse, in the order of the
    lines, and nothing for the other lines; [readAll] collects exactly
    these.  With a chunk size that is not zero and that a vector can hold,
    and a repository whose flushes cannot throw, [ingest] returns and
    reports their number; and whenever [ingest] returns, with any chunk
    size and any repository, it reports their number. *)
Theorem C4_malformed_line_tolerance (w : World) (path : string) :
  readable (disk w) path ->
  (valid_count (disk w) path < 2 ^ 64)%N ->
  (forall (S : Type) (consumer : CarRecord -> S -> result unit * S) (s : S),
      stream consumer (disk w) path s
      = (Ok tt,
         fold_left (deliver consumer) (parsed (source_lines (disk w) path)) s))
  /\ readAll (disk w) path = Ok (parsed (source_lines (disk w) path))
  /\ (forall chunkSize,
         chunkSize <> 0%N -> (chunkSize <= max_size)%N -> persist_safe w ->
         exists m, fst (ingest path chunkSize w) = Ok m
                   /\ processedRecords m = valid_count (disk w) path)
  /\ (forall chunkSize m w',
         ingest path chunkSize w = (Ok m, w') ->
         processedRecords m = valid_count (disk w) path).
Proof.
  intros Hr Hb. split; [|split; [|split]].
  - intros S consumer s. by apply stream_delivers.
  - by apply readAll_parsed.
  - intros chunkSize Hc Hmax Hs. eexists.
    split; [by apply ingest_accounting|done].
  - intros chunkSize m w'. by apply ingest_processed.
Qed.

Lemma C4_malformed_line_tolerance_witness :
  CarRecordParser.parse "not a record"
  = Throw (CarRecordParser.MalformedRecord "not a record")
  /\ readAll (disk (Sample.in_memory Sample.three_lines)) "in.csv"
     = Ok [mkCarRecord "c1" "Civic" "good" (Double.of_Z 2500) "Available";
           Sample.repaired]
  /\ (exists m,
         fst (ingest "in.csv" 1%N (Sample.in_memory Sample.three_lines)) = Ok m
         /\ processedRecords m = 2%N).
Proof.
  destruct (C4_malformed_line_tolerance (Sample.in_memory Sample.three_lines) "in.csv")
    as (_ & Hread & Hcount & _).
  - apply sample_readable.
  - vm_compute. reflexivity.
  - split; [vm_compute; reflexivity|]. split.
    + etransitivity; [exact Hread|]. vm_compute. reflexivity.
    + destruct (Hcount 1%N) as (m & Hm & Hp);
        [discriminate | unfold max_size; lia | exact I |].
      exists m. split; [exact Hm|]. etransitivity; [exact Hp|].
      vm_compute. reflexivity.
Defined.

(** C4 as stated fails where a flush throws.  The repository writes to a
    file and caches a record that cannot be serialized, which no line of
    the source replaces.  The source has one line that parses and one that
    does not; the stream delivers the one record, but no flush succeeds,
    the record stays in the buffer, and the flush after the stream throws:
    [ingest] reports nothing, whatever the chunk size. *)
Lemma C4_counterexample :
  readable (disk Sample.stained) "in.csv"
  /\ source_lines (disk Sample.stained) "in.csv"
     = ["c1,Civic,good,2500,Available"; "not a record"]
  /\ readAll (disk Sample.stained) "in.csv" = Ok [Sample.c1]
  /\ fst (ingest "in.csv" 1%N Sample.stained)
     = Throw (runtime_error "Attempted to serialize invalid record: x")
  /\ (forall chunkSize,
         exists e, fst (ingest "in.csv" chunkSize Sample.stained) = Throw e).
Proof.
  split; [apply sample_readable|].
  split; [vm_compute; reflexivity|]. split; [vm_compute; reflexivity|].
  split; [vm_compute; reflexivity|].
  intros chunkSize. unfold ingest.
  destruct (chunkSize =? 0)%N; [by eexists|].
  destruct (reserve chunkSize); [|by eexists].
  destruct chunkSize as [|[p|p|]]; vm_compute; by eexists.
Qed.
End IngestClaims.

(** ** The synthetic data set and the scenarios of the specification *)

Section Scenarios.
Import CarRecordParser CarRecordValidator Spec.

Lemma generated_prices_stable :
  forallb (fun k => price_stable (Double.of_Z k)) generated_prices = true.
Proof. vm_compute. reflexivity. Qed.

(** Every price the generator draws is a positive double that its text
    gives back. *)
Lemma generated_price_survives k :
  1800 <= k <= 7500 ->
  (exists m e, Double.of_Z k = S754_finite false m e)
  /\ Double.stod (Double.show (Double.of_Z k)) = Ok (Double.of_Z k).
Proof.
  intros Hk.
  pose proof generated_prices_stable as Hall.
  rewrite forallb_forall in Hall.
  assert (price_stable (Double.of_Z k) = true) as Hs.
  { apply Hall. unfold generated_prices. apply in_map_iff.
    exists (Z.to_nat (k - 1800)). split; [lia|]. apply in_seq. lia. }
  unfold price_stable in Hs.
  apply andb_prop in Hs as [Hs Hrt]. apply andb_prop in Hs as [Hfin Hpos].
  split.
  - destruct (Double.of_Z k) as [s|s| |s m e]; try done.
    destruct s; [vm_compute in Hpos; discriminate Hpos|]. eauto.
  - destruct (Double.stod _) as [y|]; [|done].
    apply bool_decide_eq_true in Hrt. by subst.
Qed.

(** The records of the synthetic data set survive the file. *)
Lemma generated_record_round_trips i m c k :
  i <> "" -> Text.free_of Text.comma i = true ->
  In m generated_models -> In c allowed -> 1800 <= k <= 7500 ->
  round_trips (mkCarRecord i m c (Double.of_Z k) "Available").
Proof.
  intros Hi Hfree Hm Hc Hk.
  destruct (generated_price_survives k Hk) as [Hpos Hrt].
  apply C1_round_trip_core; simpl; try done.
  - apply well_formed_validate. repeat split; simpl; try done.
    simpl in Hm. intros ->. by repeat destruct Hm as [Hm|Hm].
  - unfold comma_free_fields. simpl. rewrite Hfree. simpl.
    simpl in Hm, Hc.
    repeat (destruct Hm as [<-|Hm]; [|]); try done;
      repeat (destruct Hc as [<-|Hc]; [|]); try done.
Qed.

Example parse_horizon :
  parse Sample.horizon_line = Ok (Some Sample.horizon).
Proof. vm_compute. reflexivity. Qed.

(** The line of the unit test has six tokens; the sixth is not read. *)
Example parse_unit_test_line :
  parse Sample.unit_test_line = Ok (Some Sample.horizon).
Proof. vm_compute. reflexivity. Qed.

Example parse_bad_condition :
  parse Sample.bad_condition_line
  = Throw (ValidationFailed Sample.bad_condition_line).
Proof. vm_compute. reflexivity. Qed.

(** [nan] is converted by [std::stod]; the validator rejects the price. *)
Example parse_nan_price :
  parse Sample.nan_price_line = Throw (ValidationFailed Sample.nan_price_line).
Proof. vm_compute. reflexivity. Qed.

(** An empty repository, [upsert], [update] of the status, [flush]: the
    backend receives one record, with the new status. *)
Example upsert_update_flush :
  let r0 := repository (Sample.in_memory "") in
  let r1 := snd (CarRepository.upsert Sample.c1 r0) in
  let r2 := snd (CarRepository.update "c1" Sample.rent r1) in
  let w := snd (CarRepository.flush
                  (BatchProcessor.with_repository r2 (Sample.in_memory ""))) in
  persist_calls w = [[Sample.rent Sample.c1]]
  /\ backend_ (repository w) = MemoryStorageBackend [Sample.rent Sample.c1]
  /\ dirty_ (repository w) = false.
Proof. vm_compute. repeat split; reflexivity. Qed.
End Scenarios.

(** * Further properties of the code *)

(** ** Files of records *)

Section ShowAlphabet.
Import Double Spec.

(** A property of characters that holds of every character a double is
    written with. *)
Variable P : ascii -> Prop.
Hypothesis P_double_chars : Forall P double_chars.

Lemma double_char_in c : In c double_chars -> P c.
Proof.
  intros Hin. rewrite Forall_forall in P_double_chars.
  by apply P_double_chars, list_elem_of_In.
Qed.

Lemma digit_char_written k : P (digit_char k).
Proof.
  apply double_char_in. unfold digit_char.
  destruct (nth_in_or_default (Z.to_nat (k mod 10)) decimal_digits "0"%char)
    as [Hin| ->]; [|simpl; tauto].
  revert Hin. generalize (nth (Z.to_nat (k mod 10)) decimal_digits "0"%char).
  intros c Hin. simpl in Hin. simpl.
  repeat (destruct Hin as [<-|Hin]; [tauto|]). destruct Hin.
Qed.

Lemma digits6_written m : Forall P (digits6 m).
Proof. unfold digits6. simpl. repeat constructor; apply digit_char_written. Qed.

Lemma strip_zeros_written l : Forall P l -> Forall P (strip_zeros l).
Proof.
  induction 1 as [|c l Hc Hl IH]; simpl; [constructor|].
  destruct (strip_zeros l).
  - destruct (Ascii.eqb c "0"); repeat constructor; done.
  - by constructor.
Qed.

Lemma with_fraction_written ip frac :
  Forall P ip -> Forall P frac -> Forall P (with_fraction ip frac).
Proof.
  intros Hi Hf. unfold with_fraction. destruct frac; [done|].
  apply Forall_app. split; [done|]. constructor; [|done].
  apply double_char_in. simpl. tauto.
Qed.

Lemma exponent_digits_written x : Forall P (exponent_digits x).
Proof.
  unfold exponent_digits. apply Forall_app. split.
  - destruct (_ <? _); repeat constructor; apply digit_char_written.
  - repeat constructor; apply digit_char_written.
Qed.

Lemma show_g6_written m x : Forall P (show_g6 m x).
Proof.
  pose proof (digits6_written m) as Hd. unfold show_g6.
  destruct (_ || _); [|destruct (x <? 0)].
  - apply Forall_app. split.
    + apply with_fraction_written;
        [by apply Forall_take | by apply strip_zeros_written, Forall_drop].
    + constructor; [apply double_char_in; simpl; tauto|].
      constructor;
        [destruct (x <? 0); apply double_char_in; simpl; tauto|].
      apply exponent_digits_written.
  - apply with_fraction_written.
    + repeat constructor. apply double_char_in. simpl. tauto.
    + apply Forall_app. split; [|by apply strip_zeros_written].
      apply Forall_replicate. apply double_char_in. simpl. tauto.
  - apply with_fraction_written;
      [by apply Forall_take | by apply strip_zeros_written, Forall_drop].
Qed.

Lemma show_chars_written x : Forall P (show_chars x).
Proof.
  assert (forall neg, Forall P (show_sign neg)) as Hs.
  { intros []; repeat constructor. apply double_char_in. simpl. tauto. }
  destruct x as [s|s| |s m e]; simpl.
  - apply Forall_app. split; [apply Hs|].
    repeat constructor; apply double_char_in; simpl; tauto.
  - apply Forall_app. split; [apply Hs|].
    repeat constructor; apply double_char_in; simpl; tauto.
  - repeat constructor; apply double_char_in; simpl; tauto.
  - destruct (scale2 _ _ _) as [n d]. destruct (sig6 n d) as [m6 x].
    apply Forall_app. split; [apply Hs | apply show_g6_written].
Qed.
End ShowAlphabet.

Section FileFacts.
Import TransactionalFileWriter CarFilePipeline CarRecordParser Spec.

(** The text of a double holds no line break. *)
Lemma show_line_free x : Text.free_of Text.newline (Double.show x) = true.
Proof.
  apply free_of_chars, show_chars_written.
  unfold double_chars. simpl. repeat constructor; discriminate.
Qed.

Lemma string_append_assoc a b c : (a +:+ b) +:+ c = a +:+ (b +:+ c).
Proof.
  induction a as [|x a IH]; [done|].
  change (String x ((a +:+ b) +:+ c) = String x (a +:+ (b +:+ c))).
  by rewrite IH.
Qed.

Lemma text_of_fold lines acc :
  fold_left (fun acc line => acc +:+ line +:+ String Text.newline EmptyString)
    lines acc
  = acc +:+ text_of lines.
Proof.
  unfold text_of. revert acc.
  induction lines as [|line lines IH]; intros acc; cbn [fold_left].
  - clear. induction acc as [|c acc IH]; [done|].
    change (String c acc = String c (acc +:+ EmptyString)). by rewrite <- IH.
  - rewrite (IH (acc +:+ _)), (IH (EmptyString +:+ _)).
    by rewrite !string_append_assoc.
Qed.

Lemma text_of_cons line lines :
  text_of (line :: lines) = line +:+ String Text.newline (text_of lines).
Proof.
  unfold text_of at 1. cbn [fold_left]. rewrite text_of_fold.
  change (EmptyString +:+ ?x) with x. by rewrite string_append_assoc.
Qed.

(** The lines [std::getline] reads from a written text are the lines that
    were written, empty lines included. *)
Lemma lines_of_text_of lines :
  Forall (fun line => Text.free_of Text.newline line = true) lines ->
  lines_of (text_of lines) = lines.
Proof.
  unfold lines_of. rewrite split_fields.
  induction 1 as [|line lines Hline _ IH]; [done|].
  rewrite text_of_cons, fields_cons by done. by rewrite IH.
Qed.

(** All the effects of a [write] that returns, in one: the target holds
    the new text and the temporary file is gone. *)
Lemma run_steps target lines (f : gmap string string) :
  run (steps target lines) f
  = <[target := text_of lines]> (delete (tmpPath target) f).
Proof.
  rewrite steps_split, run_app.
  pose proof (preparation_tmp target lines f) as Htmp.
  pose proof (fun p => run_confined (tmpPath target) (preparation target lines) f p
                         (preparation_confined target lines)) as Hrest.
  set (g := run (preparation target lines) f) in *.
  pose proof (tmpPath_fresh target) as Hfresh.
  unfold run. simpl.
  rewrite lookup_delete_ne by done. rewrite Htmp.
  apply map_eq. intros p.
  destruct (decide (p = target)) as [->|Hp].
  { by rewrite !lookup_insert_eq. }
  rewrite !lookup_insert_ne by done.
  destruct (decide (p = tmpPath target)) as [->|Hq].
  { by rewrite !lookup_delete_eq. }
  rewrite !lookup_delete_ne by done. by apply Hrest.
Qed.

Lemma write_returns target lines disk :
  tmpPath target ∉ locked disk ->
  write target lines disk
  = (Ok tt,
     with_files (<[target := text_of lines]> (delete (tmpPath target) (files disk)))
       disk).
Proof.
  intros Hl. unfold write. rewrite bool_decide_eq_false_2 by done.
  by rewrite run_steps.
Qed.

Lemma serialize_line_free r line :
  line_free_fields r = true -> serialize r = Ok line ->
  Text.free_of Text.newline line = true.
Proof.
  unfold line_free_fields, serialize. intros Hfree.
  apply andb_prop in Hfree as [Hfree Hs].
  apply andb_prop in Hfree as [Hfree Hc].
  apply andb_prop in Hfree as [Hi Hm].
  destruct (negb _); [done|]. intros [= <-].
  rewrite !free_of_app. simpl. rewrite !free_of_app. simpl.
  rewrite !free_of_app. simpl. rewrite !free_of_app. simpl.
  by rewrite Hi, Hm, Hc, Hs, show_line_free.
Qed.

Lemma storable_line r :
  storable r ->
  exists line, serialize r = Ok line /\ parse line = Ok (Some r)
               /\ Text.free_of Text.newline line = true.
Proof.
  intros (Hv & Hc & Hl & Hs & Hp).
  destruct (C1_round_trip_core r Hv Hc Hs Hp) as (line & Hser & Hpar).
  exists line. repeat split; [done|done|]. by eapply serialize_line_free.
Qed.

Lemma serialize_all_storable rs :
  Forall storable rs ->
  exists lines, serialize_all rs = Ok lines /\ parsed lines = rs
                /\ Forall (fun line => Text.free_of Text.newline line = true) lines.
Proof.
  induction 1 as [|r rs Hr _ (lines & Hser & Hpar & Hfree)]; simpl.
  { by exists []. }
  destruct (storable_line r Hr) as (line & Hs & Hp & Hf).
  exists (line :: lines). rewrite Hs, Hser. simpl. rewrite Hp, Hpar.
  split; [done|]. split; [done|]. by constructor.
Qed.

Lemma writeAll_storable path rs disk :
  Forall storable rs -> tmpPath path ∉ locked disk ->
  exists lines,
    writeAll path rs disk
    = (Ok tt,
       with_files (<[path := text_of lines]> (delete (tmpPath path) (files disk)))
         disk)
    /\ parsed (lines_of (text_of lines)) = rs.
Proof.
  intros Hrs Hl.
  destruct (serialize_all_storable rs Hrs) as (lines & Hser & Hpar & Hfree).
  exists lines. unfold writeAll. rewrite Hser. split; [by apply write_returns|].
  by rewrite lines_of_text_of.
Qed.

Lemma file_round_trip path rs disk :
  Forall storable rs ->
  tmpPath path ∉ locked disk -> path ∉ locked disk ->
  fst (writeAll path rs disk) = Ok tt
  /\ readAll (snd (writeAll path rs disk)) path = Ok rs.
Proof.
  intros Hrs Htmp Hpath.
  destruct (writeAll_storable path rs disk Hrs Htmp) as (lines & -> & Hpar).
  split; [done|]. simpl. rewrite readAll_parsed by done.
  unfold source_lines. simpl. rewrite lookup_insert_eq. by rewrite Hpar.
Qed.

(** The first record the validator rejects stops [serialize_all]. *)
Lemma serialize_all_invalid l1 r l2 :
  Forall (fun x => CarRecordValidator.validate x = true) l1 ->
  CarRecordValidator.validate r = false ->
  serialize_all (l1 ++ r :: l2)
  = Throw (runtime_error ("Attempted to serialize invalid record: " +:+ id r)).
Proof.
  intros Hl1 Hr. induction Hl1 as [|x l1 Hx _ IH]; simpl.
  - unfold serialize. by rewrite Hr.
  - rewrite (serialize_valid x Hx). by rewrite IH.
Qed.

(** A list of records either passes the validator or has a first record
    that does not. *)
Lemma first_invalid rs :
  Forall (fun x => CarRecordValidator.validate x = true) rs
  \/ exists l1 r l2,
       rs = l1 ++ r :: l2
       /\ Forall (fun x => CarRecordValidator.validate x = true) l1
       /\ CarRecordValidator.validate r = false.
Proof.
  induction rs as [|x rs IH]; [by left|].
  destruct (CarRecordValidator.validate x) eqn:Hx.
  - destruct IH as [IH|(l1 & r & l2 & -> & Hl1 & Hr)].
    + left. by constructor.
    + right. exists (x :: l1), r, l2. repeat split; [|done]. by constructor.
  - right. exists [], x, rs. by repeat split.
Qed.

(** X1.  A [write] that cannot open its temporary file throws and leaves
    the disk as it is.  Any other [write] returns, and then the target
    holds the text of the lines, each followed by a line break, the
    temporary file [target.tmp] is gone whatever was stored under this name
    before, and every other file is what it was. *)
Theorem X1_write_effect (target : string) (lines : list string)
    (disk : FileSystem) :
  (tmpPath target ∈ locked disk ->
   write target lines disk
   = (Throw (runtime_error "Unable to open temporary file for transactional write"),
      disk))
  /\ (tmpPath target ∉ locked disk ->
      fst (write target lines disk) = Ok tt
      /\ files (snd (write target lines disk)) !! target = Some (text_of lines)
      /\ files (snd (write target lines disk)) !! tmpPath target = None
      /\ (forall p, p <> target -> p <> tmpPath target ->
                    files (snd (write target lines disk)) !! p = files disk !! p)
      /\ locked (snd (write target lines disk)) = locked disk).
Proof.
  split.
  - intros Hl. unfold write. by rewrite bool_decide_eq_true_2.
  - intros Hl. rewrite write_returns by done. simpl.
    pose proof (tmpPath_fresh target) as Hfresh.
    split; [done|]. split; [apply lookup_insert_eq|]. split.
    + rewrite lookup_insert_ne by done. apply lookup_delete_eq.
    + split; [|done]. intros p Hp Hq.
      rewrite lookup_insert_ne by done. by rewrite lookup_delete_ne.
Qed.

Lemma X1_write_effect_witness :
  files (snd (write "cars.txt" ["new"] (mkFileSystem Sample.old_disk ∅)))
    !! "cars.txt"
  = Some ("new" +:+ String Text.newline EmptyString)
  /\ files (snd (write "cars.txt" ["new"] (mkFileSystem Sample.old_disk ∅)))
       !! "cars.txt.tmp" = None.
Proof.
  destruct (X1_write_effect "cars.txt" ["new"] (mkFileSystem Sample.old_disk ∅))
    as [_ H].
  destruct H as (_ & Ht & Htmp & _).
  - simpl. apply not_elem_of_empty.
  - split; [exact Ht | exact Htmp].
Defined.

(** X2.  Records that are storable (valid, no comma and no line break in
    a text, status not empty, price equal to the double its six-digit text
    reads as) come back from a file: [writeAll] returns, and [readAll] on
    the written file returns the same records in the same order. *)
Theorem X2_file_round_trip (path : string) (rs : list CarRecord)
    (disk : FileSystem) :
  Forall storable rs ->
  tmpPath path ∉ locked disk -> path ∉ locked disk ->
  fst (writeAll path rs disk) = Ok tt
  /\ readAll (snd (writeAll path rs disk)) path = Ok rs.
Proof. apply file_round_trip. Qed.

Lemma horizon_storable : storable Sample.horizon.
Proof.
  repeat split; try (vm_compute; reflexivity). simpl. discriminate.
Qed.

Lemma c1_storable : storable Sample.c1.
Proof.
  repeat split; try (vm_compute; reflexivity). simpl. discriminate.
Qed.

Lemma X2_file_round_trip_witness :
  readAll (snd (writeAll "cars.txt" [Sample.horizon; Sample.c1]
                  (mkFileSystem Sample.old_disk ∅))) "cars.txt"
  = Ok [Sample.horizon; Sample.c1].
Proof.
  apply (X2_file_round_trip "cars.txt" [Sample.horizon; Sample.c1]
           (mkFileSystem Sample.old_disk ∅)).
  - repeat constructor; [apply horizon_storable | apply c1_storable].
  - simpl. apply not_elem_of_empty.
  - simpl. apply not_elem_of_empty.
Defined.

(** X3.  [writeAll] is all or nothing.  It returns exactly when every
    record passes the validator and the temporary file can be opened, and
    then the file holds the lines of all the records.  Otherwise it throws
    and no file is touched: for the first record that the validator
    rejects, with the id of this record in the message; and with every
    record valid, because the temporary file cannot be opened. *)
Theorem X3_writeAll_all_or_nothing (path : string) (rs : list CarRecord)
    (disk : FileSystem) :
  (fst (writeAll path rs disk) = Ok tt
   <-> Forall (fun x => CarRecordValidator.validate x = true) rs
       /\ tmpPath path ∉ locked disk)
  /\ (Forall (fun x => CarRecordValidator.validate x = true) rs ->
      tmpPath path ∉ locked disk ->
      exists lines,
        serialize_all rs = Ok lines /\ length lines = length rs
        /\ fst (writeAll path rs disk) = Ok tt
        /\ files (snd (writeAll path rs disk)) !! path = Some (text_of lines))
  /\ (forall l1 r l2,
         rs = l1 ++ r :: l2 ->
         Forall (fun x => CarRecordValidator.validate x = true) l1 ->
         CarRecordValidator.validate r = false ->
         writeAll path rs disk
         = (Throw (runtime_error
                     ("Attempted to serialize invalid record: " +:+ id r)),
            disk))
  /\ (Forall (fun x => CarRecordValidator.validate x = true) rs ->
      tmpPath path ∈ locked disk ->
      writeAll path rs disk
      = (Throw (runtime_error
                  "Unable to open temporary file for transactional write"),
         disk))
  /\ (forall e, fst (writeAll path rs disk) = Throw e ->
                snd (writeAll path rs disk) = disk).
Proof.
  assert (Forall (fun x => CarRecordValidator.validate x = true) rs ->
          tmpPath path ∉ locked disk ->
          exists lines,
            serialize_all rs = Ok lines /\ length lines = length rs
            /\ fst (writeAll path rs disk) = Ok tt
            /\ files (snd (writeAll path rs disk)) !! path
               = Some (text_of lines)) as Hall.
  { intros Hrs Hl. destruct (serialize_all_valid rs Hrs) as [lines Hser].
    exists lines. split; [done|]. split.
    + clear Hrs Hl. revert lines Hser.
      induction rs as [|x rs IH]; simpl; intros lines Hser.
      * by injection Hser as <-.
      * destruct (serialize x); [|done].
        destruct (serialize_all rs) as [ls|]; [|done].
        injection Hser as <-. simpl. by rewrite (IH ls).
    + unfold writeAll. rewrite Hser, write_returns by done. simpl.
      split; [done | apply lookup_insert_eq]. }
  assert (forall l1 r l2,
             rs = l1 ++ r :: l2 ->
             Forall (fun x => CarRecordValidator.validate x = true) l1 ->
             CarRecordValidator.validate r = false ->
             writeAll path rs disk
             = (Throw (runtime_error
                         ("Attempted to serialize invalid record: " +:+ id r)),
                disk)) as Hbad.
  { intros l1 r l2 -> Hl1 Hr. unfold writeAll.
    by rewrite serialize_all_invalid. }
  assert (Forall (fun x => CarRecordValidator.validate x = true) rs ->
          tmpPath path ∈ locked disk ->
          writeAll path rs disk
          = (Throw (runtime_error
                      "Unable to open temporary file for transactional write"),
             disk)) as Hshut.
  { intros Hrs Hl. destruct (serialize_all_valid rs Hrs) as [lines Hser].
    unfold writeAll, write. rewrite Hser. by rewrite bool_decide_eq_true_2. }
  split; [|split; [done|split; [done|split; [done|]]]].
  - split.
    + intros Hok.
      destruct (first_invalid rs) as [Hrs|(l1 & r & l2 & Heq & Hl1 & Hr)].
      * split; [done|]. intros Hl. by rewrite (Hshut Hrs Hl) in Hok.
      * by rewrite (Hbad l1 r l2 Heq Hl1 Hr) in Hok.
    + intros [Hrs Hl]. by destruct (Hall Hrs Hl) as (lines & _ & _ & Hok & _).
  - intros e. unfold writeAll, write.
    destruct (serialize_all rs); [|done].
    by destruct (bool_decide _).
Qed.

Lemma X3_writeAll_all_or_nothing_witness :
  writeAll "cars.txt" [Sample.horizon; Sample.broken; Sample.c1]
    (mkFileSystem Sample.old_disk ∅)
  = (Throw (runtime_error "Attempted to serialize invalid record: x"),
     mkFileSystem Sample.old_disk ∅)
  /\ writeAll "cars.txt" [Sample.horizon; Sample.c1]
       (mkFileSystem Sample.old_disk {[ "cars.txt.tmp" ]})
     = (Throw (runtime_error
                 "Unable to open temporary file for transactional write"),
        mkFileSystem Sample.old_disk {[ "cars.txt.tmp" ]})
  /\ fst (writeAll "cars.txt" [Sample.horizon; Sample.c1]
            (mkFileSystem Sample.old_disk ∅)) = Ok tt.
Proof.
  split; [|split].
  - destruct (X3_writeAll_all_or_nothing "cars.txt"
                [Sample.horizon; Sample.broken; Sample.c1]
                (mkFileSystem Sample.old_disk ∅)) as (_ & _ & H & _).
    apply (H [Sample.horizon] Sample.broken [Sample.c1]).
    + reflexivity.
    + repeat constructor.
    + vm_compute. reflexivity.
  - destruct (X3_writeAll_all_or_nothing "cars.txt"
                [Sample.horizon; Sample.c1]
                (mkFileSystem Sample.old_disk {[ "cars.txt.tmp" ]}))
      as (_ & _ & _ & H & _).
    apply H.
    + repeat constructor.
    + simpl. apply elem_of_singleton. reflexivity.
  - destruct (X3_writeAll_all_or_nothing "cars.txt"
                [Sample.horizon; Sample.c1]
                (mkFileSystem Sample.old_disk ∅)) as (H & _).
    apply H. split.
    + repeat constructor.
    + simpl. apply not_elem_of_empty.
Defined.
End FileFacts.

(** ** The snapshot and the backend of the repository *)

Section OrderFacts.
Import CarRepository Spec.

Lemma string_leb_trans a b c :
  String.leb a b = true -> String.leb b c = true -> String.leb a c = true.
Proof.
  unfold String.leb. revert b c.
  induction a as [|x a IH]; intros [|y b] [|z c]; simpl; try done.
  unfold Ascii.compare.
  destruct (N.compare_spec (N_of_ascii x) (N_of_ascii y)) as [Hxy|Hxy|Hxy];
    destruct (N.compare_spec (N_of_ascii y) (N_of_ascii z)) as [Hyz|Hyz|Hyz];
    try done.
  - rewrite Hxy, Hyz, N.compare_refl. apply IH.
  - intros _ _. rewrite Hxy. by apply N.compare_lt_iff in Hyz as ->.
  - intros _ _. rewrite <- Hyz. by apply N.compare_lt_iff in Hxy as ->.
  - intros _ _.
    assert (N_of_ascii x < N_of_ascii z)%N as H by lia.
    by apply N.compare_lt_iff in H as ->.
Qed.

Lemma id_le_trans : Transitive id_le.
Proof. intros x y z. apply string_leb_trans. Qed.

Lemma all_strongly_sorted r : StronglySorted id_le (all r).
Proof. apply Sorted_StronglySorted; [apply id_le_trans | apply all_sorted]. Qed.

Lemma StronglySorted_filter_list {A} (R : relation A) (P : A -> Prop)
    `{!forall x, Decision (P x)} (l : list A) :
  StronglySorted R l -> StronglySorted R (filter P l).
Proof.
  induction 1 as [|x l Hl IH Hx]; [constructor|].
  rewrite filter_cons. destruct (decide (P x)); [|done].
  constructor; [done|]. apply Forall_forall. intros y Hy.
  apply list_elem_of_filter in Hy as [_ Hy].
  rewrite Forall_forall in Hx. by apply Hx.
Qed.

Lemma elem_of_all r x :
  x ∈ all r <-> exists k, records_ r !! k = Some x.
Proof.
  rewrite all_permutation. rewrite list_elem_of_fmap. split.
  - intros ([k y] & -> & Hin). exists k. by apply elem_of_map_to_list in Hin.
  - intros [k Hk]. exists (k, x). split; [done|]. by apply elem_of_map_to_list.
Qed.

(** In a repository that files every record under its id the snapshot
    holds the records [find] returns. *)
Lemma elem_of_all_find r x :
  keys_are_ids (records_ r) -> x ∈ all r <-> find (id x) r = Some x.
Proof.
  intros Hk. rewrite elem_of_all. unfold find. split.
  - intros [k Hx]. by rewrite (Hk k x Hx).
  - eauto.
Qed.

Lemma length_all r : length (all r) = totalRecords r.
Proof.
  rewrite all_permutation, length_fmap. apply length_map_to_list.
Qed.

Lemma available_permutation r :
  available r ≡ₚ filter (fun x => status x = "Available") (all r).
Proof.
  unfold available, all, sort_by_id. by rewrite !merge_sort_Permutation.
Qed.

(** [available()] is the snapshot [all()] without the cars that are not
    available, in the same order. *)
Lemma available_filter r :
  keys_are_ids (records_ r) ->
  available r = filter (fun x => status x = "Available") (all r).
Proof.
  intros Hk.
  apply (@Sorted_unique_strong _ id_le id_le_trans).
  - intros x1 x2 H1 H2 H12 H21.
    rewrite available_permutation in H1.
    apply list_elem_of_filter in H1 as [_ H1], H2 as [_ H2].
    apply (elem_of_all_find r _ Hk) in H1, H2.
    rewrite (String.leb_antisym _ _ H12 H21) in H1. congruence.
  - unfold available, sort_by_id. apply Sorted_merge_sort, id_le_total.
  - apply StronglySorted_Sorted, StronglySorted_filter_list, all_strongly_sorted.
  - apply available_permutation.
Qed.

Lemma listAvailable_take limit w :
  RentalService.listAvailable limit w
  = take (N.to_nat limit) (available (repository w)).
Proof.
  unfold RentalService.listAvailable. cbv zeta.
  destruct (N.ltb_spec limit (N.of_nat (length (available (repository w)))))
    as [Hlt|Hge]; [done|].
  rewrite take_ge; [done|lia].
Qed.

(** *** What the snapshot stores again *)

Lemma last_written_NoDup l x :
  NoDup (id <$> l) -> x ∈ l -> last_written (id x) l = Some x.
Proof.
  intros Hnd Hin. apply last_written_some.
  apply list_elem_of_split in Hin as (l1 & l2 & ->).
  exists l1, l2. split; [done|]. split; [done|].
  rewrite fmap_app, fmap_cons in Hnd.
  apply NoDup_app in Hnd as (_ & _ & Hnd).
  apply NoDup_cons in Hnd as [Hx _].
  apply Forall_forall. intros y Hy Heq. apply Hx.
  rewrite <- Heq. apply list_elem_of_fmap. eauto.
Qed.

Lemma fold_store_all r :
  keys_are_ids (records_ r) -> fold_left store (all r) ∅ = records_ r.
Proof.
  intros Hk. apply map_eq. intros i. rewrite lookup_fold_store.
  destruct (records_ r !! i) as [x|] eqn:Hx.
  - assert (id x = i) as <- by (by apply (Hk i x)).
    rewrite last_written_NoDup; [done | by apply all_NoDup |].
    by apply elem_of_all_find.
  - assert (last_written i (all r) = None) as ->; [|done].
    apply last_written_none, Forall_forall. intros y Hy Heq.
    apply (elem_of_all_find r y Hk) in Hy. unfold find in Hy. congruence.
Qed.

Lemma size_fold_store l :
  NoDup (id <$> l) -> size (fold_left store l ∅) = length l.
Proof.
  induction l as [|x l IH] using rev_ind; intros Hnd; [done|].
  rewrite fold_left_app, length_app. simpl. unfold store at 1.
  rewrite fmap_app in Hnd. apply NoDup_app in Hnd as (Hl & Hx & _).
  rewrite map_size_insert_None.
  - rewrite IH by done. lia.
  - rewrite lookup_fold_store.
    assert (last_written (id x) l = None) as ->; [|done].
    apply last_written_none, Forall_forall. intros y Hy Heq.
    apply (Hx (id y)); [apply list_elem_of_fmap; eauto|].
    rewrite Heq. simpl. left.
Qed.
End OrderFacts.

Section BackendFacts.
Import CarRepository Spec.

Lemma flush_records w :
  records_ (repository (snd (flush w))) = records_ (repository w).
Proof.
  destruct (dirty_ (repository w)) eqn:Hd.
  - by apply flush_dirty.
  - by rewrite flush_clean.
Qed.

Lemma all_storable r :
  cache_storable (records_ r) -> Forall storable (all r).
Proof.
  intros Hs. apply Forall_forall. intros x Hx.
  apply elem_of_all in Hx as [k Hx]. by apply (Hs k x).
Qed.

(** After a flush of unsaved changes the backend loads the snapshot. *)
Lemma loadCars_flush w :
  dirty_ (repository w) = true -> restorable w ->
  fst (flush w) = Ok tt
  /\ Backend.loadCars (snd (flush w)) = Ok (all (repository w))
  /\ dirty_ (repository (snd (flush w))) = false.
Proof.
  intros Hd Hr. unfold flush. rewrite Hd. simpl.
  unfold restorable in Hr. unfold Backend.persistCars, Backend.loadCars.
  destruct (backend_ (repository w)) as [path|rs] eqn:Hb.
  - destruct Hr as (Htmp & Hpath & Hs).
    destruct (file_round_trip path (all (repository w)) (disk w)
                (all_storable _ Hs) Htmp Hpath) as [Hok Hread].
    destruct (CarFilePipeline.writeAll path (all (repository w)) (disk w))
      as [res disk'].
    simpl in *. subst res. simpl. by rewrite Hb.
  - done.
Qed.

Lemma reload_loaded w loaded :
  Backend.loadCars w = Ok loaded ->
  reload w
  = (Ok tt,
     mkWorld (disk w) (set_cache (fold_left store loaded ∅) false (repository w))
       (persist_calls w)).
Proof. intros Hl. unfold reload. by rewrite Hl. Qed.

Lemma StronglySorted_before {A} (R : relation A) l1 x l2 :
  StronglySorted R (l1 ++ x :: l2) -> Forall (fun y => R y x) l1.
Proof.
  induction l1 as [|a l1 IH]; [constructor|]. simpl. intros Hs.
  apply StronglySorted_inv in Hs as [Hs Ha]. constructor; [|by apply IH].
  rewrite Forall_forall in Ha. apply Ha. set_solver.
Qed.

(** A cached record that the validator rejects stops every flush to a
    file, at the first such record of the snapshot. *)
Lemma flush_rejected w path :
  backend_ (repository w) = FileStorageBackend path ->
  dirty_ (repository w) = true ->
  ~ cache_valid (records_ (repository w)) ->
  exists before bad after,
    all (repository w) = before ++ bad :: after
    /\ Forall (fun x => CarRecordValidator.validate x = true) before
    /\ CarRecordValidator.validate bad = false
    /\ flush w
       = (Throw (runtime_error
                   ("Attempted to serialize invalid record: " +:+ id bad)),
          mkWorld (disk w) (repository w)
            (persist_calls w ++ [all (repository w)])).
Proof.
  intros Hb Hd Hbad.
  destruct (first_invalid (all (repository w)))
    as [Hall|(l1 & bad & l2 & Heq & Hl1 & Hv)].
  { exfalso. apply Hbad. intros k x Hx.
    rewrite Forall_forall in Hall. apply Hall, elem_of_all. eauto. }
  exists l1, bad, l2. split; [done|]. split; [done|]. split; [done|].
  unfold flush. rewrite Hd. simpl. unfold Backend.persistCars. rewrite Hb.
  unfold CarFilePipeline.writeAll.
  rewrite Heq at 1. by rewrite serialize_all_invalid.
Qed.

(** X4.  What a repository flushes is what it loads: with unsaved changes
    in a repository that files every record under its id, on the in-memory
    backend or on a file backend whose files can be opened and whose cached
    records are storable, [flush] returns, and a [reload] after it, as well
    as a repository constructed anew on the same backend, holds exactly the
    cache of before, with no unsaved change. *)
Theorem X4_flush_then_reload (w : World) :
  dirty_ (repository w) = true -> restorable w ->
  keys_are_ids (records_ (repository w)) ->
  fst (flush w) = Ok tt
  /\ fst (reload (snd (flush w))) = Ok tt
  /\ records_ (repository (snd (reload (snd (flush w)))))
     = records_ (repository w)
  /\ dirty_ (repository (snd (reload (snd (flush w))))) = false
  /\ (let w1 := snd (flush w) in
      fst (construct (backend_ (repository w1)) (disk w1)) = Ok tt
      /\ records_ (repository
                     (snd (construct (backend_ (repository w1)) (disk w1))))
         = records_ (repository w)).
Proof.
  intros Hd Hr Hk. destruct (loadCars_flush w Hd Hr) as (Hok & Hload & Hclean).
  split; [done|]. rewrite (reload_loaded _ _ Hload). simpl.
  rewrite (fold_store_all _ Hk). repeat split.
  - unfold construct. erewrite reload_loaded; [done|].
    unfold Backend.loadCars in *. simpl.
    by destruct (backend_ (repository (snd (flush w)))).
  - unfold construct. erewrite reload_loaded; cycle 1.
    { unfold Backend.loadCars in *. simpl.
      destruct (backend_ (repository (snd (flush w)))); exact Hload. }
    simpl. by apply fold_store_all.
Qed.

Lemma fleet_storable : cache_storable (records_ (repository Sample.fleet)).
Proof.
  simpl. apply map_Forall_insert_2; [apply horizon_storable|].
  apply map_Forall_singleton, c1_storable.
Qed.

Lemma fleet_keys : keys_are_ids (records_ (repository Sample.fleet)).
Proof.
  simpl. apply map_Forall_insert_2; [done|]. by apply map_Forall_singleton.
Qed.

Lemma fleet_restorable : restorable Sample.fleet.
Proof.
  unfold restorable. simpl.
  split; [apply not_elem_of_empty|]. split; [apply not_elem_of_empty|].
  apply fleet_storable.
Qed.

Lemma X4_flush_then_reload_witness :
  records_ (repository (snd (reload (snd (flush Sample.fleet)))))
  = records_ (repository Sample.fleet).
Proof.
  destruct (X4_flush_then_reload Sample.fleet) as (_ & _ & H & _).
  - reflexivity.
  - apply fleet_restorable.
  - apply fleet_keys.
  - exact H.
Defined.

(** X5.  The snapshot [all()] of a repository that files every record
    under its id holds exactly the records [find] returns, each once, in
    increasing order of id, and as many as [totalRecords()] counts;
    [available()] is this snapshot without the cars whose status is not
    ["Available"], in the same order, and [listAvailable(limit)] is its
    first [limit] cars. *)
Theorem X5_snapshot (w : World) (limit : size_t) :
  keys_are_ids (records_ (repository w)) ->
  (forall x, x ∈ all (repository w) <-> find (id x) (repository w) = Some x)
  /\ NoDup (id <$> all (repository w))
  /\ StronglySorted id_le (all (repository w))
  /\ length (all (repository w)) = totalRecords (repository w)
  /\ available (repository w)
     = filter (fun x => status x = "Available") (all (repository w))
  /\ RentalService.listAvailable limit w
     = take (N.to_nat limit)
         (filter (fun x => status x = "Available") (all (repository w))).
Proof.
  intros Hk. split; [intros x; by apply elem_of_all_find|].
  split; [by apply all_NoDup|]. split; [apply all_strongly_sorted|].
  split; [apply length_all|]. split; [by apply available_filter|].
  rewrite listAvailable_take. by rewrite available_filter.
Qed.

Lemma X5_snapshot_witness :
  RentalService.listAvailable 1%N Sample.fleet = [Sample.c1].
Proof.
  destruct (X5_snapshot Sample.fleet 1%N) as (_ & _ & _ & _ & _ & H).
  - apply fleet_keys.
  - etransitivity; [exact H|]. vm_compute. reflexivity.
Defined.

(** X6.  A cached record that the validator rejects poisons a file-backed
    repository: every [flush] of unsaved changes throws for the first such
    record of the snapshot, which is in id order (every record before it
    passes the validator and has an id that is not greater), with the id
    of this record in the message; the file system and the cache stay as
    they are, and the changes stay unsaved. *)
Theorem X6_flush_rejected (w : World) (path : string) :
  backend_ (repository w) = FileStorageBackend path ->
  dirty_ (repository w) = true ->
  ~ cache_valid (records_ (repository w)) ->
  exists before bad after,
    all (repository w) = before ++ bad :: after
    /\ Forall (fun x => CarRecordValidator.validate x = true /\ id_le x bad)
         before
    /\ CarRecordValidator.validate bad = false
    /\ fst (flush w)
       = Throw (runtime_error
                  ("Attempted to serialize invalid record: " +:+ id bad))
    /\ disk (snd (flush w)) = disk w
    /\ repository (snd (flush w)) = repository w.
Proof.
  intros Hb Hd Hbad.
  destruct (flush_rejected w path Hb Hd Hbad)
    as (before & bad & after & Heq & Hvalid & Hv & ->).
  exists before, bad, after. split; [done|]. split; [|done].
  pose proof (all_strongly_sorted (repository w)) as Hs. rewrite Heq in Hs.
  apply StronglySorted_before in Hs.
  rewrite Forall_forall in *. intros x Hx. split; [by apply Hvalid | by apply Hs].
Qed.

Lemma tainted_invalid : ~ cache_valid (records_ (repository Sample.tainted)).
Proof.
  intros H. specialize (H "x" Sample.broken). simpl in H.
  rewrite lookup_singleton_eq in H. specialize (H eq_refl).
  vm_compute in H. discriminate H.
Qed.

Lemma X6_flush_rejected_witness :
  exists before bad after,
    all (repository Sample.tainted) = before ++ bad :: after
    /\ Forall (fun x => CarRecordValidator.validate x = true /\ id_le x bad)
         before
    /\ CarRecordValidator.validate bad = false
    /\ fst (flush Sample.tainted)
       = Throw (runtime_error
                  ("Attempted to serialize invalid record: " +:+ id bad))
    /\ disk (snd (flush Sample.tainted)) = disk Sample.tainted
    /\ repository (snd (flush Sample.tainted)) = repository Sample.tainted.
Proof.
  apply (X6_flush_rejected Sample.tainted "cars.txt").
  - reflexivity.
  - reflexivity.
  - apply tainted_invalid.
Defined.
End BackendFacts.

(** ** The rental service *)

Section ServiceFacts.
Import CarRepository RentalService Spec.

Lemma with_repository_same w :
  BatchProcessor.with_repository (repository w) w = w.
Proof. by destruct w. Qed.

Lemma update_missing i f r :
  find i r = None -> update i f r = (false, r).
Proof. unfold find, update. by intros ->. Qed.

Lemma update_found i f r c :
  find i r = Some c ->
  update i f r = (true, set_cache (<[i := f c]> (records_ r)) true r).
Proof. unfold find, update. by intros ->. Qed.

Lemma validate_set_status s c :
  CarRecordValidator.validate (set_status s c) = CarRecordValidator.validate c.
Proof. done. Qed.

Lemma set_status_same c : set_status (status c) c = c.
Proof. by destruct c. Qed.

Lemma service_flush_ok w :
  fst (CarRepository.flush w) = Ok tt ->
  RentalService.flush w = (Ok true, snd (CarRepository.flush w)).
Proof.
  unfold RentalService.flush.
  destruct (CarRepository.flush w) as [[[]|e] w']; simpl; [done|discriminate].
Qed.

Lemma service_flush_cases w :
  (fst (RentalService.flush w) = Ok true
   /\ fst (CarRepository.flush w) = Ok tt)
  \/ (exists e, fst (RentalService.flush w) = Throw e
                /\ fst (CarRepository.flush w) = Throw e).
Proof.
  unfold RentalService.flush.
  destruct (CarRepository.flush w) as [[[]|e] w']; simpl; eauto.
Qed.

Lemma service_flush_world w :
  snd (RentalService.flush w) = snd (CarRepository.flush w).
Proof.
  unfold RentalService.flush.
  by destruct (CarRepository.flush w) as [[[]|e] w'].
Qed.

(** [rentCar] on a car that is there and available: the status is
    replaced in the cache, then the repository is flushed. *)
Lemma rentCar_available carId userId a w c :
  find carId (repository w) = Some c -> status c = "Available" ->
  rentCar carId userId a w
  = (fst (RentalService.flush (with_record carId (rented_by userId c) w)),
     pricePerDay c,
     snd (RentalService.flush (with_record carId (rented_by userId c) w))).
Proof.
  intros Hf Hs. unfold rentCar. rewrite Hf, Hs. simpl.
  rewrite (update_found _ _ _ _ Hf).
  unfold with_record, rented_by.
  by destruct (RentalService.flush _).
Qed.

Lemma rentCar_missing carId userId a w :
  find carId (repository w) = None ->
  rentCar carId userId a w = (Ok false, a, w).
Proof. intros Hf. unfold rentCar. by rewrite Hf. Qed.

Lemma rentCar_taken carId userId a w c :
  find carId (repository w) = Some c -> status c <> "Available" ->
  rentCar carId userId a w = (Ok false, a, w).
Proof.
  intros Hf Hs. unfold rentCar. rewrite Hf.
  apply String.eqb_neq in Hs. by rewrite Hs.
Qed.

Lemma returnCar_missing carId w :
  find carId (repository w) = None -> returnCar carId w = (Ok false, w).
Proof.
  intros Hf. unfold returnCar. rewrite (update_missing _ _ _ Hf). simpl.
  by rewrite with_repository_same.
Qed.

Lemma returnCar_found carId w c :
  find carId (repository w) = Some c ->
  returnCar carId w
  = RentalService.flush (with_record carId (set_status "Available" c) w).
Proof.
  intros Hf. unfold returnCar. by rewrite (update_found _ _ _ _ Hf).
Qed.

Lemma with_record_dirty carId c w :
  dirty_ (repository (with_record carId c w)) = true.
Proof. done. Qed.

(** The flush after a change of the cache: what it leaves. *)
Lemma flush_with_record carId c w :
  records_ (repository (snd (CarRepository.flush (with_record carId c w))))
  = <[carId := c]> (records_ (repository w))
  /\ persist_calls (snd (CarRepository.flush (with_record carId c w)))
     = persist_calls w ++ [all (repository (with_record carId c w))]
  /\ (fst (CarRepository.flush (with_record carId c w)) = Ok tt ->
      dirty_ (repository (snd (CarRepository.flush (with_record carId c w))))
      = false)
  /\ (forall e,
         fst (CarRepository.flush (with_record carId c w)) = Throw e ->
         dirty_ (repository (snd (CarRepository.flush (with_record carId c w))))
         = true).
Proof.
  destruct (flush_dirty (with_record carId c w) (with_record_dirty carId c w))
    as (Hc & Hr & Hok & Hthrow).
  done.
Qed.

(** *** Soundness is kept *)

Lemma cache_valid_insert (m : gmap string CarRecord) k x :
  cache_valid m -> CarRecordValidator.validate x = true ->
  cache_valid (<[k := x]> m).
Proof. intros Hm Hx. by apply map_Forall_insert_2. Qed.

Lemma keys_are_ids_insert (m : gmap string CarRecord) x :
  keys_are_ids m -> keys_are_ids (<[id x := x]> m).
Proof. intros Hm. by apply map_Forall_insert_2. Qed.

Lemma sound_with_record carId c s w :
  sound w -> find carId (repository w) = Some c ->
  sound (with_record carId (set_status s c) w).
Proof.
  intros [Hs Hk] Hf. unfold find in Hf. split.
  - unfold persist_safe in *. simpl.
    destruct (backend_ (repository w)); [|done].
    destruct Hs as [Hl Hv]. split; [done|].
    apply cache_valid_insert; [done|]. rewrite validate_set_status.
    by apply (Hv carId c).
  - simpl. pose proof (Hk carId c Hf) as Hid.
    replace carId with (id (set_status s c)) by done.
    by apply keys_are_ids_insert.
Qed.

Lemma sound_flush w :
  sound w ->
  fst (CarRepository.flush w) = Ok tt /\ sound (snd (CarRepository.flush w)).
Proof.
  intros [Hs Hk]. destruct (flush_safe w Hs) as [Hok Hs'].
  split; [done|]. split; [done|]. by rewrite flush_records.
Qed.

Lemma sound_service_flush w :
  sound w ->
  fst (RentalService.flush w) = Ok true /\ sound (snd (RentalService.flush w)).
Proof.
  intros Hs. destruct (sound_flush w Hs) as [Hok Hs'].
  rewrite (service_flush_ok w Hok). done.
Qed.

Lemma sound_bulkUpsert rs w :
  sound w -> Forall (fun r => CarRecordValidator.validate r = true) rs ->
  sound (BatchProcessor.with_repository (bulkUpsert rs (repository w)) w).
Proof.
  intros [Hs Hk] Hrs. split.
  - unfold persist_safe in *. simpl.
    destruct (backend_ (repository w)); [|done].
    destruct Hs as [Hl Hv]. split; [done|]. by apply cache_valid_fold.
  - simpl. by apply keys_are_ids_fold.
Qed.

Lemma sound_rentCar carId userId a w :
  sound w ->
  (exists b, fst (fst (rentCar carId userId a w)) = Ok b)
  /\ sound (snd (rentCar carId userId a w)).
Proof.
  intros Hs. destruct (find carId (repository w)) as [c|] eqn:Hf.
  - destruct (decide (status c = "Available")) as [Ha|Ha].
    + rewrite (rentCar_available _ _ _ _ _ Hf Ha). simpl.
      destruct (sound_service_flush _ (sound_with_record carId c
                  ("Rented by the user ID: " +:+ userId) w Hs Hf)) as [Hok Hs'].
      split; [by exists true|done].
    + rewrite (rentCar_taken _ _ _ _ _ Hf Ha). split; [by exists false|done].
  - rewrite (rentCar_missing _ _ _ _ Hf). split; [by exists false|done].
Qed.

Lemma sound_returnCar carId w :
  sound w ->
  (exists b, fst (returnCar carId w) = Ok b) /\ sound (snd (returnCar carId w)).
Proof.
  intros Hs. destruct (find carId (repository w)) as [c|] eqn:Hf.
  - rewrite (returnCar_found _ _ _ Hf).
    destruct (sound_service_flush _ (sound_with_record carId c "Available" w Hs Hf))
      as [Hok Hs'].
    split; [by exists true|done].
  - rewrite (returnCar_missing _ _ Hf). split; [by exists false|done].
Qed.

Lemma sound_ingest rs w :
  sound w -> Forall (fun r => CarRecordValidator.validate r = true) rs ->
  fst (ingest rs w) = Ok tt /\ sound (snd (ingest rs w)).
Proof. intros Hs Hrs. by apply sound_flush, sound_bulkUpsert. Qed.

Lemma addCar_new record w :
  find (id record) (repository w) = None ->
  addCar record w = ingest [record] w.
Proof.
  intros Hf. unfold addCar, ingest, upsert, bulkUpsert. rewrite Hf. simpl.
  by rewrite orb_true_r.
Qed.

Lemma addCar_known record w c :
  find (id record) (repository w) = Some c ->
  addCar record w
  = (Throw (runtime_error ("Car with id " +:+ id record +:+ " already exists")),
     w).
Proof. intros Hf. unfold addCar. by rewrite Hf. Qed.

(** X7.  [rentCar] answers [false] exactly when the car is unknown or its
    status is not ["Available"]; it then changes nothing: neither the
    repository, nor the backend, nor the amount due of the caller. *)
Theorem X7_rent_refused (carId userId : string) (a : Double.double) (w : World) :
  (find carId (repository w) = None
   \/ (exists c, find carId (repository w) = Some c /\ status c <> "Available")
   -> rentCar carId userId a w = (Ok false, a, w))
  /\ (fst (fst (rentCar carId userId a w)) = Ok false ->
      find carId (repository w) = None
      \/ exists c, find carId (repository w) = Some c /\ status c <> "Available").
Proof.
  split.
  - intros [Hf|(c & Hf & Hs)]; [by apply rentCar_missing|by eapply rentCar_taken].
  - intros Hres. destruct (find carId (repository w)) as [c|] eqn:Hf; [|by left].
    right. exists c. split; [done|]. intros Ha.
    rewrite (rentCar_available _ _ _ _ _ Hf Ha) in Hres. simpl in Hres.
    destruct (service_flush_cases (with_record carId (rented_by userId c) w))
      as [[H _]|(e & H & _)]; congruence.
Qed.

Lemma X7_rent_refused_witness :
  rentCar "car-999" "u1" Double.zero Sample.fleet
  = (Ok false, Double.zero, Sample.fleet).
Proof.
  apply (X7_rent_refused "car-999" "u1" Double.zero Sample.fleet).
  left. reflexivity.
Defined.

(** X8.  [rentCar] on an available car: the amount due is the price of
    the car per day; in the cache the car has the status
    ["Rented by the user ID: "] followed by the user id and is otherwise
    unchanged, and no other car is touched.  Where no flush can throw the
    answer is [true], the change is saved and the backend has received the
    new snapshot.  When the flush throws, the exception leaves [rentCar]
    with the car already marked as rented in the cache and the change
    unsaved. *)
Theorem X8_rent_effect (carId userId : string) (a : Double.double)
    (w : World) (c : CarRecord) :
  find carId (repository w) = Some c -> status c = "Available" ->
  snd (fst (rentCar carId userId a w)) = pricePerDay c
  /\ records_ (repository (snd (rentCar carId userId a w)))
     = <[carId := rented_by userId c]> (records_ (repository w))
  /\ persist_calls (snd (rentCar carId userId a w))
     = persist_calls w
         ++ [all (repository (with_record carId (rented_by userId c) w))]
  /\ (persist_safe w -> cache_valid (records_ (repository w)) ->
      fst (fst (rentCar carId userId a w)) = Ok true
      /\ dirty_ (repository (snd (rentCar carId userId a w))) = false)
  /\ (forall e, fst (fst (rentCar carId userId a w)) = Throw e ->
                dirty_ (repository (snd (rentCar carId userId a w))) = true).
Proof.
  intros Hf Ha. rewrite (rentCar_available _ _ _ _ _ Hf Ha). simpl.
  rewrite service_flush_world.
  destruct (flush_with_record carId (rented_by userId c) w)
    as (Hr & Hc & Hok & Hthrow).
  split; [done|]. split; [done|]. split; [done|]. split.
  - intros Hs Hv.
    assert (persist_safe (with_record carId (rented_by userId c) w)) as Hs1.
    { unfold persist_safe in *. simpl.
      destruct (backend_ (repository w)); [|done].
      destruct Hs as [Hl _]. split; [done|].
      apply cache_valid_insert; [done|].
      unfold rented_by. rewrite validate_set_status. by apply (Hv carId c). }
    destruct (flush_safe _ Hs1) as [Hflush _].
    rewrite (service_flush_ok _ Hflush). simpl. split; [done|]. by apply Hok.
  - intros e He. apply (Hthrow e).
    destruct (service_flush_cases (with_record carId (rented_by userId c) w))
      as [[H _]|(e' & H & H')]; congruence.
Qed.

Lemma fleet_valid : cache_valid (records_ (repository Sample.fleet)).
Proof.
  intros k x Hx. by apply (fleet_storable k x Hx).
Qed.

Lemma fleet_safe : persist_safe Sample.fleet.
Proof.
  unfold persist_safe. simpl. split; [apply not_elem_of_empty|].
  apply fleet_valid.
Qed.

Lemma fleet_sound : sound Sample.fleet.
Proof. split; [apply fleet_safe | apply fleet_keys]. Qed.

Lemma X8_rent_effect_witness :
  snd (fst (rentCar "c1" "u1" Double.zero Sample.fleet)) = Double.of_Z 2500
  /\ find "c1" (repository (snd (rentCar "c1" "u1" Double.zero Sample.fleet)))
     = Some (mkCarRecord "c1" "Civic" "good" (Double.of_Z 2500)
               "Rented by the user ID: u1").
Proof.
  destruct (X8_rent_effect "c1" "u1" Double.zero Sample.fleet Sample.c1)
    as (Hdue & Hcache & _).
  - reflexivity.
  - reflexivity.
  - split; [exact Hdue|]. unfold find. rewrite Hcache.
    apply lookup_insert_eq.
Defined.

(** X9.  A car cannot be rented twice: after a [rentCar] that answered
    [true], every further [rentCar] of the same car, by whatever user,
    answers [false] and changes nothing. *)
Theorem X9_no_double_rent (carId userId : string) (a a' : Double.double)
    (w w' : World) :
  rentCar carId userId a w = (Ok true, a', w') ->
  forall userId2 a2, rentCar carId userId2 a2 w' = (Ok false, a2, w').
Proof.
  intros Hrent userId2 a2.
  destruct (find carId (repository w)) as [c|] eqn:Hf;
    [|by rewrite (rentCar_missing _ _ _ _ Hf) in Hrent].
  destruct (decide (status c = "Available")) as [Ha|Ha];
    [|by rewrite (rentCar_taken _ _ _ _ _ Hf Ha) in Hrent].
  rewrite (rentCar_available _ _ _ _ _ Hf Ha) in Hrent.
  injection Hrent as _ _ Hw.
  rewrite service_flush_world in Hw.
  apply (rentCar_taken _ _ _ _ (rented_by userId c)).
  - unfold find. rewrite <- Hw.
    destruct (flush_with_record carId (rented_by userId c) w) as (-> & _).
    apply lookup_insert_eq.
  - simpl. discriminate.
Qed.

Lemma fleet_rent_c1 :
  fst (fst (rentCar "c1" "u1" Double.zero Sample.fleet)) = Ok true.
Proof.
  destruct (sound_rentCar "c1" "u1" Double.zero Sample.fleet fleet_sound)
    as [[b Hb] _].
  rewrite Hb. f_equal. destruct b; [done|]. exfalso.
  assert (find "c1" (repository Sample.fleet) = Some Sample.c1) as Hf
    by reflexivity.
  rewrite (rentCar_available "c1" "u1" _ _ _ Hf eq_refl) in Hb. simpl in Hb.
  destruct (service_flush_cases (with_record "c1" (rented_by "u1" Sample.c1)
                                   Sample.fleet))
    as [[H _]|(e & H & _)]; congruence.
Qed.

Lemma X9_no_double_rent_witness :
  rentCar "c1" "u2" Double.zero
    (snd (rentCar "c1" "u1" Double.zero Sample.fleet))
  = (Ok false, Double.zero, snd (rentCar "c1" "u1" Double.zero Sample.fleet)).
Proof.
  apply (X9_no_double_rent "c1" "u1" Double.zero
           (snd (fst (rentCar "c1" "u1" Double.zero Sample.fleet)))
           Sample.fleet).
  pose proof fleet_rent_c1 as H.
  destruct (rentCar "c1" "u1" Double.zero Sample.fleet) as [[res due] w'].
  simpl in *. by subst res.
Defined.

(** X10.  Renting a car and returning it leaves the repository as it was:
    after a [rentCar] that answered [true], [returnCar] of the same car
    answers [true] wherever no flush can throw, and the cache is the cache
    of before the rental. *)
Theorem X10_rent_then_return (carId userId : string) (a a' : Double.double)
    (w w' : World) :
  rentCar carId userId a w = (Ok true, a', w') ->
  records_ (repository (snd (returnCar carId w'))) = records_ (repository w)
  /\ (sound w -> fst (returnCar carId w') = Ok true).
Proof.
  intros Hrent.
  destruct (find carId (repository w)) as [c|] eqn:Hf;
    [|by rewrite (rentCar_missing _ _ _ _ Hf) in Hrent].
  destruct (decide (status c = "Available")) as [Ha|Ha];
    [|by rewrite (rentCar_taken _ _ _ _ _ Hf Ha) in Hrent].
  pose proof (sound_rentCar carId userId a w) as Hsound.
  rewrite (rentCar_available _ _ _ _ _ Hf Ha) in Hrent, Hsound.
  injection Hrent as _ _ Hw. simpl in Hsound.
  rewrite service_flush_world in Hw.
  assert (find carId (repository w') = Some (rented_by userId c)) as Hf'.
  { unfold find. rewrite <- Hw.
    destruct (flush_with_record carId (rented_by userId c) w) as (-> & _).
    apply lookup_insert_eq. }
  rewrite (returnCar_found _ _ _ Hf'). rewrite service_flush_world.
  split.
  - destruct (flush_with_record carId (set_status "Available" (rented_by userId c)) w')
      as (-> & _).
    rewrite <- Hw.
    destruct (flush_with_record carId (rented_by userId c) w) as (-> & _).
    rewrite insert_insert_eq.
    replace (set_status "Available" (rented_by userId c)) with c.
    + by apply insert_id.
    + rewrite <- Ha at 1. by destruct c.
  - intros Hs. destruct (Hsound Hs) as [_ Hs'].
    rewrite service_flush_world, Hw in Hs'.
    by apply sound_service_flush, sound_with_record.
Qed.

Lemma X10_rent_then_return_witness :
  records_ (repository
              (snd (returnCar "c1"
                      (snd (rentCar "c1" "u1" Double.zero Sample.fleet)))))
  = records_ (repository Sample.fleet).
Proof.
  apply (X10_rent_then_return "c1" "u1" Double.zero
           (snd (fst (rentCar "c1" "u1" Double.zero Sample.fleet)))
           Sample.fleet).
  pose proof fleet_rent_c1 as H.
  destruct (rentCar "c1" "u1" Double.zero Sample.fleet) as [[res due] w'].
  simpl in *. by subst res.
Defined.

(** X11.  [addCar] never replaces a car: for an id that is in the
    repository it throws and changes nothing.  For a new id it stores the
    record without validating it and flushes: the repository has one car
    more; the call returns where no flush can throw and the record is
    valid; and with a file backend a record that the validator rejects
    makes the flush throw after the record has entered the cache, where it
    stays, unsaved, with the file system untouched. *)
Theorem X11_addCar (record : CarRecord) (w : World) :
  (forall c, find (id record) (repository w) = Some c ->
             addCar record w
             = (Throw (runtime_error
                         ("Car with id " +:+ id record +:+ " already exists")),
                w))
  /\ (find (id record) (repository w) = None ->
      find (id record) (repository (snd (addCar record w))) = Some record
      /\ (forall i, i <> id record ->
                    find i (repository (snd (addCar record w)))
                    = find i (repository w))
      /\ RentalService.totalRecords (snd (addCar record w))
         = S (RentalService.totalRecords w)
      /\ (sound w -> CarRecordValidator.validate record = true ->
          fst (addCar record w) = Ok tt /\ sound (snd (addCar record w)))
      /\ (forall path,
             backend_ (repository w) = FileStorageBackend path ->
             CarRecordValidator.validate record = false ->
             (exists e, fst (addCar record w) = Throw e)
             /\ dirty_ (repository (snd (addCar record w))) = true
             /\ disk (snd (addCar record w)) = disk w)).
Proof.
  split; [intros c Hf; by eapply addCar_known|].
  intros Hf. rewrite (addCar_new _ _ Hf). unfold ingest.
  set (w1 := BatchProcessor.with_repository
               (bulkUpsert [record] (repository w)) w).
  assert (records_ (repository (snd (CarRepository.flush w1)))
          = <[id record := record]> (records_ (repository w))) as Hrec.
  { by rewrite flush_records. }
  split; [unfold find; rewrite Hrec; apply lookup_insert_eq|].
  split; [intros i Hi; unfold find; rewrite Hrec; by apply lookup_insert_ne|].
  split.
  { unfold RentalService.totalRecords, CarRepository.totalRecords.
    rewrite Hrec. by apply map_size_insert_None. }
  split.
  { intros Hs Hv. apply (sound_ingest [record] w Hs). by repeat constructor. }
  intros path Hb Hv.
  assert (~ cache_valid (records_ (repository w1))) as Hbad.
  { intros Hall. specialize (Hall (id record) record). simpl in Hall.
    unfold store in Hall. rewrite lookup_insert_eq in Hall.
    specialize (Hall eq_refl). congruence. }
  assert (dirty_ (repository w1) = true) as Hd.
  { simpl. apply orb_true_r. }
  destruct (flush_rejected w1 path Hb Hd Hbad) as (before & bad & after & _ & _ & _ & ->).
  simpl. split; [by eexists|done].
Qed.

Lemma X11_addCar_witness :
  addCar Sample.c1 Sample.fleet
  = (Throw (runtime_error "Car with id c1 already exists"), Sample.fleet)
  /\ (exists e, fst (addCar Sample.broken Sample.fleet) = Throw e)
  /\ find "x" (repository (snd (addCar Sample.broken Sample.fleet)))
     = Some Sample.broken.
Proof.
  destruct (X11_addCar Sample.c1 Sample.fleet) as [Hdup _].
  destruct (X11_addCar Sample.broken Sample.fleet) as [_ Hnew].
  destruct Hnew as (Hfind & _ & _ & _ & Hbad); [reflexivity|].
  split; [exact (Hdup Sample.c1 eq_refl)|].
  split; [|exact Hfind].
  apply (Hbad "cars.txt"); [reflexivity | vm_compute; reflexivity].
Defined.

(** X12.  A sound repository (no flush can throw: in-memory backend, or
    file backend with an openable temporary file and valid cached records;
    every record filed under its id) stays sound under the calls of the
    service, and none of them throws: [rentCar] and [returnCar] answer,
    [save] and [ingest] of valid records return, and [addCar] of a valid
    record returns unless the id is taken. *)
Theorem X12_service_keeps_sound (w : World) :
  sound w ->
  (forall carId userId a,
      (exists b, fst (fst (rentCar carId userId a w)) = Ok b)
      /\ sound (snd (rentCar carId userId a w)))
  /\ (forall carId,
         (exists b, fst (returnCar carId w) = Ok b)
         /\ sound (snd (returnCar carId w)))
  /\ (fst (save w) = Ok tt /\ sound (snd (save w)))
  /\ (forall rs,
         Forall (fun r => CarRecordValidator.validate r = true) rs ->
         fst (ingest rs w) = Ok tt /\ sound (snd (ingest rs w)))
  /\ (forall record,
         CarRecordValidator.validate record = true ->
         sound (snd (addCar record w))
         /\ (find (id record) (repository w) = None ->
             fst (addCar record w) = Ok tt)).
Proof.
  intros Hs. split; [intros; by apply sound_rentCar|].
  split; [intros; by apply sound_returnCar|].
  split; [by apply sound_flush|]. split; [intros; by apply sound_ingest|].
  intros record Hv.
  destruct (find (id record) (repository w)) as [c|] eqn:Hf.
  - rewrite (addCar_known _ _ _ Hf). done.
  - rewrite (addCar_new _ _ Hf).
    destruct (sound_ingest [record] w Hs) as [Hok Hs'];
      [by repeat constructor|].
    done.
Qed.

Lemma X12_service_keeps_sound_witness :
  fst (save Sample.fleet) = Ok tt
  /\ exists b, fst (returnCar "c1" Sample.fleet) = Ok b.
Proof.
  destruct (X12_service_keeps_sound Sample.fleet fleet_sound)
    as (_ & Hreturn & Hsave & _).
  split; [exact (proj1 Hsave) | exact (proj1 (Hreturn "c1"))].
Defined.
End ServiceFacts.

(** ** What ingestion leaves in the repository *)

Section IngestCache.
Import BatchProcessor CarFilePipeline CarRepository Spec.

Lemma all_records r r' : records_ r = records_ r' -> all r = all r'.
Proof. unfold all. by intros ->. Qed.

(** A chunk that is not empty, committed where no flush can throw. *)
Lemma commit_saved rs w :
  rs <> [] -> persist_safe w ->
  Forall (fun r => CarRecordValidator.validate r = true) rs ->
  fst (commit rs w) = Ok tt
  /\ persist_safe (snd (commit rs w))
  /\ records_ (repository (snd (commit rs w)))
     = fold_left store rs (records_ (repository w))
  /\ dirty_ (repository (snd (commit rs w))) = false
  /\ last (persist_calls (snd (commit rs w)))
     = Some (all (repository (snd (commit rs w)))).
Proof.
  intros Hne Hs Hrs. destruct (commit_safe rs w Hs Hrs) as [Hok Hs'].
  unfold commit in *.
  set (w1 := with_repository (bulkUpsert rs (repository w)) w) in *.
  assert (dirty_ (repository w1) = true) as Hd.
  { simpl. rewrite bool_decide_eq_false_2 by done. apply orb_true_r. }
  destruct (flush_dirty w1 Hd) as (Hc & Hr & Hclean & _).
  split; [done|]. split; [done|]. split; [by rewrite Hr|].
  split; [by apply Hclean|].
  rewrite Hc, last_snoc. f_equal. by apply all_records.
Qed.

Lemma ingesting_step c w0 seen st r :
  c <> 0%N -> CarRecordValidator.validate r = true ->
  ingesting w0 seen st ->
  ingesting w0 (seen ++ [r]) (deliver (consumer c) st r).
Proof.
  intros Hc Hr [Hsafe Hvalid Hcache Hstart Hsaved].
  assert (Forall (fun r => CarRecordValidator.validate r = true)
            (buffer st ++ [r])) as Hvalid1.
  { apply Forall_app. split; [done | by constructor]. }
  assert (fold_left store (buffer st ++ [r])
            (records_ (repository (world st)))
          = fold_left store (seen ++ [r]) (records_ (repository w0))) as Hcache1.
  { rewrite !fold_left_app. simpl. by rewrite Hcache. }
  unfold deliver, consumer.
  destruct (c <=? N.of_nat (length (buffer st ++ [r])))%N.
  - destruct (commit_saved (buffer st ++ [r]) (world st))
      as (Hok & Hsafe' & Hrec & Hclean & Hlast); [by destruct (buffer st)|done|done|].
    destruct (commit (buffer st ++ [r]) (world st)) as [[[]|e] w'];
      simpl in *; [|done].
    split; simpl.
    + done.
    + constructor.
    + by rewrite Hrec.
    + intros H. by destruct seen.
    + done.
  - split; simpl.
    + done.
    + done.
    + done.
    + intros H. by destruct seen.
    + intros _ H. by destruct (buffer st).
Qed.

Lemma ingesting_fold c w0 rs seen st :
  c <> 0%N -> Forall (fun r => CarRecordValidator.validate r = true) rs ->
  ingesting w0 seen st ->
  ingesting w0 (seen ++ rs) (fold_left (deliver (consumer c)) rs st).
Proof.
  intros Hc Hrs. revert seen st.
  induction Hrs as [|r rs Hr _ IH]; intros seen st Hst; simpl.
  - by rewrite app_nil_r.
  - replace (seen ++ r :: rs) with ((seen ++ [r]) ++ rs)
      by (by rewrite <- app_assoc).
    by apply IH, ingesting_step.
Qed.

Lemma ingesting_streamed path c w :
  c <> 0%N -> persist_safe w ->
  ingesting w (parsed (source_lines (disk w) path)) (streamed path c w).
Proof.
  intros Hc Hs. unfold streamed.
  apply (ingesting_fold c w _ []); [done | apply parsed_valid|].
  by split.
Qed.

Lemma ingest_leaves path c w :
  c <> 0%N -> (c <= max_size)%N -> readable (disk w) path -> persist_safe w ->
  records_ (repository (snd (ingest path c w)))
  = fold_left store (parsed (source_lines (disk w) path))
      (records_ (repository w))
  /\ (parsed (source_lines (disk w) path) = [] -> snd (ingest path c w) = w)
  /\ (parsed (source_lines (disk w) path) <> [] ->
      dirty_ (repository (snd (ingest path c w))) = false
      /\ last (persist_calls (snd (ingest path c w)))
         = Some (all (repository (snd (ingest path c w))))).
Proof.
  intros Hc Hmax Hr Hs. rewrite ingest_readable by done.
  destruct (ingesting_streamed path c w Hc Hs)
    as [Hsafe Hvalid Hcache Hstart Hsaved].
  set (rs := parsed (source_lines (disk w) path)) in *.
  unfold finish. destruct (buffer (streamed path c w)) as [|r buf] eqn:Hbuf.
  - simpl in *. split; [done|]. split; [done|]. intros Hne. by apply Hsaved.
  - destruct (commit_saved (r :: buf) (world (streamed path c w)))
      as (Hok & _ & Hrec & Hclean & Hlast); [done|done|done|].
    destruct (commit (r :: buf) (world (streamed path c w))) as [[[]|e] w'];
      simpl in *; [|done].
    split; [by rewrite Hrec|]. split; [|done].
    intros Hnil. rewrite Hnil in Hcache. simpl in Hcache.
    specialize (Hstart Hnil).
    (* no record was seen, so nothing can be buffered *)
    exfalso. clear -Hbuf Hnil Hc.
    unfold streamed in Hbuf. fold rs in Hbuf. rewrite Hnil in Hbuf.
    simpl in Hbuf. discriminate.
Qed.

(** X13.  On a source that can be opened, with a repository whose flushes
    cannot throw and a chunk size from one to the largest size of a vector
    of records, [ingest] leaves in the cache the records of the lines that
    parse, stored in file order over what the cache held, so that an id
    maps to the last valid line that carries it; this does not depend on
    the chunk size.  When at least one line parses nothing stays unsaved
    and the last snapshot handed to the backend is the final one; when
    none parses nothing is touched at all.  With any other chunk size
    [ingest] throws and nothing is touched. *)
Theorem X13_ingest_leaves (w : World) (path : string) (chunkSize : size_t) :
  readable (disk w) path -> persist_safe w ->
  (chunkSize <> 0%N -> (chunkSize <= max_size)%N ->
   records_ (repository (snd (ingest path chunkSize w)))
   = fold_left store (parsed (source_lines (disk w) path))
       (records_ (repository w))
   /\ (forall i,
          find i (repository (snd (ingest path chunkSize w)))
          = match last_written i (parsed (source_lines (disk w) path)) with
            | Some x => Some x
            | None => find i (repository w)
            end)
   /\ (parsed (source_lines (disk w) path) = [] ->
       snd (ingest path chunkSize w) = w)
   /\ (parsed (source_lines (disk w) path) <> [] ->
       dirty_ (repository (snd (ingest path chunkSize w))) = false
       /\ last (persist_calls (snd (ingest path chunkSize w)))
          = Some (all (repository (snd (ingest path chunkSize w))))))
  /\ (chunkSize = 0%N \/ (max_size < chunkSize)%N ->
      snd (ingest path chunkSize w) = w
      /\ exists e, fst (ingest path chunkSize w) = Throw e).
Proof.
  intros Hr Hs. split.
  - intros Hc Hmax.
    destruct (ingest_leaves path chunkSize w Hc Hmax Hr Hs) as (Hrec & Hnil & Hne).
    split; [done|]. split; [|done].
    intros i. unfold find. rewrite Hrec. apply lookup_fold_store.
  - intros [->|Hbig].
    + split; [done | by eexists].
    + rewrite ingest_oversized by done. split; [done | by eexists].
Qed.

Lemma X13_ingest_leaves_witness :
  records_ (repository (snd (ingest "in.csv" 1%N (Sample.in_memory Sample.three_lines))))
  = records_ (repository (snd (ingest "in.csv" 256%N
                                 (Sample.in_memory Sample.three_lines))))
  /\ snd (ingest "in.csv" 18446744073709551615%N
            (Sample.in_memory Sample.three_lines))
     = Sample.in_memory Sample.three_lines.
Proof.
  destruct (X13_ingest_leaves (Sample.in_memory Sample.three_lines) "in.csv" 1%N)
    as [H1 _]; [apply sample_readable | exact I |].
  destruct H1 as (H1 & _); [discriminate | unfold max_size; lia |].
  destruct (X13_ingest_leaves (Sample.in_memory Sample.three_lines) "in.csv" 256%N)
    as [H256 _]; [apply sample_readable | exact I |].
  destruct H256 as (H256 & _); [discriminate | unfold max_size; lia |].
  destruct (X13_ingest_leaves (Sample.in_memory Sample.three_lines) "in.csv"
              18446744073709551615%N)
    as [_ Hbig]; [apply sample_readable | exact I |].
  destruct Hbig as [Hbig _]; [right; unfold max_size; lia|].
  split; [exact (eq_trans H1 (eq_sym H256)) | exact Hbig].
Defined.
End IngestCache.

(** ** The synthetic data set *)

Section RoundFacts.
Import Double Spec.

Lemma digits2_size m : digits2_pos m = Pos.size m.
Proof. induction m as [m IH|m IH|]; simpl; by rewrite ?IH. Qed.

(** A mantissa of 53 binary digits. *)
Lemma mantissa_bounds m :
  Z.pos (digits2_pos m) = 53 -> 2 ^ 52 <= Z.pos m < 2 ^ 53.
Proof.
  rewrite digits2_size. intros H.
  assert (Pos.size m = 53%positive) as Hs by lia.
  pose proof (Pos.size_gt m) as Hgt. pose proof (Pos.size_le m) as Hle.
  rewrite Hs in Hgt, Hle.
  apply Pos2Z.pos_lt_pos in Hgt. apply Pos2Z.pos_le_pos in Hle.
  rewrite Pos2Z.inj_pow in Hgt, Hle. lia.
Qed.

Lemma of_Z_1800 : of_Z 1800 = S754_finite false 7916483719987200 (-42).
Proof. vm_compute. reflexivity. Qed.

Lemma of_Z_7500 : of_Z 7500 = S754_finite false 8246337208320000 (-40).
Proof. vm_compute. reflexivity. Qed.

Lemma round_fraction m e :
  e < 0 ->
  round (S754_finite false m e)
  = fst (of_rational false
           (if 2 ^ (- e) <=? 2 * (Z.pos m mod 2 ^ (- e))
            then Z.pos m / 2 ^ (- e) + 1 else Z.pos m / 2 ^ (- e)) 1).
Proof. intros H. unfold round. apply Z.ltb_lt in H. by rewrite H. Qed.

(** Rounding [p/d] to the nearest integer stays between integer bounds. *)
Lemma nearest_bounds p d lo hi :
  0 < d -> lo * d <= p <= hi * d ->
  lo <= (if d <=? 2 * (p mod d) then p / d + 1 else p / d) <= hi.
Proof.
  intros Hd Hp.
  pose proof (Z.div_mod p d ltac:(lia)) as Hdm.
  pose proof (Z.mod_pos_bound p d Hd) as Hr.
  destruct (Z.leb_spec d (2 * (p mod d))); nia.
Qed.

Lemma of_Z_positive k : 0 < k -> fst (of_rational false k 1) = of_Z k.
Proof.
  intros Hk. unfold of_Z.
  assert ((k <? 0) = false) as -> by lia. by rewrite Z.abs_eq by lia.
Qed.

(** [std::round] of a value of the price distribution is an integer
    between the bounds of the distribution. *)
Lemma round_drawn x :
  drawn x = true -> exists k, 1800 <= k <= 7500 /\ round x = of_Z k.
Proof.
  unfold drawn, is_double, le. rewrite of_Z_1800, of_Z_7500. intros H.
  apply andb_prop in H as [H Hhi]. apply andb_prop in H as [Hval Hlo].
  destruct x as [s|s| |s m e]; try discriminate;
    try (destruct s; discriminate).
  destruct s; [discriminate|].
  unfold SFleb, SFcompare in Hlo, Hhi.
  simpl in Hval.
  unfold bounded, canonical_mantissa, fexp, SpecFloat.emin, prec, emax in Hval.
  apply andb_prop in Hval as [Hcan _]. apply Z.eqb_eq in Hcan.
  assert (-42 <= e <= -40
          /\ (e = -42 -> 7916483719987200 <= Z.pos m)
          /\ (e = -40 -> Z.pos m <= 8246337208320000)) as (He & Hm1 & Hm2).
  { destruct (Z.compare_spec (-42) e) as [He1|He1|He1]; [| |discriminate];
      destruct (Z.compare_spec e (-40)) as [He2|He2|He2]; try discriminate;
      try lia.
    - split; [lia|]. split; [|lia]. intros _.
      destruct (PosDef.Pos.compare_cont Eq 7916483719987200 m) eqn:Hcmp;
        [| |discriminate].
      + apply Pos.compare_eq in Hcmp. by subst m.
      + assert (7916483719987200 < m)%positive as Hlt.
        { apply Pos.compare_lt_iff. exact Hcmp. }
        apply Pos2Z.pos_lt_pos in Hlt. clear -Hlt. lia.
    - split; [lia|]. split; [lia|]. intros _.
      destruct (PosDef.Pos.compare_cont Eq m 8246337208320000) eqn:Hcmp;
        [| |discriminate].
      + apply Pos.compare_eq in Hcmp. by subst m.
      + assert (m < 8246337208320000)%positive as Hlt.
        { apply Pos.compare_lt_iff. exact Hcmp. }
        apply Pos2Z.pos_lt_pos in Hlt. clear -Hlt. lia. }
  clear Hlo Hhi.
  assert (Z.pos (digits2_pos m) = 53) as Hd by lia.
  apply mantissa_bounds in Hd.
  rewrite round_fraction by lia.
  assert (e = -42 \/ e = -41 \/ e = -40) as [->|[->| ->]] by lia.
  - change (2 ^ (- -42)) with 4398046511104.
    pose proof (nearest_bounds (Z.pos m) 4398046511104 1800 2048) as Hk.
    eexists. split; [|apply of_Z_positive]; lia.
  - change (2 ^ (- -41)) with 2199023255552.
    pose proof (nearest_bounds (Z.pos m) 2199023255552 2048 4096) as Hk.
    eexists. split; [|apply of_Z_positive]; lia.
  - change (2 ^ (- -40)) with 1099511627776.
    pose proof (nearest_bounds (Z.pos m) 1099511627776 4096 7500) as Hk.
    eexists. split; [|apply of_Z_positive]; lia.
Qed.
End RoundFacts.

Section GeneratorFacts.
Import SyntheticDatasetGenerator CarFilePipeline CarRepository Spec.

(** *** The decimal text of a number *)

Lemma digit_differs c delim :
  is_digit c = true -> is_digit delim = false ->
  negb (Ascii.eqb c delim) = true.
Proof.
  intros Hc Hd. apply negb_true_iff, Ascii.eqb_neq. intros ->. congruence.
Qed.

Lemma string_of_uint_free delim d :
  is_digit delim = false ->
  Text.free_of delim (NilEmpty.string_of_uint d) = true.
Proof.
  intros Hd. induction d as [|d IH|d IH|d IH|d IH|d IH|d IH|d IH|d IH|d IH|d IH];
    cbn [NilEmpty.string_of_uint Text.free_of]; [done|..];
    rewrite IH, andb_true_r; by apply digit_differs.
Qed.

Lemma to_string_inj n m : to_string n = to_string m -> n = m.
Proof.
  unfold to_string. intros H. apply Unsigned.to_uint_inj.
  assert (Some (N.to_uint n) = Some (N.to_uint m)) as [= Heq]; [|done].
  by rewrite <- !NilEmpty.usu, H.
Qed.

(** *** The records *)

Lemma nth_modulo (l : list string) i :
  l <> [] -> In (nth (i mod length l) l EmptyString) l.
Proof.
  intros Hl. apply nth_In. apply Nat.mod_upper_bound. by destruct l.
Qed.

Lemma record_at_storable draw i :
  drawn (draw i) = true -> storable (record_at draw i).
Proof.
  intros Hd. destruct (round_drawn _ Hd) as (k & Hk & Hround).
  destruct (generated_price_survives k Hk) as [(m & e & Hpos) Hrt].
  pose proof (nth_modulo models i ltac:(done)) as Hm.
  pose proof (nth_modulo conditions i ltac:(done)) as Hc.
  unfold storable, comma_free_fields, line_free_fields, price_survives,
    record_at.
  cbn [id model condition pricePerDay status].
  revert Hm Hc.
  generalize (nth (i mod length models) models EmptyString).
  generalize (nth (i mod length conditions) conditions EmptyString).
  intros c mo Hm Hc. rewrite Hround.
  assert (forall delim, is_digit delim = false ->
            Text.free_of delim "car-" = true ->
            Text.free_of delim ("car-" +:+ to_string (incr (N.of_nat i))) = true)
    as Hid.
  { intros delim Hdelim Hcar. rewrite free_of_app, Hcar. simpl.
    by apply string_of_uint_free. }
  split; [|split; [|split; [|split]]].
  - apply well_formed_validate. unfold well_formed. simpl.
    split; [done|]. split; [|split; [done|eauto]].
    simpl in Hm. intros ->. by repeat destruct Hm as [Hm|Hm].
  - rewrite Hid by done.
    simpl in Hm, Hc.
    repeat (destruct Hm as [<-|Hm]; [|]); try done;
      repeat (destruct Hc as [<-|Hc]; [|]); done.
  - rewrite Hid by done.
    simpl in Hm, Hc.
    repeat (destruct Hm as [<-|Hm]; [|]); try done;
      repeat (destruct Hc as [<-|Hc]; [|]); done.
  - discriminate.
  - done.
Qed.

Lemma loop_storable draw count :
  (forall i, drawn (draw i) = true) -> Forall storable (loop draw count).
Proof.
  intros Hd. unfold loop. apply Forall_forall. intros r Hr.
  apply list_elem_of_fmap in Hr as (i & -> & _). by apply record_at_storable.
Qed.

Lemma loop_length draw count :
  length (loop draw count) = N.to_nat count.
Proof. unfold loop. by rewrite length_map, length_seq. Qed.

Lemma loop_ids draw count :
  (count < 2 ^ 64)%N -> NoDup (id <$> loop draw count).
Proof.
  intros Hc. unfold loop.
  change (map ?f ?l) with (f <$> l). rewrite <- list_fmap_compose.
  apply NoDup_fmap_2_strong; [|apply NoDup_seq].
  intros i j Hi Hj. simpl. intros [= Heq].
  apply elem_of_seq in Hi, Hj. apply to_string_inj in Heq.
  rewrite !incr_small in Heq by lia. lia.
Qed.


Lemma storable_valid rs :
  Forall storable rs ->
  Forall (fun r => CarRecordValidator.validate r = true) rs.
Proof. intros H. eapply Forall_impl; [exact H|]. by intros r (Hv & _). Qed.

Lemma generate_loop draw count :
  (count <= max_size)%N -> generate draw count = Ok (loop draw count).
Proof. intros H. unfold generate. by rewrite reserve_ok. Qed.

Lemma generate_oversized draw count :
  (max_size < count)%N ->
  generate draw count = Throw (length_error "vector::reserve").
Proof. intros H. unfold generate. by rewrite reserve_throws. Qed.


Lemma steady_drawn i : drawn (Sample.steady i) = true.
Proof. vm_compute. reflexivity. Qed.


(** *** From the generator to the repository *)

Lemma fold_store_twice rs (m : gmap string CarRecord) :
  fold_left store rs (fold_left store rs m) = fold_left store rs m.
Proof.
  apply map_eq. intros i. rewrite !lookup_fold_store.
  by destruct (Spec.last_written i rs).
Qed.

Lemma construct_file path disk rs :
  readAll disk path = Ok rs ->
  construct (FileStorageBackend path) disk
  = (Ok tt,
     mkWorld disk
       (mkCarRepository (FileStorageBackend path) (fold_left store rs ∅) false)
       []).
Proof. intros Hr. unfold construct. by erewrite reload_loaded. Qed.

(** X15.  From the generator to the repository, as the integration test
    goes, for every count and every chunk size from one on that a vector
    of records can hold: [toFile(path, count)] writes a file that
    [readAll] reads back as the generated records; a repository
    constructed on a file backend over this path loads [count] records;
    and [ingest(path, chunkSize)] of the same file into it reports [count]
    processed records in [ceil(count / chunkSize)] batches and leaves
    [count] records.  With a greater count [toFile] throws the
    [std::length_error] of [records.reserve] and writes nothing. *)
Theorem X15_generate_and_ingest (draw : nat -> Double.double) (path : string)
    (count chunkSize : size_t) (fs : FileSystem) :
  (forall i, drawn (draw i) = true) ->
  TransactionalFileWriter.tmpPath path ∉ locked fs -> path ∉ locked fs ->
  ((count <= max_size)%N -> chunkSize <> 0%N -> (chunkSize <= max_size)%N ->
   let disk1 := snd (toFile draw path count fs) in
   let w1 := snd (construct (FileStorageBackend path) disk1) in
   fst (toFile draw path count fs) = Ok tt
   /\ (exists records,
          generate draw count = Ok records /\ readAll disk1 path = Ok records)
   /\ fst (construct (FileStorageBackend path) disk1) = Ok tt
   /\ totalRecords (repository w1) = N.to_nat count
   /\ fst (BatchProcessor.ingest path chunkSize w1)
      = Ok (mkBatchMetrics count (ceil_div count chunkSize))
   /\ totalRecords (repository (snd (BatchProcessor.ingest path chunkSize w1)))
      = N.to_nat count)
  /\ ((max_size < count)%N ->
      toFile draw path count fs
      = (Throw (length_error "vector::reserve"), fs)).
Proof.
  intros Hd Htmp Hpath. split; cycle 1.
  { intros Hbig. unfold toFile. by rewrite generate_oversized. }
  intros Hmax Hchunk Hcmax.
  assert (count < 2 ^ 64)%N as Hc by (unfold max_size in Hmax; lia).
  pose proof (generate_loop draw count Hmax) as Hgen.
  assert (toFile draw path count fs = writeAll path (loop draw count) fs)
    as ->.
  { unfold toFile. by rewrite Hgen. }
  intros disk1 w1.
  pose proof (loop_storable draw count Hd) as Hst.
  destruct (file_round_trip path (loop draw count) fs Hst Htmp Hpath)
    as [Hok Hread].
  fold disk1 in Hread.
  assert (locked disk1 = locked fs) as Hlocked.
  { unfold disk1, writeAll, TransactionalFileWriter.write.
    destruct (serialize_all _); [|done]. by destruct (bool_decide _). }
  assert (readable disk1 path) as Hreadable.
  { unfold readable. by rewrite Hlocked. }
  pose proof (readAll_parsed disk1 path Hreadable) as Hparsed.
  rewrite Hread in Hparsed. injection Hparsed as Hparsed.
  pose proof (construct_file path disk1 _ Hread) as Hcons.
  fold w1 in Hcons.
  assert (w1 = mkWorld disk1
                 (mkCarRepository (FileStorageBackend path)
                    (fold_left store (loop draw count) ∅) false) [])
    as Hw1.
  { unfold w1. by rewrite Hcons. }
  assert (size (fold_left store (loop draw count) ∅) = N.to_nat count)
    as Hsize.
  { rewrite size_fold_store by (by apply loop_ids).
    apply loop_length. }
  assert (persist_safe w1) as Hsafe.
  { rewrite Hw1. unfold persist_safe. simpl. rewrite Hlocked.
    split; [done|].
    apply cache_valid_fold; [apply map_Forall_empty | by apply storable_valid]. }
  assert (valid_count (disk w1) path = count) as Hcount.
  { rewrite Hw1. unfold valid_count. simpl. rewrite <- Hparsed.
    rewrite loop_length. lia. }
  split; [done|]. split; [by exists (loop draw count)|].
  split; [by rewrite Hcons|].
  split; [by rewrite Hw1|]. split.
  - assert (readable (disk w1) path) as Hreadable1 by (by rewrite Hw1).
    pose proof (ingest_accounting path chunkSize w1 Hchunk Hcmax Hreadable1 Hsafe)
      as Hacc.
    rewrite Hcount in Hacc. by apply Hacc.
  - unfold totalRecords.
    destruct (ingest_leaves path chunkSize w1) as (-> & _); try done.
    { by rewrite Hw1. }
    rewrite Hw1. simpl. rewrite <- Hparsed. by rewrite fold_store_twice.
Qed.

Lemma X15_generate_and_ingest_witness :
  fst (BatchProcessor.ingest "cars.txt" 256%N
         (snd (construct (FileStorageBackend "cars.txt")
                 (snd (toFile Sample.steady "cars.txt" 1000%N
                         Sample.empty_disk)))))
  = Ok (mkBatchMetrics 1000%N 4%N).
Proof.
  destruct (X15_generate_and_ingest Sample.steady "cars.txt" 1000%N 256%N
              Sample.empty_disk) as [H _].
  - apply steady_drawn.
  - simpl. apply not_elem_of_empty.
  - simpl. apply not_elem_of_empty.
  - destruct H as (_ & _ & _ & _ & H & _).
    + unfold max_size. lia.
    + discriminate.
    + unfold max_size. lia.
    + exact H.
Defined.
End GeneratorFacts.

(** ** The legacy file layer *)

Section LegacyWriter.
Import TransactionalFileWriter.

Lemma legacy_steps_split target lines :
  legacy_file.steps target lines
  = preparation target lines ++ [Rename (tmpPath target) target].
Proof. unfold legacy_file.steps, preparation. simpl. by rewrite <- app_assoc. Qed.

Lemma legacy_intact k target lines (f : gmap string string) :
  (k <= length lines + 2)%nat ->
  legacy_file.interrupted k target lines f !! target = f !! target.
Proof.
  intros Hk. unfold legacy_file.interrupted. rewrite legacy_steps_split.
  rewrite take_app_le by (rewrite preparation_length; lia).
  apply run_confined with (tmp := tmpPath target).
  - apply Forall_take, preparation_confined.
  - intros H. by apply (tmpPath_fresh target).
Qed.

Lemma legacy_replaced k target lines (f : gmap string string) :
  (length lines + 3 <= k)%nat ->
  legacy_file.interrupted k target lines f !! target = Some (text_of lines)
  /\ legacy_file.interrupted k target lines f !! tmpPath target = None.
Proof.
  intros Hk. unfold legacy_file.interrupted.
  rewrite take_ge
    by (rewrite legacy_steps_split, length_app, preparation_length; simpl; lia).
  rewrite legacy_steps_split, run_app.
  pose proof (preparation_tmp target lines f) as Htmp.
  set (g := run (preparation target lines) f) in *.
  unfold run. simpl. rewrite Htmp. split.
  - apply lookup_insert_eq.
  - rewrite lookup_insert_ne by (intros H; by apply (tmpPath_fresh target)).
    apply lookup_delete_eq.
Qed.

(** X16.  The legacy writer replaces its target in one step: wherever the
    process stops, the target holds what it held before (up to the closing
    of the temporary file) or the complete new text (from the renaming
    on); it is never missing and never holds a part of a text. *)
Theorem X16_legacy_write_atomic (k : nat) (target : string)
    (lines : list string) (f : gmap string string) :
  ((k <= length lines + 2)%nat ->
   legacy_file.interrupted k target lines f !! target = f !! target)
  /\ ((length lines + 3 <= k)%nat ->
      legacy_file.interrupted k target lines f !! target = Some (text_of lines)
      /\ legacy_file.interrupted k target lines f !! tmpPath target = None)
  /\ (legacy_file.interrupted k target lines f !! target = f !! target
      \/ legacy_file.interrupted k target lines f !! target
         = Some (text_of lines)).
Proof.
  split; [apply legacy_intact|]. split; [apply legacy_replaced|].
  destruct (decide (k <= length lines + 2)%nat) as [Hk|Hk].
  - left. by apply legacy_intact.
  - right. apply legacy_replaced. lia.
Qed.

Lemma X16_legacy_write_atomic_witness :
  legacy_file.interrupted 3 "cars.txt" ["new"] Sample.old_disk !! "cars.txt"
  = Sample.old_disk !! "cars.txt"
  /\ legacy_file.interrupted 4 "cars.txt" ["new"] Sample.old_disk !! "cars.txt"
     = Some (text_of ["new"]).
Proof.
  split.
  - apply (X16_legacy_write_atomic 3 "cars.txt" ["new"] Sample.old_disk).
    simpl. lia.
  - apply (X16_legacy_write_atomic 4 "cars.txt" ["new"] Sample.old_disk).
    simpl. lia.
Defined.
End LegacyWriter.

Section LegacyParser.
Import CarRecordParser Spec.

Lemma legacy_tokens line :
  Text.split Text.comma line = tokenize line.
Proof. done. Qed.

(** What [parseCarLine] returns on a line of at least three tokens. *)
Lemma parseCarLine_tokens line a b c rest :
  line <> "" -> tokenize line = a :: b :: c :: rest ->
  legacy_file.parseCarLine line
  = match Double.stod c with
    | Throw _ => None
    | Ok value =>
        if negb (legacy_file.isValidCondition b) || Double.le value Double.zero
        then None
        else
          Some (legacy_file.mkCarRecord a b value
                  (match rest with
                   | [] => "Available"
                   | d :: _ => if String.eqb d "" then "Available" else d
                   end)
                  (match rest with
                   | _ :: e :: _ => if String.eqb e "" then "None" else e
                   | _ => "None"
                   end))
    end.
Proof.
  intros Hne Ht. unfold legacy_file.parseCarLine.
  apply String.eqb_neq in Hne. rewrite Hne, legacy_tokens, Ht. simpl.
  destruct (Double.stod c) as [value|]; [|done].
  destruct rest as [|d [|e rest]]; simpl; done.
Qed.

Lemma parseCarLine_short line :
  (length (tokenize line) < 3)%nat -> legacy_file.parseCarLine line = None.
Proof.
  intros Hlen. unfold legacy_file.parseCarLine.
  destruct (String.eqb line ""); [done|]. rewrite legacy_tokens.
  apply Nat.ltb_lt in Hlen. by rewrite Hlen.
Qed.

Lemma parseCarLine_some line r :
  legacy_file.parseCarLine line = Some r ->
  line <> ""
  /\ exists a b c rest,
       tokenize line = a :: b :: c :: rest
       /\ Double.stod c = Ok (legacy_file.price r)
       /\ legacy_file.isValidCondition b = true
       /\ Double.le (legacy_file.price r) Double.zero = false
       /\ r = legacy_file.mkCarRecord a b (legacy_file.price r)
                (match rest with
                 | [] => "Available"
                 | d :: _ => if String.eqb d "" then "Available" else d
                 end)
                (match rest with
                 | _ :: e :: _ => if String.eqb e "" then "None" else e
                 | _ => "None"
                 end).
Proof.
  intros Hp. destruct (decide (line = "")) as [->|Hne]; [done|].
  split; [done|].
  destruct (tokenize line) as [|a [|b [|c rest]]] eqn:Ht;
    try (rewrite parseCarLine_short in Hp by (rewrite Ht; simpl; lia); done).
  rewrite (parseCarLine_tokens line a b c rest Hne Ht) in Hp.
  exists a, b, c, rest.
  destruct (Double.stod c) as [value|]; [|done].
  destruct (legacy_file.isValidCondition b); [|done].
  destruct (Double.le value Double.zero) eqn:Hle; [done|]. simpl in Hp.
  injection Hp as <-. done.
Qed.

Lemma In_isValidCondition c :
  In c legacy_file.allowed -> legacy_file.isValidCondition c = true.
Proof.
  intros H. apply existsb_exists. exists c.
  split; [done | apply String.eqb_refl].
Qed.

(** X17.  The legacy [parseCarLine] returns a record exactly for a line
    of at least three tokens whose second token is one of the five allowed
    conditions and whose third token reads as a price that is not less
    than or equal to zero, which is all that is checked of the price.  The
    record has the first token as model, the second as condition, the
    price read from the third, the fourth token as availability and the
    fifth as due date; where the fourth token is missing or empty the
    availability is ["Available"], and where the fifth is missing or empty
    the due date is ["None"], so neither is ever empty. *)
Theorem X17_legacy_parse (line : string) (r : legacy_file.CarRecord) :
  legacy_file.parseCarLine line = Some r
  <-> (3 <= length (tokenize line))%nat
      /\ legacy_file.model r = at_ (tokenize line) 0
      /\ legacy_file.condition r = at_ (tokenize line) 1
      /\ Double.stod (at_ (tokenize line) 2) = Ok (legacy_file.price r)
      /\ In (legacy_file.condition r) legacy_file.allowed
      /\ Double.le (legacy_file.price r) Double.zero = false
      /\ legacy_file.availability r
         = match tokenize line !! 3%nat with
           | Some d => if String.eqb d "" then "Available" else d
           | None => "Available"
           end
      /\ legacy_file.dueDate r
         = match tokenize line !! 4%nat with
           | Some e => if String.eqb e "" then "None" else e
           | None => "None"
           end.
Proof.
  split.
  - intros Hp.
    destruct (parseCarLine_some line r Hp)
      as (Hne & a & b & c & rest & Ht & Hs & Hc & Hle & Hr).
    assert (legacy_file.model r = a) as Hm by (by rewrite Hr).
    assert (legacy_file.condition r = b) as Hcond by (by rewrite Hr).
    assert (legacy_file.availability r
            = match rest with
              | [] => "Available"
              | d :: _ => if String.eqb d "" then "Available" else d
              end) as Hav by (by rewrite Hr).
    assert (legacy_file.dueDate r
            = match rest with
              | _ :: e :: _ => if String.eqb e "" then "None" else e
              | _ => "None"
              end) as Hdue by (by rewrite Hr).
    clear Hr. rewrite Ht, Hm, Hcond, Hav, Hdue. unfold at_.
    cbn [nth length].
    split; [lia|]. split; [done|]. split; [done|]. split; [done|].
    split; [by apply existsb_eqb_In|]. split; [done|].
    split; [by destruct rest | by destruct rest as [|d [|e rest]]].
  - intros (Hlen & Hm & Hcond & Hs & Hc & Hle & Hav & Hdue).
    assert (line <> "") as Hne by (intros ->; simpl in Hlen; lia).
    destruct (tokenize line) as [|a [|b [|c rest]]] eqn:Ht;
      try (simpl in Hlen; lia).
    unfold at_ in *. cbn [nth] in *.
    rewrite (parseCarLine_tokens line a b c rest Hne Ht), Hs.
    rewrite <- Hcond, (In_isValidCondition _ Hc), Hle. simpl.
    destruct r as [mo co pr av du]. simpl in *. subst mo av du.
    f_equal. f_equal; [by destruct rest | by destruct rest as [|d [|e rest]]].
Qed.

Lemma X17_legacy_parse_witness :
  legacy_file.parseCarLine "Civic,good,nan"
  = Some (legacy_file.mkCarRecord "Civic" "good" S754_nan "Available" "None")
  /\ legacy_file.parseCarLine "Civic,good,2500,,"
     = Some (legacy_file.mkCarRecord "Civic" "good" (Double.of_Z 2500)
               "Available" "None")
  /\ legacy_file.parseCarLine "Civic,good,2500,Rented"
     = Some (legacy_file.mkCarRecord "Civic" "good" (Double.of_Z 2500)
               "Rented" "None").
Proof.
  split; [|split].
  - apply (X17_legacy_parse "Civic,good,nan").
    split; [vm_compute; lia|]. split; [reflexivity|]. split; [reflexivity|].
    split; [vm_compute; reflexivity|]. split; [right; left; reflexivity|].
    split; [vm_compute; reflexivity|]. split; reflexivity.
  - apply (X17_legacy_parse "Civic,good,2500,,").
    split; [vm_compute; lia|]. split; [reflexivity|]. split; [reflexivity|].
    split; [vm_compute; reflexivity|]. split; [right; left; reflexivity|].
    split; [vm_compute; reflexivity|]. split; reflexivity.
  - apply (X17_legacy_parse "Civic,good,2500,Rented").
    split; [vm_compute; lia|]. split; [reflexivity|]. split; [reflexivity|].
    split; [vm_compute; reflexivity|]. split; [right; left; reflexivity|].
    split; [vm_compute; reflexivity|]. split; reflexivity.
Defined.

(** *** The two formats *)

Lemma valid_price_positive r :
  CarRecordValidator.validate r = true ->
  Double.le (pricePerDay r) Double.zero = false.
Proof.
  unfold CarRecordValidator.validate.
  destruct (_ || _); [done|]. destruct (negb _); [done|].
  destruct (Double.le _ _); [|done]. by rewrite orb_true_r.
Qed.

Lemma valid_condition r :
  CarRecordValidator.validate r = true ->
  legacy_file.isValidCondition (condition r) = true.
Proof.
  unfold CarRecordValidator.validate.
  destruct (_ || _); [done|].
  change (legacy_file.isValidCondition (condition r))
    with (CarRecordValidator.isConditionValid (condition r)).
  by destruct (CarRecordValidator.isConditionValid (condition r)).
Qed.

(** X18.  A line that the modular parser accepts, read by the legacy
    parser: in the four-token layout the legacy parser returns the same
    model, condition and price, the status as availability (["Available"]
    when the status is empty) and the due date ["None"]; a line of five or
    more tokens, the layout the modular system writes, is always rejected,
    because the legacy parser reads the condition as the price. *)
Theorem X18_modular_line_in_legacy (line : string) (r : CarRecord) :
  parse line = Ok (Some r) ->
  (length (tokenize line) = 4%nat ->
   legacy_file.parseCarLine line = Some (as_legacy r))
  /\ ((4 < length (tokenize line))%nat ->
      legacy_file.parseCarLine line = None).
Proof.
  intros Hp. destruct (decide (line = "")) as [->|Hne]; [done|].
  destruct (parse_cases line Hne)
    as [[_ H]|[(a&b&c&d&Ht&H)|(a&b&c&d&e&rest&Ht&H)]];
    rewrite H in Hp; [done| |].
  - apply assemble_ok in Hp as (Hs & Hv & Hr). split; [|rewrite Ht; simpl; lia].
    intros _. rewrite (parseCarLine_tokens line a b c [d] Hne Ht), Hs.
    pose proof (valid_price_positive r Hv) as Hpos.
    pose proof (valid_condition r Hv) as Hcond.
    rewrite Hr in Hcond. simpl in Hcond. rewrite Hcond, Hpos. simpl.
    unfold as_legacy. rewrite Hr. done.
  - apply assemble_ok in Hp as (Hs & Hv & Hr). split; [rewrite Ht; simpl; lia|].
    intros _. rewrite (parseCarLine_tokens line a b c (d :: e :: rest) Hne Ht).
    apply validate_well_formed in Hv as (_ & _ & Hin & _).
    rewrite Hr in Hin. simpl in Hin.
    by rewrite (allowed_not_numeric c Hin).
Qed.

Lemma X18_modular_line_in_legacy_witness :
  legacy_file.parseCarLine Sample.horizon_line = None
  /\ legacy_file.parseCarLine Sample.legacy_line
     = Some (legacy_file.mkCarRecord "Civic" "good" (Double.of_Z 2500)
               "Rented" "None").
Proof.
  split.
  - apply (X18_modular_line_in_legacy Sample.horizon_line Sample.horizon).
    + vm_compute. reflexivity.
    + vm_compute. lia.
  - apply (X18_modular_line_in_legacy Sample.legacy_line
             (mkCarRecord "Civic" "Civic" "good" (Double.of_Z 2500) "Rented")).
    + vm_compute. reflexivity.
    + reflexivity.
Defined.

(** The text of a double is no condition. *)
Lemma show_not_condition x :
  CarRecordValidator.isConditionValid (Double.show x) = false.
Proof.
  destruct (CarRecordValidator.isConditionValid (Double.show x)) eqn:H; [|done].
  exfalso. apply existsb_eqb_In in H.
  pose proof (show_chars_written (fun c => In c double_chars)
                ltac:(by apply Forall_forall; intros c Hc%list_elem_of_In)
                x) as Hchars.
  assert (forall s, Double.show x = s ->
            Forall (fun c => In c double_chars) (list_ascii_of_string s)) as Hs.
  { intros s <-. unfold Double.show.
    by rewrite list_ascii_of_string_of_list_ascii. }
  assert (forall c s, Double.show x = s -> In c (list_ascii_of_string s) ->
            ~ In c double_chars -> False) as Hout.
  { intros c s Heq Hin Hnot. apply Hnot. specialize (Hs s Heq).
    rewrite Forall_forall in Hs. by apply Hs, list_elem_of_In. }
  assert (forall c, is_digit c = false -> negb (Ascii.eqb c ".") = true ->
            ~ In c (list_ascii_of_string "e+-infa") -> ~ In c double_chars)
    as Hletter.
  { intros c Hd Hp Hl Hin. unfold double_chars in Hin. simpl in Hin.
    repeat (destruct Hin as [<-|Hin]; [try discriminate|]); try done.
    all: apply Hl; simpl; tauto. }
  simpl in H.
  destruct H as [H|[H|[H|[H|[H|[]]]]]]; symmetry in H.
  - apply (Hout "x"%char _ H); [simpl; tauto|].
    apply Hletter; [done|done|]. simpl. intuition discriminate.
  - apply (Hout "g"%char _ H); [simpl; tauto|].
    apply Hletter; [done|done|]. simpl. intuition discriminate.
  - apply (Hout "r"%char _ H); [simpl; tauto|].
    apply Hletter; [done|done|]. simpl. intuition discriminate.
  - apply (Hout "m"%char _ H); [simpl; tauto|].
    apply Hletter; [done|done|]. simpl. intuition discriminate.
  - apply (Hout "m"%char _ H); [simpl; tauto|].
    apply Hletter; [done|done|]. simpl. intuition discriminate.
Qed.

(** X19.  A line that the legacy system writes is never accepted by the
    modular parser: for every legacy record with a due date and without a
    comma in its texts, [parse] of its serialization throws, either for the
    availability read as the price or for the price read as the
    condition. *)
Theorem X19_legacy_line_in_modular (r : legacy_file.CarRecord) :
  Text.free_of Text.comma (legacy_file.model r) = true ->
  Text.free_of Text.comma (legacy_file.condition r) = true ->
  Text.free_of Text.comma (legacy_file.availability r) = true ->
  Text.free_of Text.comma (legacy_file.dueDate r) = true ->
  legacy_file.dueDate r <> "" ->
  exists e, parse (legacy_file.serialize r) = Throw e
            /\ (InvalidNumber e
                \/ e = ValidationFailed (legacy_file.serialize r)).
Proof.
  intros Hm Hc Ha Hd Hne.
  assert (parse (legacy_file.serialize r)
          = assemble (legacy_file.serialize r) (legacy_file.model r)
              (legacy_file.condition r) (Double.show (legacy_file.price r))
              (legacy_file.availability r) (legacy_file.dueDate r)) as ->.
  { eapply parse_long.
    - unfold legacy_file.serialize. apply append_delim_nonempty.
    - apply (tokenize_five _ _ _ _ _ Hm Hc (show_comma_free _) Ha Hd Hne). }
  unfold assemble.
  destruct (Double.stod (legacy_file.availability r)) as [p|e] eqn:Hs.
  - unfold CarRecordValidator.validate. simpl.
    rewrite show_not_condition. simpl.
    destruct (_ || _); eexists; split; try done; by right.
  - exists e. split; [done|]. left. by eapply stod_error_kinds.
Qed.

Lemma X19_legacy_line_in_modular_witness :
  exists e,
    parse (legacy_file.serialize
             (legacy_file.makeRecord "Civic" "good" (Double.of_Z 2500)))
    = Throw e
    /\ (InvalidNumber e
        \/ e = ValidationFailed
                 (legacy_file.serialize
                    (legacy_file.makeRecord "Civic" "good" (Double.of_Z 2500)))).
Proof.
  apply (X19_legacy_line_in_modular
           (legacy_file.makeRecord "Civic" "good" (Double.of_Z 2500)));
    try reflexivity.
  simpl. discriminate.
Defined.
End LegacyParser.

(** ** The command line *)

Section CommandLine.
Import CarRentalCLI Spec.

Lemma skip_space_head s c rest :
  Double.skip_space s = String c rest -> Double.is_space c = false.
Proof.
  induction s as [|x s IH]; [done|]. simpl.
  destruct (Double.is_space x) eqn:Hx; [done|]. by intros [= <- _].
Qed.

Lemma skip_space_shorter s :
  (String.length (Double.skip_space s) <= String.length s)%nat.
Proof.
  induction s as [|x s IH]; [done|]. simpl.
  destruct (Double.is_space x); simpl; lia.
Qed.

Lemma read_word_word c s :
  Double.is_space c = false ->
  word (fst (read_word (String c s)))
  /\ (String.length (snd (read_word (String c s))) <= String.length s)%nat.
Proof.
  intros Hc. cbn [read_word]. rewrite Hc.
  assert (spaceless (fst (read_word s)) = true
          /\ (String.length (snd (read_word s)) <= String.length s)%nat)
    as [Hw Hl].
  { clear. induction s as [|x s [IHw IHl]]; [done|]. cbn [read_word].
    destruct (Double.is_space x) eqn:Hx; [simpl; split; [done|lia]|].
    destruct (read_word s) as [w r]. simpl in *. rewrite Hx, IHw.
    split; [done|lia]. }
  destruct (read_word s) as [w r]. simpl in *.
  split; [|done]. split; [done|]. simpl. by rewrite Hc, Hw.
Qed.

Lemma extract_word s token rest :
  extract s = Some (token, rest) ->
  word token /\ (String.length rest < String.length s)%nat.
Proof.
  unfold extract. pose proof (skip_space_shorter s) as Hs.
  destruct (Double.skip_space s) as [|c r] eqn:Hk; [done|].
  apply skip_space_head in Hk. intros Heq.
  assert (read_word (String c r) = (token, rest)) as Hw by congruence.
  destruct (read_word_word c r Hk) as [Hword Hlen].
  rewrite Hw in Hword, Hlen. simpl in *. split; [done|lia].
Qed.

Lemma extract_loop_words fuel s tokens :
  Forall word tokens -> Forall word (extract_loop fuel s tokens).
Proof.
  revert s tokens. induction fuel as [|fuel IH]; intros s tokens Ht; [done|].
  simpl. destruct (extract s) as [[token rest]|] eqn:He; [|done].
  apply IH. apply Forall_app. split; [done|].
  constructor; [|done]. by apply (extract_word s token rest).
Qed.

Lemma extract_loop_grows fuel s tokens :
  (length tokens <= length (extract_loop fuel s tokens))%nat.
Proof.
  revert s tokens. induction fuel as [|fuel IH]; intros s tokens; [done|].
  simpl. destruct (extract s) as [[token rest]|]; [|done].
  specialize (IH rest (tokens ++ [token])). rewrite length_app in IH.
  simpl in IH. lia.
Qed.

Lemma tokenize_nil line : tokenize line = [] <-> blank line = true.
Proof.
  unfold tokenize, blank. cbn [extract_loop]. unfold extract.
  destruct (Double.skip_space line) as [|c r]; [done|].
  destruct (read_word (String c r)) as [token rest]. split; [|done].
  intros H. pose proof (extract_loop_grows (String.length line) rest ([] ++ [token]))
    as Hg.
  rewrite H in Hg. simpl in Hg. lia.
Qed.

(** *** The words of a line come back *)

Lemma read_word_append t rest :
  spaceless t = true ->
  match rest with
  | EmptyString => True
  | String c _ => Double.is_space c = true
  end ->
  read_word (t +:+ rest) = (t, rest).
Proof.
  intros Ht Hrest. induction t as [|x t IH].
  - destruct rest as [|c rest]; [done|].
    change (EmptyString +:+ String c rest) with (String c rest).
    cbn [read_word]. by rewrite Hrest.
  - simpl in Ht. apply andb_prop in Ht as [Hx Ht].
    apply negb_true_iff in Hx.
    change (String x t +:+ rest) with (String x (t +:+ rest)).
    cbn [read_word]. by rewrite Hx, (IH Ht).
Qed.

Lemma extract_append t rest :
  word t ->
  match rest with
  | EmptyString => True
  | String c _ => Double.is_space c = true
  end ->
  extract (t +:+ rest) = Some (t, rest).
Proof.
  intros [Hne Ht] Hrest. unfold extract.
  destruct t as [|x t]; [done|].
  pose proof Ht as Hx. simpl in Hx. apply andb_prop in Hx as [Hx _].
  apply negb_true_iff in Hx.
  change (String x t +:+ rest) with (String x (t +:+ rest)).
  cbn [Double.skip_space]. rewrite Hx.
  change (String x (t +:+ rest)) with (String x t +:+ rest).
  by rewrite read_word_append.
Qed.

Lemma extract_space s : extract (String " " s) = extract s.
Proof. done. Qed.

Lemma extract_loop_join fuel words tokens :
  Forall word words ->
  (String.length (Text.join " " words) < fuel)%nat ->
  extract_loop fuel (Text.join " " words) tokens = tokens ++ words.
Proof.
  intros Hw. revert fuel tokens.
  induction Hw as [|t words Ht Hws IH]; intros fuel tokens Hfuel.
  - destruct fuel; [lia|]. simpl. by rewrite app_nil_r.
  - destruct fuel as [|fuel]; [lia|].
    destruct words as [|t' words].
    + cbn [Text.join extract_loop].
      assert (extract t = Some (t, EmptyString)) as ->.
      { rewrite <- (extract_append t EmptyString Ht I). f_equal.
        clear. induction t as [|c t IH]; [done|].
        change (String c t = String c (t +:+ EmptyString)). by rewrite <- IH. }
      by destruct fuel.
    + cbn [Text.join] in *. cbn [extract_loop].
      rewrite extract_append; [|done|done].
      rewrite length_append in Hfuel. simpl in Hfuel.
      destruct fuel as [|fuel]; [lia|].
      cbn [extract_loop]. rewrite extract_space.
      specialize (IH (S fuel) (tokens ++ [t])).
      cbn [extract_loop] in IH. rewrite IH by lia.
      by rewrite <- app_assoc.
Qed.

Lemma tokenize_join words :
  Forall word words -> tokenize (Text.join " " words) = words.
Proof.
  intros Hw. unfold tokenize. by rewrite extract_loop_join by (done || lia).
Qed.

Lemma run_step_front line :
  run_step line = FrontOfEmpty <-> line <> "" /\ blank line = true.
Proof.
  unfold run_step.
  destruct (String.eqb_spec line "exit") as [->|_]; [split; [done|by intros []]|].
  destruct (String.eqb_spec line "help") as [->|_]; [split; [done|by intros []]|].
  destruct (String.eqb_spec line "") as [->|Hne]; [split; [done|by intros []]|].
  rewrite <- tokenize_nil. destruct (tokenize line); split; try done.
  - by intros [].
Qed.

(** X20.  The tokens of a command line are its words: each token is not
    empty and holds no white space, and words separated by single spaces
    come back as they are.  There is no token exactly when the line is
    blank; so a line of white space only, which is neither empty nor a
    keyword, reaches [tokens.front()] with an empty vector. *)
Theorem X20_command_tokens (line : string) :
  Forall (fun t => t <> "" /\ spaceless t = true) (tokenize line)
  /\ (tokenize line = [] <-> blank line = true)
  /\ (run_step line = FrontOfEmpty <-> line <> "" /\ blank line = true)
  /\ (forall words,
         Forall (fun t => t <> "" /\ spaceless t = true) words ->
         tokenize (Text.join " " words) = words).
Proof.
  split; [by apply extract_loop_words|]. split; [apply tokenize_nil|].
  split; [apply run_step_front | apply tokenize_join].
Qed.

Lemma X20_command_tokens_witness :
  tokenize "rent c1 u1" = ["rent"; "c1"; "u1"]
  /\ run_step "  " = FrontOfEmpty.
Proof.
  split.
  - apply (X20_command_tokens "" ) with (words := ["rent"; "c1"; "u1"]).
    repeat constructor; discriminate.
  - apply (X20_command_tokens "  "). split; [discriminate|reflexivity].
Defined.

(** *** The arguments of the program *)

Lemma last_filter_snoc (test : string -> bool) l v :
  last (List.filter test (l ++ [v]))
  = if test v then Some v else last (List.filter test l).
Proof.
  rewrite List.filter_app. simpl. destruct (test v).
  - apply last_snoc.
  - by rewrite app_nil_r.
Qed.

Lemma prefix_cars v :
  String.prefix "--cars=" v = true ->
  String.eqb v "--backend=memory" = false
  /\ String.eqb v "--backend=file" = false
  /\ String.eqb v "--legacy" = false
  /\ String.eqb v "--mode=legacy" = false
  /\ String.eqb v "--mode=modular" = false.
Proof.
  intros Hp.
  repeat split; apply String.eqb_neq; intros ->; vm_compute in Hp; discriminate Hp.
Qed.

Lemma arguments_fold l :
  let args := fold_left argument l (mkCliArguments File "cars.txt" false) in
  backend args
  = match last (List.filter backend_flag l) with
    | Some v => if String.eqb v "--backend=memory" then Memory else File
    | None => File
    end
  /\ carsFile args
     = match last (List.filter cars_flag l) with
       | Some v => String.substring 7 (String.length v - 7) v
       | None => "cars.txt"
       end
  /\ legacyMode args
     = match last (List.filter mode_flag l) with
       | Some v => negb (String.eqb v "--mode=modular")
       | None => false
       end.
Proof.
  induction l as [|v l IH] using rev_ind; [done|].
  cbv zeta in *. rewrite fold_left_app. cbn [fold_left].
  rewrite !last_filter_snoc.
  destruct IH as (Hb & Hc & Hm).
  set (args := fold_left argument l (mkCliArguments File "cars.txt" false)) in *.
  unfold argument, backend_flag, cars_flag, mode_flag.
  destruct (String.eqb_spec v "--backend=memory") as [->|H1]; [done|].
  destruct (String.eqb_spec v "--backend=file") as [->|H2]; [done|].
  destruct (String.prefix "--cars=" v) eqn:Hp.
  { destruct (prefix_cars v Hp) as (_ & _ & -> & -> & ->). done. }
  destruct (String.eqb_spec v "--legacy") as [->|H3]; [done|].
  destruct (String.eqb_spec v "--mode=legacy") as [->|H4]; [done|].
  destruct (String.eqb_spec v "--mode=modular") as [->|H5]; done.
Qed.

(** X21.  [parseArguments] never reads the name of the program and
    ignores every argument that is no flag; of the flags, the last of each
    kind decides: the last [--backend=] flag the backend (the file backend
    without one), the last argument that begins with [--cars=] the cars
    file (the text after the seven characters; [cars.txt] without one), the
    last of [--legacy], [--mode=legacy] and [--mode=modular] the mode
    (modular without one). *)
Theorem X21_parseArguments (argv : list string) :
  backend (parseArguments argv)
  = match last_flag backend_flag argv with
    | Some v => if String.eqb v "--backend=memory" then Memory else File
    | None => File
    end
  /\ carsFile (parseArguments argv)
     = match last_flag cars_flag argv with
       | Some v => String.substring 7 (String.length v - 7) v
       | None => "cars.txt"
       end
  /\ legacyMode (parseArguments argv)
     = match last_flag mode_flag argv with
       | Some v => negb (String.eqb v "--mode=modular")
       | None => false
       end.
Proof. apply (arguments_fold (tail argv)). Qed.
End CommandLine.

(** ** Sources that are not there, and lines with more than five fields *)

Section Unopened.
Import CarFilePipeline CarRepository BatchProcessor Spec.

Lemma all_empty r : records_ r = ∅ -> all r = [].
Proof. intros H. unfold all. rewrite H, map_to_list_empty. done. Qed.

Lemma readAll_missing disk path :
  files disk !! path = None -> readAll disk path = Ok [].
Proof. intros H. unfold readAll, stream. by rewrite H. Qed.

Lemma readAll_unreadable disk path content :
  files disk !! path = Some content -> path ∈ locked disk ->
  readAll disk path = Throw (runtime_error ("Unable to open " +:+ path)).
Proof.
  intros Hf Hl. unfold readAll. by erewrite stream_unreadable.
Qed.

Lemma reload_unreadable w path content :
  backend_ (repository w) = FileStorageBackend path ->
  files (disk w) !! path = Some content -> path ∈ locked (disk w) ->
  reload w
  = (Throw (runtime_error ("Unable to open " +:+ path)),
     mkWorld (disk w) (set_cache ∅ (dirty_ (repository w)) (repository w))
       (persist_calls w)).
Proof.
  intros Hb Hf Hl. unfold reload, Backend.loadCars. rewrite Hb.
  by rewrite (readAll_unreadable _ _ _ Hf Hl).
Qed.

(** X22.  A [reload] that cannot open the file of the backend throws
    after the cache has been emptied, and leaves the flag of unsaved
    changes as it is.  When changes were unsaved, the next [flush] then
    saves the empty cache: it returns, and the file of the backend is
    replaced by an empty file. *)
Theorem X22_failed_reload (w : World) (path content : string) :
  backend_ (repository w) = FileStorageBackend path ->
  files (disk w) !! path = Some content -> path ∈ locked (disk w) ->
  fst (reload w) = Throw (runtime_error ("Unable to open " +:+ path))
  /\ records_ (repository (snd (reload w))) = ∅
  /\ dirty_ (repository (snd (reload w))) = dirty_ (repository w)
  /\ disk (snd (reload w)) = disk w
  /\ (dirty_ (repository w) = true ->
      TransactionalFileWriter.tmpPath path ∉ locked (disk w) ->
      fst (flush (snd (reload w))) = Ok tt
      /\ files (disk (snd (flush (snd (reload w))))) !! path = Some "").
Proof.
  intros Hb Hf Hl. rewrite (reload_unreadable w path content Hb Hf Hl).
  simpl. split; [done|]. split; [done|]. split; [done|]. split; [done|].
  intros Hd Htmp. unfold flush. simpl. rewrite Hd. simpl.
  unfold Backend.persistCars. simpl. rewrite Hb.
  rewrite all_empty by done. unfold writeAll. simpl.
  rewrite write_returns by done. simpl.
  split; [done | apply lookup_insert_eq].
Qed.

Lemma X22_failed_reload_witness :
  records_ (repository (snd (reload Sample.shut))) = ∅
  /\ files (disk (snd (flush (snd (reload Sample.shut))))) !! "cars.txt"
     = Some "".
Proof.
  destruct (X22_failed_reload Sample.shut "cars.txt"
              ("old" +:+ String Text.newline EmptyString))
    as (_ & Hempty & _ & _ & Hflush).
  - reflexivity.
  - reflexivity.
  - simpl. set_solver.
  - split; [exact Hempty|]. apply Hflush; [reflexivity|].
    simpl. intros H. apply elem_of_singleton in H. discriminate H.
Defined.

(** X23.  A file that does not exist is an empty source: [readAll]
    returns no record, a repository constructed on it is empty and has
    nothing unsaved, and [ingest] of it, with a chunk size from one to the
    largest size of a vector of records, reports no record and no batch
    and touches nothing.  A file that exists and cannot be opened makes
    each of the three throw ["Unable to open "] followed by the path;
    [ingest] then has touched nothing. *)
Theorem X23_unopened_source (disk0 : FileSystem) (path : string) :
  (files disk0 !! path = None ->
   readAll disk0 path = Ok []
   /\ construct (FileStorageBackend path) disk0
      = (Ok tt,
         mkWorld disk0 (mkCarRepository (FileStorageBackend path) ∅ false) [])
   /\ (forall w chunkSize,
          disk w = disk0 -> chunkSize <> 0%N -> (chunkSize <= max_size)%N ->
          ingest path chunkSize w = (Ok (mkBatchMetrics 0%N 0%N), w)))
  /\ (forall content,
         files disk0 !! path = Some content -> path ∈ locked disk0 ->
         readAll disk0 path
         = Throw (runtime_error ("Unable to open " +:+ path))
         /\ fst (construct (FileStorageBackend path) disk0)
            = Throw (runtime_error ("Unable to open " +:+ path))
         /\ (forall w chunkSize,
                disk w = disk0 -> chunkSize <> 0%N ->
                (chunkSize <= max_size)%N ->
                ingest path chunkSize w
                = (Throw (runtime_error ("Unable to open " +:+ path)), w))).
Proof.
  split.
  - intros Hf. split; [by apply readAll_missing|]. split.
    + unfold construct.
      rewrite (reload_loaded _ []); [done|].
      unfold Backend.loadCars. simpl. by apply readAll_missing.
    + intros w chunkSize <- Hc Hmax. unfold ingest.
      apply N.eqb_neq in Hc. rewrite Hc, (reserve_ok _ Hmax).
      unfold stream. by rewrite Hf.
  - intros content Hf Hl. split; [by eapply readAll_unreadable|]. split.
    + unfold construct. by erewrite reload_unreadable.
    + intros w chunkSize <- Hc Hmax. unfold ingest.
      apply N.eqb_neq in Hc. rewrite Hc, (reserve_ok _ Hmax).
      by erewrite stream_unreadable.
Qed.

Lemma X23_unopened_source_witness :
  construct (FileStorageBackend "cars.txt") Sample.empty_disk
  = (Ok tt,
     mkWorld Sample.empty_disk
       (mkCarRepository (FileStorageBackend "cars.txt") ∅ false) [])
  /\ ingest "cars.txt" 256%N Sample.fleet
     = (Ok (mkBatchMetrics 0%N 0%N), Sample.fleet)
  /\ ingest "cars.txt" 256%N Sample.shut
     = (Throw (runtime_error "Unable to open cars.txt"), Sample.shut).
Proof.
  split; [|split].
  - destruct (X23_unopened_source Sample.empty_disk "cars.txt") as [H _].
    destruct H as (_ & H & _); [reflexivity|exact H].
  - destruct (X23_unopened_source Sample.empty_disk "cars.txt") as [H _].
    destruct H as (_ & _ & H); [reflexivity|].
    apply H; [reflexivity | discriminate | unfold max_size; lia].
  - destruct (X23_unopened_source (disk Sample.shut) "cars.txt") as [_ H].
    destruct (H ("old" +:+ String Text.newline EmptyString)) as (_ & _ & H').
    + reflexivity.
    + simpl. set_solver.
    + apply H'; [reflexivity | discriminate | unfold max_size; lia].
Defined.
End Unopened.

Section MoreFields.
Import CarRecordParser Spec.

Lemma append_cons c a b : String c a +:+ b = String c (a +:+ b).
Proof. done. Qed.

Lemma tokenize_more a b c d e extra :
  Text.free_of Text.comma a = true -> Text.free_of Text.comma b = true ->
  Text.free_of Text.comma c = true -> Text.free_of Text.comma d = true ->
  Text.free_of Text.comma e = true ->
  tokenize (Text.join Text.comma [a; b; c; d; e] +:+ String Text.comma extra)
  = a :: b :: c :: d :: e :: tokenize extra.
Proof.
  intros Ha Hb Hc Hd He. rewrite !tokenize_fields. cbn [Text.join].
  rewrite !string_append_assoc, !append_cons.
  rewrite !string_append_assoc, !append_cons.
  rewrite !string_append_assoc, !append_cons.
  rewrite !string_append_assoc, !append_cons.
  by rewrite !fields_cons.
Qed.

Lemma parse_more r s extra :
  CarRecordValidator.validate r = true ->
  Text.free_of Text.comma (id r) = true ->
  Text.free_of Text.comma (model r) = true ->
  Text.free_of Text.comma (condition r) = true ->
  price_survives r ->
  Text.free_of Text.comma s = true ->
  parse (Text.join Text.comma
           [id r; model r; condition r; Double.show (pricePerDay r); s]
         +:+ String Text.comma extra)
  = Ok (Some (RentalService.set_status s r)).
Proof.
  intros Hv Hi Hm Hc Hp Hs.
  erewrite parse_long; cycle 1.
  - cbn [Text.join]. rewrite string_append_assoc. apply append_delim_nonempty.
  - apply tokenize_more; auto using show_comma_free.
  - unfold assemble. rewrite Hp.
    change (CarRecordValidator.validate
              (mkCarRecord (id r) (model r) (condition r) (pricePerDay r) s))
      with (CarRecordValidator.validate r).
    by rewrite Hv.
Qed.

(** X24.  Whatever follows the fifth field of a line is not read: for a
    valid record whose id, model and condition hold no comma and whose
    price survives its text, and for every status text [s] without a comma,
    the line of the record with the status [s], followed by a comma and any
    text, parses to the record with the status [s].  So a record whose
    status holds a comma is serialized without complaint and comes back
    with its status cut at the first comma. *)
Theorem X24_fields_after_the_fifth (r : CarRecord) (s extra : string) :
  CarRecordValidator.validate r = true ->
  Text.free_of Text.comma (id r) = true ->
  Text.free_of Text.comma (model r) = true ->
  Text.free_of Text.comma (condition r) = true ->
  price_survives r ->
  Text.free_of Text.comma s = true ->
  parse (Text.join Text.comma
           [id r; model r; condition r; Double.show (pricePerDay r); s]
         +:+ String Text.comma extra)
  = Ok (Some (RentalService.set_status s r))
  /\ exists line,
       serialize (RentalService.set_status (s +:+ String Text.comma extra) r)
       = Ok line
       /\ parse line = Ok (Some (RentalService.set_status s r)).
Proof.
  intros Hv Hi Hm Hc Hp Hs.
  pose proof (parse_more r s extra Hv Hi Hm Hc Hp Hs) as Hparse.
  split; [done|]. eexists. split.
  - apply serialize_valid. by rewrite validate_set_status.
  - rewrite <- Hparse. f_equal. simpl.
    by repeat (rewrite !string_append_assoc || rewrite !append_cons).
Qed.

Lemma X24_fields_after_the_fifth_witness :
  parse Sample.unit_test_line = Ok (Some Sample.horizon)
  /\ exists line,
       serialize (Spec.rented_by "a,b" Sample.horizon) = Ok line
       /\ parse line = Ok (Some (Spec.rented_by "a" Sample.horizon)).
Proof.
  destruct (X24_fields_after_the_fifth Sample.horizon "Available" "None")
    as [H1 _]; try (vm_compute; reflexivity).
  destruct (X24_fields_after_the_fifth Sample.horizon
              "Rented by the user ID: a" "b")
    as [_ H2]; try (vm_compute; reflexivity).
  split; [|exact H2].
  etransitivity; [|exact H1]. f_equal.
Defined.

(** X25.  The legacy layer reads what it writes: a legacy record with an
    allowed condition, a price that is not less than or equal to zero and
    survives its six-digit text, no comma in its texts, and an availability
    and a due date that are not empty, comes back from [parseCarLine]
    applied to its serialization. *)
Theorem X25_legacy_round_trip (r : legacy_file.CarRecord) :
  Text.free_of Text.comma (legacy_file.model r) = true ->
  Text.free_of Text.comma (legacy_file.condition r) = true ->
  Text.free_of Text.comma (legacy_file.availability r) = true ->
  Text.free_of Text.comma (legacy_file.dueDate r) = true ->
  legacy_file.availability r <> "" -> legacy_file.dueDate r <> "" ->
  legacy_file.isValidCondition (legacy_file.condition r) = true ->
  Double.le (legacy_file.price r) Double.zero = false ->
  Double.stod (Double.show (legacy_file.price r)) = Ok (legacy_file.price r) ->
  legacy_file.parseCarLine (legacy_file.serialize r) = Some r.
Proof.
  intros Hm Hc Ha Hd Hna Hnd Hcond Hpos Hprice.
  erewrite parseCarLine_tokens; cycle 1.
  - unfold legacy_file.serialize. apply append_delim_nonempty.
  - apply (tokenize_five _ _ _ _ _ Hm Hc (show_comma_free _) Ha Hd Hnd).
  - rewrite Hprice, Hcond, Hpos. simpl.
    apply String.eqb_neq in Hna, Hnd. rewrite Hna, Hnd. by destruct r.
Qed.

Lemma X25_legacy_round_trip_witness :
  legacy_file.parseCarLine
    (legacy_file.serialize
       (legacy_file.makeRecord "Civic" "good" (Double.of_Z 2500)))
  = Some (legacy_file.makeRecord "Civic" "good" (Double.of_Z 2500)).
Proof.
  apply (X25_legacy_round_trip
           (legacy_file.makeRecord "Civic" "good" (Double.of_Z 2500)));
    try (vm_compute; reflexivity); simpl; discriminate.
Defined.
End MoreFields.
